(** * amp-selector 0.1: a shallow embedding of [AmpSelector]

    The widget of [extensions/amp-selector/0.1/amp-selector.js] is a JavaScript
    class whose methods mutate two kinds of state: the private fields of the
    instance, and the attributes of the DOM elements it holds references to.
    Both are modelled explicitly: DOM elements live in a heap indexed by
    object identity, the instance is a record of its fields, and every method
    is a computation in a state-and-exception monad over the pair. *)

From stdpp Require Import gmap strings list.

Local Open Scope string_scope.
Local Open Scope list_scope.
Local Open Scope Z_scope.

(** ** The DOM as the widget sees it *)

(** An object reference: the identity of a DOM element.  [Array.indexOf] and
    [Array.includes] compare elements by identity, so do [indexOf] and
    [includes] below. *)
Abbreviation ref := nat (only parsing).

(** A DOM element: its attribute map ([getAttribute], [setAttribute],
    [hasAttribute], [removeAttribute]), its [tabIndex] property and its child
    list ([appendChild], [removeChild]). *)
Record Element := mkElement {
  attributes : gmap string string;
  tabIndex : Z;
  childNodes : list ref;
}.

(** What [document.createElement] returns. *)
Definition blankElement : Element :=
  {| attributes := ∅; tabIndex := 0; childNodes := [] |}.

Global Instance Element_inhabited : Inhabited Element := populate blankElement.

(** The payload built by [createCustomEvent(win, 'amp-selector.select', detail)].
    [getAttribute] returns [null] for a missing attribute, hence the options. *)
Record CustomEvent := mkCustomEvent {
  eventType : string;
  targetOption : option string;
  selectedOptions : list (option string);
}.

(** Calls into the host that the widget makes and never reads back, in the
    order they are made. *)
Inductive Effect :=
  | PreventDefault
  | TryFocus (el : ref)
  | Trigger (target : ref) (name : string) (event : CustomEvent)
  | AddEventListener (target : ref) (type : string).

Inductive KEYBOARD_SELECT_MODES := NONE | FOCUS | SELECT.

Global Instance KEYBOARD_SELECT_MODES_eq_dec : EqDecision KEYBOARD_SELECT_MODES.
Proof. solve_decision. Defined.

(** The string value of each enum member (source lines 30-34). *)
Definition mode_string (m : KEYBOARD_SELECT_MODES) : string :=
  match m with NONE => "none" | FOCUS => "focus" | SELECT => "select" end.

(** Modelled from the spec: [isEnumValue] of [src/types] is not among the
    sources; [isEnumValue(KEYBOARD_SELECT_MODES, s)] holds when [s] is the
    value of a member of the enum, here the member returned. *)
Definition parse_mode (s : string) : option KEYBOARD_SELECT_MODES :=
  if decide (s = "none") then Some NONE
  else if decide (s = "focus") then Some FOCUS
  else if decide (s = "select") then Some SELECT
  else None.

(** The handle returned by [actionServiceForDoc] of [src/services]; its
    [trigger] method is recorded as a [Trigger] effect. *)
Inductive ActionService := actionServiceForDoc.

(** ** The instance *)

(** The fields assigned in the constructor (source lines 40-71), with
    [element] the host element of [AMP.BaseElement]. *)
Record AmpSelector := mkAmpSelector {
  element : ref;
  isMultiple_ : bool;
  selectedOptions_ : list ref;
  options_ : list ref;
  inputs_ : list ref;
  isDisabled_ : bool;
  action_ : option ActionService;
  focusedIndex_ : Z;
  kbSelectMode_ : KEYBOARD_SELECT_MODES;
}.

Definition constructor (host : ref) : AmpSelector :=
  {| element := host;
     isMultiple_ := false;
     selectedOptions_ := [];
     options_ := [];
     inputs_ := [];
     isDisabled_ := false;
     action_ := None;
     focusedIndex_ := 0;
     kbSelectMode_ := NONE |}.

(** The whole state a method can touch: the element heap, [document.body],
    the instance, and the trace of host calls. *)
Record World := mkWorld {
  heap : gmap ref Element;
  body : ref;
  this : AmpSelector;
  effects : list Effect;
}.

(** ** Exceptions and the method monad *)

Inductive Exception :=
  | TypeError
  | NotFoundError
  | AssertionError (message : string).

(** A method either returns normally or throws; in both cases the mutations
    made so far stay in place. *)
Inductive Outcome (A : Type) :=
  | Return (a : A) (w : World)
  | Throw (e : Exception) (w : World).
Global Arguments Return {A} a w.
Global Arguments Throw {A} e w.

Definition M (A : Type) : Type := World → Outcome A.

Global Instance M_ret : MRet M := λ A a w, Return a w.
Global Instance M_bind : MBind M := λ A B f m w,
  match m w with
  | Return a w' => f a w'
  | Throw e w' => Throw e w'
  end.

Definition throw {A} (e : Exception) : M A := λ w, Throw e w.
Definition gets {A} (f : World → A) : M A := λ w, Return (f w) w.
Definition modify (f : World → World) : M unit := λ w, Return () (f w).

(** The world an outcome ends in. *)
Definition final {A} (o : Outcome A) : World :=
  match o with Return _ w => w | Throw _ w => w end.

(** [array.forEach(f)] over a snapshot of the array. *)
Fixpoint forEach {A} (l : list A) (f : A → M unit) : M unit :=
  match l with
  | [] => mret ()
  | x :: l' => f x ;; forEach l' f
  end.

(** ** Field and heap updates *)

Definition with_heap (f : gmap ref Element → gmap ref Element) (w : World)
    : World :=
  {| heap := f (heap w); body := body w; this := this w;
     effects := effects w |}.

Definition with_this (f : AmpSelector → AmpSelector) (w : World) : World :=
  {| heap := heap w; body := body w; this := f (this w);
     effects := effects w |}.

Definition with_effect (e : Effect) (w : World) : World :=
  {| heap := heap w; body := body w; this := this w;
     effects := effects w ++ [e] |}.

Definition updThis (f : AmpSelector → AmpSelector) : M unit :=
  modify (with_this f).

Definition updHeap (f : gmap ref Element → gmap ref Element) : M unit :=
  modify (with_heap f).

Definition emit (e : Effect) : M unit := modify (with_effect e).

Definition with_isMultiple (b : bool) (s : AmpSelector) : AmpSelector :=
  {| element := element s; isMultiple_ := b;
     selectedOptions_ := selectedOptions_ s; options_ := options_ s;
     inputs_ := inputs_ s; isDisabled_ := isDisabled_ s; action_ := action_ s;
     focusedIndex_ := focusedIndex_ s; kbSelectMode_ := kbSelectMode_ s |}.

Definition with_selectedOptions (l : list ref) (s : AmpSelector) : AmpSelector :=
  {| element := element s; isMultiple_ := isMultiple_ s;
     selectedOptions_ := l; options_ := options_ s;
     inputs_ := inputs_ s; isDisabled_ := isDisabled_ s; action_ := action_ s;
     focusedIndex_ := focusedIndex_ s; kbSelectMode_ := kbSelectMode_ s |}.

Definition with_options (l : list ref) (s : AmpSelector) : AmpSelector :=
  {| element := element s; isMultiple_ := isMultiple_ s;
     selectedOptions_ := selectedOptions_ s; options_ := l;
     inputs_ := inputs_ s; isDisabled_ := isDisabled_ s; action_ := action_ s;
     focusedIndex_ := focusedIndex_ s; kbSelectMode_ := kbSelectMode_ s |}.

Definition with_inputs (l : list ref) (s : AmpSelector) : AmpSelector :=
  {| element := element s; isMultiple_ := isMultiple_ s;
     selectedOptions_ := selectedOptions_ s; options_ := options_ s;
     inputs_ := l; isDisabled_ := isDisabled_ s; action_ := action_ s;
     focusedIndex_ := focusedIndex_ s; kbSelectMode_ := kbSelectMode_ s |}.

Definition with_isDisabled (b : bool) (s : AmpSelector) : AmpSelector :=
  {| element := element s; isMultiple_ := isMultiple_ s;
     selectedOptions_ := selectedOptions_ s; options_ := options_ s;
     inputs_ := inputs_ s; isDisabled_ := b; action_ := action_ s;
     focusedIndex_ := focusedIndex_ s; kbSelectMode_ := kbSelectMode_ s |}.

Definition with_action (a : option ActionService) (s : AmpSelector) : AmpSelector :=
  {| element := element s; isMultiple_ := isMultiple_ s;
     selectedOptions_ := selectedOptions_ s; options_ := options_ s;
     inputs_ := inputs_ s; isDisabled_ := isDisabled_ s; action_ := a;
     focusedIndex_ := focusedIndex_ s; kbSelectMode_ := kbSelectMode_ s |}.

Definition with_focusedIndex (i : Z) (s : AmpSelector) : AmpSelector :=
  {| element := element s; isMultiple_ := isMultiple_ s;
     selectedOptions_ := selectedOptions_ s; options_ := options_ s;
     inputs_ := inputs_ s; isDisabled_ := isDisabled_ s; action_ := action_ s;
     focusedIndex_ := i; kbSelectMode_ := kbSelectMode_ s |}.

Definition with_kbSelectMode (m : KEYBOARD_SELECT_MODES) (s : AmpSelector)
    : AmpSelector :=
  {| element := element s; isMultiple_ := isMultiple_ s;
     selectedOptions_ := selectedOptions_ s; options_ := options_ s;
     inputs_ := inputs_ s; isDisabled_ := isDisabled_ s; action_ := action_ s;
     focusedIndex_ := focusedIndex_ s; kbSelectMode_ := m |}.

(** ** DOM primitives *)

Definition with_attributes (f : gmap string string → gmap string string)
    (e : Element) : Element :=
  {| attributes := f (attributes e); tabIndex := tabIndex e;
     childNodes := childNodes e |}.

Definition with_tabIndex (i : Z) (e : Element) : Element :=
  {| attributes := attributes e; tabIndex := i; childNodes := childNodes e |}.

Definition with_childNodes (f : list ref → list ref) (e : Element) : Element :=
  {| attributes := attributes e; tabIndex := tabIndex e;
     childNodes := f (childNodes e) |}.

(** Every reference denotes an element; one the heap has no entry for has no
    attributes and no children. *)
Definition upd (el : ref) (f : Element → Element) (h : gmap ref Element)
    : gmap ref Element :=
  <[el := f (h !!! el)]> h.

Definition updElement (el : ref) (f : Element → Element) : M unit :=
  updHeap (upd el f).

Definition attr (h : gmap ref Element) (el : ref) (name : string)
    : option string :=
  attributes (h !!! el) !! name.

Definition getAttribute (el : ref) (name : string) : M (option string) :=
  gets (λ w, attr (heap w) el name).

Definition has_attr (h : gmap ref Element) (el : ref) (name : string) : bool :=
  bool_decide (is_Some (attr h el name)).

Definition hasAttribute (el : ref) (name : string) : M bool :=
  gets (λ w, has_attr (heap w) el name).

Definition setAttribute (el : ref) (name value : string) : M unit :=
  updElement el (with_attributes (insert name value)).

Definition removeAttribute (el : ref) (name : string) : M unit :=
  updElement el (with_attributes (delete name)).

Definition setTabIndex (el : ref) (i : Z) : M unit :=
  updElement el (with_tabIndex i).

(** [doc.createElement]: a reference no element of the heap has yet. *)
Definition createElement : M ref :=
  λ w, let r := fresh (dom (heap w)) in
       Return r (with_heap (insert r blankElement) w).

(** [parent.removeChild(child)] throws [NotFoundError] when [child] is not a
    child of [parent]. *)
Definition removeChild (parent child : ref) : M unit :=
  kids ← gets (λ w, childNodes (heap w !!! parent));
  if decide (child ∈ kids)
  then updElement parent (with_childNodes (filter (λ c, c ≠ child)))
  else throw NotFoundError.

(** [parent.appendChild(fragment)] moves the nodes of the fragment to the end
    of the child list of [parent]. *)
Definition appendChild (parent : ref) (fragment : list ref) : M unit :=
  updElement parent (with_childNodes (λ kids, kids ++ fragment)).

(** ** JavaScript array and value helpers *)

Fixpoint index_of (l : list ref) (x : ref) : option nat :=
  match l with
  | [] => None
  | y :: l' => if decide (y = x) then Some 0%nat else S <$> index_of l' x
  end.

(** [array.indexOf(x)]: the first index holding [x], or [-1]. *)
Definition indexOf (l : list ref) (x : ref) : Z :=
  match index_of l x with Some i => Z.of_nat i | None => -1 end.

(** [array.includes(x)] *)
Definition includes (l : list ref) (x : ref) : bool := bool_decide (x ∈ l).

(** [array[i]] for a number [i]: [undefined] (here [None]) outside the array. *)
Definition at_index (l : list ref) (i : Z) : option ref :=
  if decide (i < 0) then None else l !! Z.to_nat i.

(** Truthiness of what [getAttribute] returns: [null] and the empty string
    are falsy. *)
Definition truthy (v : option string) : bool :=
  match v with
  | None => false
  | Some s => negb (bool_decide (s = ""))
  end.

(** A string where JavaScript converts a value that may be [null] to one:
    [setAttribute(name, null)] and the property key of [map[null]]. *)
Definition to_string (v : option string) : string := default "null" v.

(** ** Selection primitives *)

(** [clearSelection_] (source lines 366-373). *)
Definition clearSelection_ (el : ref) : M unit :=
  removeAttribute el "selected" ;;
  setAttribute el "aria-selected" "false" ;;
  sel ← gets (λ w, selectedOptions_ (this w));
  let selIndex := indexOf sel el in
  if decide (selIndex ≠ -1)
  then updThis (with_selectedOptions (delete (Z.to_nat selIndex) sel))
  else mret ().

(** [array.pop()] on [selectedOptions_]: removes and returns the last element
    ([undefined] on an empty array). *)
Definition pop_selectedOptions : M (option ref) :=
  sel ← gets (λ w, selectedOptions_ (this w));
  updThis (with_selectedOptions (removelast sel)) ;;
  mret (last sel).

(** The [while] loop of [clearAllSelections_], unrolled at most [n] times. *)
Fixpoint clearAllSelections_loop (n : nat) : M unit :=
  match n with
  | O => mret ()
  | S n' =>
      sel ← gets (λ w, selectedOptions_ (this w));
      if decide (0 < length sel)%nat then
        el ← pop_selectedOptions;
        match el with
        | Some el => clearSelection_ el
        | None => throw TypeError
        end ;;
        clearAllSelections_loop n'
      else mret ()
  end.

(** [clearAllSelections_] (source lines 379-385).  Every iteration pops one
    element, so the length of the array bounds the number of iterations. *)
Definition clearAllSelections_ : M unit :=
  sel ← gets (λ w, selectedOptions_ (this w));
  clearAllSelections_loop (length sel).

(** [setSelection_] (source lines 392-403). *)
Definition setSelection_ (el : ref) : M unit :=
  sel ← gets (λ w, selectedOptions_ (this w));
  if includes sel el then mret ()
  else
    multiple ← gets (λ w, isMultiple_ (this w));
    (if negb multiple then clearAllSelections_ else mret ()) ;;
    setAttribute el "selected" "" ;;
    setAttribute el "aria-selected" "true" ;;
    sel ← gets (λ w, selectedOptions_ (this w));
    updThis (with_selectedOptions (sel ++ [el])).

(** ** Focus *)

(** [updateFocus_] (source lines 168-188).  An element is truthy, so
    [selectedOptions_[0] || options_[0]] falls through to the first option
    only when nothing is selected. *)
Definition updateFocus_ : M unit :=
  mode ← gets (λ w, kbSelectMode_ (this w));
  if decide (mode = NONE) then mret ()
  else
    opts ← gets (λ w, options_ (this w));
    forEach opts (λ opt, setTabIndex opt (-1)) ;;
    multiple ← gets (λ w, isMultiple_ (this w));
    sel ← gets (λ w, selectedOptions_ (this w));
    let initialFocusedElement :=
      if (multiple : bool) then at_index opts 0
      else match at_index sel 0 with
           | Some el => Some el
           | None => at_index opts 0
           end in
    match initialFocusedElement with
    | Some el =>
        updThis (with_focusedIndex (indexOf opts el)) ;;
        setTabIndex el 0
    | None => mret ()
    end.

(** ** Form inputs *)

(** The body of the [selectedOptions_.forEach] of [setInputs_] (source lines
    233-247); [fragment] and [selectedValues] are the two locals it grows. *)
Definition addInput (elementName formId : option string)
    (acc : list ref * list (option string)) (opt : ref)
    : M (list ref * list (option string)) :=
  let fragment := acc.1 in
  let selectedValues := acc.2 in
  disabled ← hasAttribute opt "disabled";
  if negb disabled then
    hidden ← createElement;
    value ← getAttribute opt "option";
    setAttribute hidden "type" "hidden" ;;
    setAttribute hidden "name" (to_string elementName) ;;
    setAttribute hidden "value" (to_string value) ;;
    (if truthy formId then setAttribute hidden "form" (to_string formId)
     else mret ()) ;;
    inputs ← gets (λ w, inputs_ (this w));
    updThis (with_inputs (inputs ++ [hidden])) ;;
    mret (fragment ++ [hidden], selectedValues ++ [value])
  else mret (fragment, selectedValues).

(** A [forEach] whose callback updates locals of the enclosing function. *)
Fixpoint foldM {A B} (f : B → A → M B) (l : list A) (b : B) : M B :=
  match l with
  | [] => mret b
  | x :: l' => b' ← f b x; foldM f l' b'
  end.

(** [setInputs_] (source lines 219-250). *)
Definition setInputs_ : M (list (option string)) :=
  host ← gets (λ w, element (this w));
  elementName ← getAttribute host "name";
  disabled ← gets (λ w, isDisabled_ (this w));
  if negb (truthy elementName) || disabled then mret []
  else
    formId ← getAttribute host "form";
    inputs ← gets (λ w, inputs_ (this w));
    forEach inputs (λ input, removeChild host input) ;;
    updThis (with_inputs []) ;;
    sel ← gets (λ w, selectedOptions_ (this w));
    '(fragment, selectedValues) ← foldM (addInput elementName formId) sel ([], []);
    appendChild host fragment ;;
    mret selectedValues.

(** ** User selection *)

(** Modelled from the spec: [mutateElement] of the host's base element is not
    among the sources; the mutator is applied in place, which the spec accepts
    as a substitute for the batched pass. *)
Definition mutateElement (mutator : M unit) : M unit := mutator.

(** [onOptionPicked_] (source lines 256-290).  [selectedValues] stays
    [undefined] ([None]) on the path that assigns nothing; an array, even an
    empty one, is truthy. *)
Definition onOptionPicked_ (el : ref) : M unit :=
  disabled ← hasAttribute el "disabled";
  if (disabled : bool) then mret ()
  else mutateElement (
    selected ← hasAttribute el "selected";
    multiple ← gets (λ w, isMultiple_ (this w));
    selectedValues ←
      (if (selected : bool) then
         if (multiple : bool) then
           clearSelection_ el ;;
           values ← setInputs_;
           mret (Some values)
         else mret None
       else
         setSelection_ el ;;
         values ← setInputs_;
         mret (Some values));
    match selectedValues with
    | Some values =>
        updateFocus_ ;;
        target ← getAttribute el "option";
        let selectEvent :=
          {| eventType := "amp-selector.select";
             targetOption := target;
             selectedOptions := values |} in
        action ← gets (λ w, action_ (this w));
        host ← gets (λ w, element (this w));
        match action with
        | Some _ => emit (Trigger host "select" selectEvent)
        | None => throw TypeError
        end
    | None => mret ()
    end).

(** [clickHandler_] (source lines 296-307).  [target] is [event.target];
    [closestBySelector el] is what [closestBySelector(el, '[option]')] of
    [src/dom] returns for it. *)
Definition clickHandler_ (closestBySelector : ref → option ref)
    (target : option ref) : M unit :=
  match target with
  | None => mret ()
  | Some el =>
      isOption ← hasAttribute el "option";
      match (if (isOption : bool) then Some el else closestBySelector el) with
      | Some el => onOptionPicked_ el
      | None => mret ()
      end
  end.

(** ** Keyboard *)

(** The four members of [Keycodes] the handler reads; the table itself, of
    [src/utils/keycodes], is not among the sources, so the handler takes it as
    an argument. *)
Record KeycodeTable := mkKeycodeTable {
  LEFT_ARROW : Z;
  UP_ARROW : Z;
  RIGHT_ARROW : Z;
  DOWN_ARROW : Z;
}.

(** The [switch] of [keyDownHandler_] (source lines 315-334): the first
    matching [case] decides. *)
Definition direction (Keycodes : KeycodeTable) (isLtr : bool) (keyCode : Z) : Z :=
  if decide (keyCode = LEFT_ARROW Keycodes) then (if isLtr then -1 else 1)
  else if decide (keyCode = UP_ARROW Keycodes) then -1
  else if decide (keyCode = RIGHT_ARROW Keycodes) then (if isLtr then 1 else -1)
  else if decide (keyCode = DOWN_ARROW Keycodes) then 1
  else 0.

(** [keyDownHandler_] (source lines 313-359).  Assigning to a property of
    [undefined] throws [TypeError]; [%] is the truncating remainder. *)
Definition keyDownHandler_ (Keycodes : KeycodeTable) (keyCode : Z) : M unit :=
  b ← gets body;
  docDir ← getAttribute b "dir";
  let isLtr := negb (bool_decide (docDir = Some "rtl")) in
  let dir := direction Keycodes isLtr keyCode in
  if decide (dir = 0) then mret ()
  else
    emit PreventDefault ;;
    opts ← gets (λ w, options_ (this w));
    focused ← gets (λ w, focusedIndex_ (this w));
    match at_index opts focused with
    | Some el => setTabIndex el (-1)
    | None => throw TypeError
    end ;;
    updThis (with_focusedIndex (Z.rem (focused + dir) (Z.of_nat (length opts)))) ;;
    focused ← gets (λ w, focusedIndex_ (this w));
    (if decide (focused < 0)
     then updThis (with_focusedIndex (focused + Z.of_nat (length opts)))
     else mret ()) ;;
    focused ← gets (λ w, focusedIndex_ (this w));
    match at_index opts focused with
    | Some newSelectedOption =>
        setTabIndex newSelectedOption 0 ;;
        emit (TryFocus newSelectedOption) ;;
        mode ← gets (λ w, kbSelectMode_ (this w));
        if decide (mode = SELECT) then onOptionPicked_ newSelectedOption
        else mret ()
    | None => throw TypeError
    end.

(** ** External selection *)

(** The value pushed for the [selected] attribute, with every value that is
    not [null] or an array standing as the property key it converts to in
    [map[value] = true]. *)
Inductive JsValue :=
  | JsNull
  | JsScalar (key : string)
  | JsArray (keys : list string).

(** [selectedAttributeMutated_] (source lines 129-157). *)
Definition selectedAttributeMutated_ (newValue : JsValue) : M unit :=
  match newValue with
  | JsNull => clearAllSelections_
  | _ =>
      let selectedArray :=
        match newValue with
        | JsArray keys => keys
        | JsScalar key => [key]
        | JsNull => []
        end in
      multiple ← gets (λ w, isMultiple_ (this w));
      let selectedArray :=
        if negb multiple then take 1 selectedArray else selectedArray in
      let selectedMap : gmap string bool :=
        foldl (λ map value, <[value := true]> map) ∅ selectedArray in
      opts ← gets (λ w, options_ (this w));
      forEach opts (λ el,
        value ← getAttribute el "option";
        if bool_decide (selectedMap !! to_string value = Some true)
        then setSelection_ el
        else clearSelection_ el) ;;
      updateFocus_ ;;
      setInputs_ ;;
      mret ()
  end.

(** [mutatedAttributesCallback] (source lines 117-122); [None] is a
    [mutations] object without a [selected] key. *)
Definition mutatedAttributesCallback (selected : option JsValue) : M unit :=
  match selected with
  | Some newValue => selectedAttributeMutated_ newValue
  | None => mret ()
  end.

(** ** Build *)

(** The callback of the [forEach] of [init_] (source lines 195-207). *)
Definition initOption (opt : ref) : M unit :=
  setAttribute opt "role" "option" ;;
  disabled ← hasAttribute opt "disabled";
  (if (disabled : bool) then setAttribute opt "aria-disabled" "true"
   else mret ()) ;;
  selected ← hasAttribute opt "selected";
  (if (selected : bool) then setSelection_ opt else clearSelection_ opt) ;;
  setTabIndex opt 0 ;;
  opts ← gets (λ w, options_ (this w));
  updThis (with_options (opts ++ [opt])).

(** [init_] (source lines 193-210); [queried] is what
    [this.element.querySelectorAll('[option]')] returns, in document order. *)
Definition init_ (queried : list ref) : M unit :=
  forEach queried initOption ;;
  updateFocus_ ;;
  setInputs_ ;;
  mret ().

(** Modelled from the spec: [user().assert] of [src/log] is not among the
    sources; a failed assertion fails fast and aborts initialization. *)
Definition assert (condition : bool) (message : string) : M unit :=
  if condition then mret () else throw (AssertionError message).

(** [buildCallback] (source lines 79-114). *)
Definition buildCallback (queried : list ref) : M unit :=
  host ← gets (λ w, element (this w));
  updThis (with_action (Some actionServiceForDoc)) ;;
  multiple ← hasAttribute host "multiple";
  updThis (with_isMultiple multiple) ;;
  disabled ← hasAttribute host "disabled";
  updThis (with_isDisabled disabled) ;;
  setAttribute host "role" "listbox" ;;
  (if (multiple : bool) then setAttribute host "aria-multiselectable" "true"
   else mret ()) ;;
  (if (disabled : bool) then setAttribute host "aria-disabled" "true"
   else mret ()) ;;
  attribute ← getAttribute host "keyboard-select-mode";
  let kbSelectMode :=
    if truthy attribute then to_string attribute else mode_string NONE in
  match parse_mode kbSelectMode with
  | None => throw (AssertionError "Invalid keyboard-select-mode")
  | Some mode =>
      assert (negb (multiple && bool_decide (mode = SELECT)))
        "[keyboard-select-mode=select] not supported for multiple selection amp-selector" ;;
      updThis (with_kbSelectMode mode) ;;
      init_ queried ;;
      if negb disabled then
        emit (AddEventListener host "click") ;;
        if decide (mode ≠ NONE)
        then emit (AddEventListener host "keydown")
        else mret ()
      else mret ()
  end.

(** * Vocabulary of the statements *)

(** What [clearSelection_] does to the element it is given. *)
Definition deselected (e : Element) : Element :=
  with_attributes (insert "aria-selected" "false")
    (with_attributes (delete "selected") e).

(** [selectedOptions_] after [splice] at the first index holding [el]. *)
Definition spliced (sel : list ref) (el : ref) : list ref :=
  match index_of sel el with
  | Some i => delete i sel
  | None => sel
  end.

(** What [setSelection_] does to an element it marks. *)
Definition marked (e : Element) : Element :=
  with_attributes (insert "aria-selected" "true")
    (with_attributes (insert "selected" "") e).

(** [selectedOptions_] after [setSelection_]. *)
Definition selected_after (multiple : bool) (sel : list ref) (el : ref)
    : list ref :=
  if includes sel el then sel
  else (if multiple then sel else []) ++ [el].

(** The element at [r] after [setSelection_ el]. *)
Definition selected_element (w : World) (el r : ref) : Element :=
  let sel := selectedOptions_ (this w) in
  if includes sel el then heap w !!! r
  else if decide (r = el) then marked (heap w !!! el)
  else if negb (isMultiple_ (this w)) && bool_decide (r ∈ sel)
       then deselected (heap w !!! r)
       else heap w !!! r.

(** Two heaps that differ in [tabIndex] values only. *)
Definition same_markup (h h' : gmap ref Element) : Prop :=
  ∀ r, attributes (h' !!! r) = attributes (h !!! r) ∧
       childNodes (h' !!! r) = childNodes (h !!! r).

(** The element [updateFocus_] picks: the first option of a multi-select
    widget, else the first selected option, else the first option. *)
Definition initialFocusedElement (s : AmpSelector) : option ref :=
  if isMultiple_ s then at_index (options_ s) 0
  else match at_index (selectedOptions_ s) 0 with
       | Some el => Some el
       | None => at_index (options_ s) 0
       end.

(** [focusedIndex_] after [updateFocus_]. *)
Definition focus_after (s : AmpSelector) : Z :=
  if decide (kbSelectMode_ s = NONE) then focusedIndex_ s
  else match initialFocusedElement s with
       | Some el => indexOf (options_ s) el
       | None => focusedIndex_ s
       end.

(** The event Option Picked dispatches for [el] with the values [values]. *)
Definition selectEvent (w : World) (el : ref) (values : list (option string))
    : Effect :=
  Trigger (element (this w)) "select"
    {| eventType := "amp-selector.select";
       targetOption := attr (heap w) el "option";
       selectedOptions := values |}.

(** Whether the document reads left to right, as [keyDownHandler_] tests it. *)
Definition isLtr (w : World) : bool :=
  negb (bool_decide (attr (heap w) (body w) "dir" = Some "rtl")).

(** The attributes of the hidden input made for an option of value [value]. *)
Definition hidden_attributes (elementName formId value : option string)
    : gmap string string :=
  (if truthy formId then <["form" := to_string formId]> else id)
    (<["value" := to_string value]>
       (<["name" := to_string elementName]> (<["type" := "hidden"]> ∅))).

(** The children of an element of [h] that are not in [inputs]. *)
Definition detached (inputs : list ref) (kids : list ref) : list ref :=
  filter (λ c, c ∉ inputs) kids.

(** The options of [sel] that carry no [disabled] marker in [h]. *)
Definition enabled (h : gmap ref Element) (sel : list ref) : list ref :=
  filter (λ r, has_attr h r "disabled" = false) sel.

(** [input] is a hidden input made for [opt]: an element that was not in [h],
    whose attributes in [h'] are those of a hidden input with the value of
    [opt]. *)
Definition input_for (elementName formId : option string)
    (h h' : gmap ref Element) (input opt : ref) : Prop :=
  (input ∉ dom h) ∧
  h' !!! input =
    {| attributes := hidden_attributes elementName formId (attr h opt "option");
       tabIndex := 0; childNodes := [] |}.

(** The four attributes [setInputs_] writes. *)
Definition input_attribute (name : string) : Prop :=
  name = "type" ∨ name = "name" ∨ name = "value" ∨ name = "form".

(** [selectedOptions_] after the callback of [init_] has run on [opt]. *)
Definition selection_after_init (w : World) (opt : ref) : list ref :=
  if has_attr (heap w) opt "selected"
  then selected_after (isMultiple_ (this w)) (selectedOptions_ (this w)) opt
  else spliced (selectedOptions_ (this w)) opt.

(** Whether [r] carries the [selected] marker after that callback. *)
Definition marker_after_init (w : World) (opt r : ref) : bool :=
  if has_attr (heap w) opt "selected" then
    if includes (selectedOptions_ (this w)) opt
    then has_attr (heap w) r "selected"
    else if decide (r = opt) then true
    else if negb (isMultiple_ (this w)) &&
            bool_decide (r ∈ selectedOptions_ (this w))
         then false
         else has_attr (heap w) r "selected"
  else if decide (r = opt) then false
  else has_attr (heap w) r "selected".

(** The options [init_] finds marked [selected] in the markup [h0]. *)
Definition marked_in (h0 : gmap ref Element) (l : list ref) : list ref :=
  filter (λ r, has_attr h0 r "selected" = true) l.

(** The selection of a single-select widget once [init_] has gone through
    [l]: the last marked option, if there is one. *)
Definition last_marked (h0 : gmap ref Element) (l : list ref) : list ref :=
  match last (marked_in h0 l) with
  | Some r => [r]
  | None => []
  end.

(** [handler], run [n] times in a row. *)
Fixpoint times (n : nat) (handler : M unit) : M unit :=
  match n with
  | O => mret ()
  | S n' => handler ;; times n' handler
  end.

(** What a built widget in [keyboard-select-mode="select"] satisfies, and
    what Option Picked relies on when a key press drives it: the options are
    distinct elements, the widget is single-select with at most one
    selection, the action service is installed, and the hidden inputs are
    distinct children of the host.  Nothing is asked in the other modes. *)
Definition select_ready (w : World) : Prop :=
  kbSelectMode_ (this w) = SELECT →
  NoDup (options_ (this w)) ∧
  isMultiple_ (this w) = false ∧
  (length (selectedOptions_ (this w)) ≤ 1)%nat ∧
  action_ (this w) ≠ None ∧
  NoDup (inputs_ (this w)) ∧
  ∀ i, i ∈ inputs_ (this w) → i ∈ childNodes (heap w !!! element (this w)).

(** The selected options are distinct elements and each carries the
    [selected] marker. *)
Definition selection_marked (w : World) : Prop :=
  NoDup (selectedOptions_ (this w)) ∧
  ∀ r, r ∈ selectedOptions_ (this w) → has_attr (heap w) r "selected" = true.

(** What [buildCallback] establishes and every handler keeps: the options are
    distinct elements, select mode goes with single selection, a single-select
    widget has at most one selection, the action service is installed, the
    hidden inputs are distinct children of the host, and the selection is
    marked. *)
Definition consistent (w : World) : Prop :=
  NoDup (options_ (this w)) ∧
  (kbSelectMode_ (this w) = SELECT → isMultiple_ (this w) = false) ∧
  (isMultiple_ (this w) = false →
   (length (selectedOptions_ (this w)) ≤ 1)%nat) ∧
  action_ (this w) ≠ None ∧
  NoDup (inputs_ (this w)) ∧
  (∀ i, i ∈ inputs_ (this w) → i ∈ childNodes (heap w !!! element (this w))) ∧
  selection_marked w.

(** What the host delivers to a built widget. *)
Inductive Event :=
  | Click (closestBySelector : ref → option ref) (target : option ref)
  | KeyDown (keyCode : Z)
  | AttributesMutated (selected : option JsValue).

Definition dispatch (Keycodes : KeycodeTable) (e : Event) : M unit :=
  match e with
  | Click closestBySelector target => clickHandler_ closestBySelector target
  | KeyDown keyCode => keyDownHandler_ Keycodes keyCode
  | AttributesMutated selected => mutatedAttributesCallback selected
  end.

(** The state after a sequence of events, each handler running to its return
    or to its exception. *)
Fixpoint after_events (Keycodes : KeycodeTable) (events : list Event)
    (w : World) : World :=
  match events with
  | [] => w
  | e :: events' =>
      after_events Keycodes events' (final (dispatch Keycodes e w))
  end.

(** * Sample documents *)

Definition sampleElement (attrs : list (string * string)) : Element :=
  {| attributes := list_to_map attrs; tabIndex := 0; childNodes := [] |}.

Definition hostEl : ref := 0%nat.
Definition optX : ref := 1%nat.
Definition optY : ref := 2%nat.
Definition optZ : ref := 3%nat.
Definition bodyEl : ref := 9%nat.

(** A document whose host element holds three options, in document order
    [optX], [optY], [optZ], with a freshly constructed selector on the host. *)
Definition sampleDocument (host x y z : list (string * string)) : World :=
  {| heap := list_to_map [(hostEl, sampleElement host);
                          (optX, sampleElement x);
                          (optY, sampleElement y);
                          (optZ, sampleElement z);
                          (bodyEl, sampleElement [])];
     body := bodyEl;
     this := constructor hostEl;
     effects := [] |}.

(** A single-select selector, freshly constructed, over options [X], [Y], [Z]. *)
Definition sampleSingle : World :=
  sampleDocument [("name", "color")]
    [("option", "X")] [("option", "Y")] [("option", "Z")].

(** A selector without a [name] attribute, built over options [X], [Y], [Z]. *)
Definition sampleUnnamed : World :=
  final (buildCallback [optX; optY; optZ]
           (sampleDocument [] [("option", "X")] [("option", "Y")]
              [("option", "Z")])).

(** The DOM key codes of the arrow keys. *)
Definition arrowKeycodes : KeycodeTable :=
  {| LEFT_ARROW := 37; UP_ARROW := 38; RIGHT_ARROW := 39; DOWN_ARROW := 40 |}.

(** A selector with [keyboard-select-mode="focus"] and no option in it. *)
Definition sampleEmpty : World :=
  {| heap := {[ hostEl := sampleElement [("keyboard-select-mode", "focus")];
                bodyEl := sampleElement [] ]};
     body := bodyEl;
     this := constructor hostEl;
     effects := [] |}.

(** A multi-select selector built over options [X] and [Y], both marked
    [selected], and [Z]. *)
Definition sampleMultiple : World :=
  final (buildCallback [optX; optY; optZ]
           (sampleDocument [("name", "color"); ("multiple", "")]
              [("option", "X"); ("selected", "")]
              [("option", "Y"); ("selected", "")]
              [("option", "Z")])).

(** A multi-select selector built over [A] (selected), [B] (selected and
    disabled) and [C]. *)
Definition sampleDisabledOption : World :=
  final (buildCallback [optX; optY; optZ]
           (sampleDocument [("name", "color"); ("multiple", "")]
              [("option", "A"); ("selected", "")]
              [("option", "B"); ("selected", ""); ("disabled", "")]
              [("option", "C")])).

(** A single-select selector, freshly constructed, over options [X], [Y] and
    [Z], all three marked [selected]. *)
Definition sampleAllMarked : World :=
  sampleDocument [("name", "color")]
    [("option", "X"); ("selected", "")]
    [("option", "Y"); ("selected", "")]
    [("option", "Z"); ("selected", "")].

(** A single-select selector with [keyboard-select-mode="select"], built
    over options [X], [Y], [Z]. *)
Definition sampleSelectMode : World :=
  final (buildCallback [optX; optY; optZ]
           (sampleDocument
              [("name", "color"); ("keyboard-select-mode", "select")]
              [("option", "X")] [("option", "Y")] [("option", "Z")])).

(** * Vocabulary of the further properties *)

(** [m] leaves the observation [π] of the state as it was, whether it returns
    or throws. *)
Definition unchanged {A T} (π : World → T) (m : M A) : Prop :=
  ∀ w, π (final (m w)) = π w.

(** What [buildCallback] fixes: the host, the three settings, the action
    service, the options and the document body. *)
Definition config (w : World)
    : ref * bool * bool * option ActionService * KEYBOARD_SELECT_MODES *
      list ref * ref :=
  (element (this w), isMultiple_ (this w), isDisabled_ (this w),
   action_ (this w), kbSelectMode_ (this w), options_ (this w), body w).

(** A freshly constructed widget on [host], in the document [h] with body
    [b], after the host calls recorded in [trace]. *)
Definition constructed (h : gmap ref Element) (b host : ref)
    (trace : list Effect) : World :=
  {| heap := h; body := b; this := constructor host; effects := trace |}.

(** The mode [buildCallback] reads off the host: the attribute, or ["none"]
    when it is missing or empty. *)
Definition requested_mode (h : gmap ref Element) (host : ref) : string :=
  let attribute := attr h host "keyboard-select-mode" in
  if truthy attribute then to_string attribute else mode_string NONE.

(** The listeners [buildCallback] attaches. *)
Definition listeners (host : ref) (disabled : bool)
    (mode : KEYBOARD_SELECT_MODES) : list Effect :=
  if disabled then []
  else AddEventListener host "click" ::
       (if decide (mode ≠ NONE) then [AddEventListener host "keydown"] else []).

(** The settings of the instance, the body and the trace of host calls. *)
Definition settings (w : World)
    : ref * bool * bool * option ActionService * KEYBOARD_SELECT_MODES *
      ref * list Effect :=
  (element (this w), isMultiple_ (this w), isDisabled_ (this w),
   action_ (this w), kbSelectMode_ (this w), body w, effects w).

(** A host that asks for an unknown keyboard mode. *)
Definition sampleBadMode : World :=
  sampleDocument [("keyboard-select-mode", "hover")]
    [("option", "X")] [("option", "Y")] [("option", "Z")].

(** A host that asks for select mode on a multi-select widget. *)
Definition sampleMultipleSelectMode : World :=
  sampleDocument [("multiple", ""); ("keyboard-select-mode", "select")]
    [("option", "X")] [("option", "Y")] [("option", "Z")].

(** A disabled host with a selected option. *)
Definition sampleDisabledHost : World :=
  sampleDocument [("name", "color"); ("disabled", "");
                  ("keyboard-select-mode", "focus")]
    [("option", "X"); ("selected", "")] [("option", "Y")] [("option", "Z")].

(** The state a navigation key leaves before Option Picked runs: the default
    is prevented, the option [old] under the cursor is taken out of the tab
    order, the cursor moves to [index], and the option [new] there is put in
    the tab order and focused. *)
Definition focus_moved (w : World) (old new : ref) (index : Z) : World :=
  with_effect (TryFocus new)
    (with_heap (upd new (with_tabIndex 0))
       (with_this (with_focusedIndex index)
          (with_heap (upd old (with_tabIndex (-1)))
             (with_effect PreventDefault w)))).

(** A single-select selector with [keyboard-select-mode="focus"], built over
    options [X], [Y] (marked [selected]) and [Z]. *)
Definition sampleFocusMode : World :=
  final (buildCallback [optX; optY; optZ]
           (sampleDocument
              [("name", "color"); ("keyboard-select-mode", "focus")]
              [("option", "X")] [("option", "Y"); ("selected", "")]
              [("option", "Z")])).

(** [selectedOptions_] after Option Picked has toggled [el]: a marked option
    is spliced out, an unmarked one selected. *)
Definition toggled (w : World) (el : ref) : list ref :=
  if has_attr (heap w) el "selected"
  then spliced (selectedOptions_ (this w)) el
  else selected_after (isMultiple_ (this w)) (selectedOptions_ (this w)) el.

(** The element at [r] after that toggle. *)
Definition toggled_element (w : World) (el r : ref) : Element :=
  if has_attr (heap w) el "selected"
  then (if decide (r = el) then deselected (heap w !!! el) else heap w !!! r)
  else selected_element w el r.

(** The values Form Sync returns for the selection [sel]: those of the
    options without a [disabled] marker, or none when the host has no name or
    the widget is disabled. *)
Definition form_values (w : World) (sel : list ref) : list (option string) :=
  if truthy (attr (heap w) (element (this w)) "name") &&
     negb (isDisabled_ (this w))
  then (λ r, attr (heap w) r "option") <$> enabled (heap w) sel
  else [].

(** [consistent], as a test that can be evaluated. *)
Definition consistentb (w : World) : bool :=
  bool_decide (NoDup (options_ (this w))) &&
  implb (bool_decide (kbSelectMode_ (this w) = SELECT))
        (negb (isMultiple_ (this w))) &&
  implb (negb (isMultiple_ (this w)))
        (bool_decide (length (selectedOptions_ (this w)) ≤ 1)%nat) &&
  bool_decide (is_Some (action_ (this w))) &&
  bool_decide (NoDup (inputs_ (this w))) &&
  forallb (λ i, bool_decide (i ∈ childNodes (heap w !!! element (this w))))
          (inputs_ (this w)) &&
  bool_decide (NoDup (selectedOptions_ (this w))) &&
  forallb (λ r, has_attr (heap w) r "selected") (selectedOptions_ (this w)).

(** [sampleFocusMode] after an element with an [option] attribute has been
    added to the document. *)
Definition optW : ref := 4%nat.
Definition sampleLateOption : World :=
  with_heap (insert optW (sampleElement [("option", "W")])) sampleFocusMode.

(** [m] keeps the invariant [I], whether it returns or throws. *)
Definition keeps {A} (I : World → Prop) (m : M A) : Prop :=
  ∀ w, I w → I (final (m w)).

(** The markup of the elements of [opts] mirrors the selection: the selected
    elements are distinct and carry [selected] and [aria-selected="true"];
    an element of [opts] that is not selected carries no [selected] marker
    and [aria-selected="false"]. *)
Definition mirrored_over (opts : list ref) (w : World) : Prop :=
  NoDup (selectedOptions_ (this w)) ∧
  (∀ r, r ∈ selectedOptions_ (this w) →
     has_attr (heap w) r "selected" = true ∧
     attr (heap w) r "aria-selected" = Some "true") ∧
  (∀ r, r ∈ opts → r ∉ selectedOptions_ (this w) →
     has_attr (heap w) r "selected" = false ∧
     attr (heap w) r "aria-selected" = Some "false").

(** The markup of the options mirrors the selection. *)
Definition mirrored (w : World) : Prop := mirrored_over (options_ (this w)) w.

(** Roving tab index: the options are distinct elements and, when the widget
    manages focus, the option under the cursor has tab index 0 and every
    other option -1. *)
Definition roving (w : World) : Prop :=
  NoDup (options_ (this w)) ∧
  (kbSelectMode_ (this w) ≠ NONE →
   ∀ i r, options_ (this w) !! i = Some r →
     tabIndex (heap w !!! r) =
     if decide (focusedIndex_ (this w) = Z.of_nat i) then 0 else -1).

(** The values [selectedAttributeMutated_] looks options up by: those of the
    array pushed, or the one value pushed; the first of them only on a
    single-select widget. *)
Definition pushed_values (multiple : bool) (newValue : JsValue) : list string :=
  let selectedArray :=
    match newValue with
    | JsArray keys => keys
    | JsScalar key => [key]
    | JsNull => []
    end in
  if multiple then selectedArray else take 1 selectedArray.

(** Whether the value of the option [r] is among [values]. *)
Definition pushed (values : list string) (h : gmap ref Element) (r : ref)
    : bool :=
  bool_decide (to_string (attr h r "option") ∈ values).

(** [selectedOptions_] after the loop of [selectedAttributeMutated_] has gone
    through [opts], selecting the options [keep] holds of and deselecting the
    others. *)
Definition externally_selected (multiple : bool) (keep : ref → bool)
    (opts sel : list ref) : list ref :=
  foldl (λ sel el, if keep el then selected_after multiple sel el
                   else spliced sel el) sel opts.

(** The option a click is for: the target when it carries [option], else
    what [closestBySelector(target, '[option]')] finds. *)
Definition clicked_option (closestBySelector : ref → option ref) (w : World)
    (target : option ref) : option ref :=
  match target with
  | None => None
  | Some el =>
      if has_attr (heap w) el "option" then Some el else closestBySelector el
  end.

(** The attribute names the widget writes once it is built: the two
    selection attributes, and the four attributes of the hidden inputs. *)
Definition written_attributes : list string :=
  ["selected"; "aria-selected"; "type"; "name"; "value"; "form"].

(** The selection lies within [opts], the options of the widget, and the
    cursor is on one of them, or at 0 when there is none. *)
Definition on_options (opts : list ref) (w : World) : Prop :=
  options_ (this w) = opts ∧
  (∀ r, r ∈ selectedOptions_ (this w) → r ∈ opts) ∧
  0 ≤ focusedIndex_ (this w) < Z.max 1 (Z.of_nat (length opts)).

(** The click [e], delivered to [w], is for one of the options of the
    widget, or for none. *)
Definition lands_on_option (w : World) (e : Event) : Prop :=
  match e with
  | Click closestBySelector target =>
      ∀ el, clicked_option closestBySelector w target = Some el →
            el ∈ options_ (this w)
  | _ => True
  end.

(** * Verification *)

(** ** Running methods symbolically *)

Lemma bind_Return {A B} (m : M A) (f : A → M B) w a w' :
  m w = Return a w' → (m ≫= f) w = f a w'.
Proof. intros H. unfold mbind, M_bind. by rewrite H. Qed.

Ltac mrun :=
  unfold mbind, M_bind, mret, M_ret, gets, modify; cbn beta iota.

Ltac prim :=
  unfold getAttribute, hasAttribute, setAttribute, removeAttribute,
    setTabIndex, appendChild, updElement, updHeap, updThis, emit, assert,
    mutateElement, throw;
  unfold mbind, M_bind, mret, M_ret, gets, modify; cbn beta iota.

Lemma with_selectedOptions_id s : with_selectedOptions (selectedOptions_ s) s = s.
Proof. by destruct s. Qed.

(** ** Heap lookups *)

Lemma lookup_total_upd el f (h : gmap ref Element) r :
  upd el f h !!! r = if decide (r = el) then f (h !!! el) else h !!! r.
Proof.
  unfold upd. case_decide as Hr.
  - subst. by rewrite lookup_total_insert_eq.
  - by rewrite lookup_total_insert_ne.
Qed.

Lemma attr_upd el f (h : gmap ref Element) r name :
  attr (upd el f h) r name =
  if decide (r = el) then attributes (f (h !!! el)) !! name else attr h r name.
Proof. unfold attr. rewrite lookup_total_upd. by case_decide. Qed.

Lemma attr_upd_attributes el g (h : gmap ref Element) r name :
  attr (upd el (with_attributes g) h) r name =
  if decide (r = el) then g (attributes (h !!! el)) !! name else attr h r name.
Proof. unfold attr. rewrite lookup_total_upd. by case_decide. Qed.

Lemma attr_upd_tabIndex el i (h : gmap ref Element) r name :
  attr (upd el (with_tabIndex i) h) r name = attr h r name.
Proof. unfold attr. rewrite lookup_total_upd. case_decide; by subst. Qed.

Lemma attr_upd_childNodes el g (h : gmap ref Element) r name :
  attr (upd el (with_childNodes g) h) r name = attr h r name.
Proof. unfold attr. rewrite lookup_total_upd. case_decide; by subst. Qed.

Lemma lookup_total_fresh (h : gmap ref Element) :
  h !!! fresh (dom h) = blankElement.
Proof.
  rewrite lookup_total_alt.
  by rewrite (proj1 (not_elem_of_dom h (fresh (dom h))) (is_fresh _)).
Qed.

(** ** Array helpers *)

Lemma index_of_None l x : index_of l x = None ↔ x ∉ l.
Proof.
  induction l as [|y l IH]; simpl.
  - split; [intros _; apply not_elem_of_nil | done].
  - case_decide as Hy.
    + subst. split; [done | intros H; destruct H; left].
    + rewrite fmap_None, IH, not_elem_of_cons. split; [by split | tauto].
Qed.

Lemma index_of_Some l x i :
  index_of l x = Some i → l !! i = Some x ∧ (i < length l)%nat.
Proof.
  revert i. induction l as [|y l IH]; intros i; simpl; [done |].
  case_decide as Hy.
  - intros [= <-]. subst. split; [done | simpl; lia].
  - destruct (index_of l x) as [j|] eqn:Hj; simpl; [| done].
    intros [= <-]. destruct (IH j eq_refl) as [? ?].
    split; [done | simpl; lia].
Qed.

Lemma index_of_lookup l i x :
  NoDup l → l !! i = Some x → index_of l x = Some i.
Proof.
  intros Hnd. revert i. induction Hnd as [|y l Hy Hnd IH]; intros i; [done |].
  destruct i as [|i]; simpl.
  - intros [= ->]. by rewrite decide_True.
  - intros Hi. rewrite decide_False.
    + by rewrite (IH i Hi).
    + intros ->. apply Hy. by eapply list_elem_of_lookup_2.
Qed.

Lemma indexOf_lookup l i x :
  NoDup l → l !! i = Some x → indexOf l x = Z.of_nat i.
Proof. intros Hnd Hi. unfold indexOf. by rewrite (index_of_lookup l i x). Qed.

(** ** Deselect and Select *)

Lemma deselected_idemp e : deselected (deselected e) = deselected e.
Proof.
  destruct e as [a t c]. unfold deselected, with_attributes; simpl. f_equal.
  apply map_eq. intros k.
  repeat (rewrite lookup_insert || rewrite lookup_delete).
  by repeat case_decide.
Qed.

Lemma attributes_deselected e name :
  attributes (deselected e) !! name =
  if decide (name = "aria-selected") then Some "false"
  else if decide (name = "selected") then None
  else attributes e !! name.
Proof.
  unfold deselected, with_attributes; simpl.
  rewrite lookup_insert, lookup_delete.
  by repeat case_decide.
Qed.

Lemma length_spliced sel el : (length (spliced sel el) ≤ length sel)%nat.
Proof.
  unfold spliced. destruct (index_of sel el) as [i|] eqn:Hi; [| done].
  destruct (index_of_Some _ _ _ Hi) as [Hl _].
  rewrite length_delete; [lia | by eexists].
Qed.

Lemma clearSelection_run el w :
  clearSelection_ el w =
  Return () (with_this (with_selectedOptions
                          (spliced (selectedOptions_ (this w)) el))
               (with_heap (upd el deselected) w)).
Proof.
  unfold clearSelection_. prim. unfold indexOf, spliced. simpl.
  assert (Hh : upd el (with_attributes (insert "aria-selected" "false"))
                 (upd el (with_attributes (delete "selected")) (heap w)) =
               upd el deselected (heap w)).
  { unfold upd at 1. rewrite lookup_total_upd, decide_True by done.
    unfold upd. by rewrite insert_insert_eq. }
  destruct (index_of (selectedOptions_ (this w)) el) as [i|] eqn:Hi.
  - rewrite decide_True by lia. simpl. unfold with_this, with_heap; simpl.
    rewrite Nat2Z.id. by rewrite Hh.
  - rewrite decide_False by lia. unfold with_this, with_heap; simpl.
    by rewrite Hh, with_selectedOptions_id.
Qed.

Lemma elem_of_spliced l x r : r ≠ x → r ∈ spliced l x ↔ r ∈ l.
Proof.
  intros Hr. unfold spliced.
  destruct (index_of l x) as [i|] eqn:Hi; [| done].
  destruct (index_of_Some _ _ _ Hi) as [Hl _].
  rewrite delete_take_drop.
  rewrite <- (take_drop_middle l i x Hl) at 3.
  rewrite !elem_of_app, elem_of_cons. tauto.
Qed.

Lemma snoc_cases {A} (l : list A) : l = [] ∨ ∃ l' x, l = l' ++ [x].
Proof. destruct l as [|x l _] using rev_ind; [by left | right; eauto]. Qed.

(** The loop of [clearAllSelections_] leaves through its exit test whenever it
    is given at least as many rounds as the array is long; it deselects every
    element the array held and nothing else. *)
Lemma clearAllSelections_loop_spec n w :
  (length (selectedOptions_ (this w)) ≤ n)%nat →
  ∃ w', clearAllSelections_loop n w = Return () w' ∧
    this w' = with_selectedOptions [] (this w) ∧
    body w' = body w ∧ effects w' = effects w ∧
    ∀ r, heap w' !!! r =
         if decide (r ∈ selectedOptions_ (this w))
         then deselected (heap w !!! r) else heap w !!! r.
Proof.
  revert w. induction n as [|n IH]; intros w Hlen.
  - destruct (selectedOptions_ (this w)) eqn:Hsel; [| simpl in Hlen; lia].
    exists w. simpl. split_and!; try done.
    by rewrite <- Hsel, with_selectedOptions_id.
  - simpl. prim.
    destruct (snoc_cases (selectedOptions_ (this w))) as [Hsel|(l & x & Hsel)];
      rewrite Hsel in *.
    { rewrite decide_False by (simpl; lia).
      exists w. split_and!; try done.
      by rewrite <- Hsel, with_selectedOptions_id. }
    rewrite decide_True by (rewrite length_app; simpl; lia).
    unfold pop_selectedOptions. prim. rewrite Hsel, last_snoc.
    rewrite clearSelection_run. cbn [this with_this with_heap].
    cbn [selectedOptions_ with_selectedOptions].
    rewrite removelast_last.
    set (w2 := with_this _ _).
    destruct (IH w2) as (w' & Hrun & Hthis & Hbody & Heff & Hheap).
    { subst w2. cbn. etrans; [apply length_spliced |].
      rewrite length_app in Hlen. simpl in Hlen. lia. }
    exists w'. split_and!; try done.
    intros r. rewrite Hheap. subst w2.
    cbn [this heap with_this with_heap selectedOptions_ with_selectedOptions].
    rewrite lookup_total_upd.
    destruct (decide (r = x)) as [->|Hr].
    + rewrite (decide_True (P := x ∈ l ++ [x]))
        by (apply elem_of_app; right; apply list_elem_of_singleton; done).
      case_decide; [apply deselected_idemp | done].
    + assert (r ∈ l ++ [x] ↔ r ∈ l) as Hiff.
      { rewrite elem_of_app, list_elem_of_singleton. tauto. }
      destruct (decide (r ∈ l)) as [Hin|Hin].
      * rewrite decide_True by by apply elem_of_spliced.
        by rewrite decide_True by by apply Hiff.
      * rewrite decide_False by by rewrite elem_of_spliced.
        by rewrite decide_False by by rewrite Hiff.
Qed.

Lemma clearAllSelections_spec w :
  ∃ w', clearAllSelections_ w = Return () w' ∧
    this w' = with_selectedOptions [] (this w) ∧
    body w' = body w ∧ effects w' = effects w ∧
    ∀ r, heap w' !!! r =
         if decide (r ∈ selectedOptions_ (this w))
         then deselected (heap w !!! r) else heap w !!! r.
Proof.
  unfold clearAllSelections_. prim. by apply clearAllSelections_loop_spec.
Qed.

Lemma setSelection_spec el w :
  ∃ w', setSelection_ el w = Return () w' ∧
    this w' = with_selectedOptions
                (selected_after (isMultiple_ (this w))
                   (selectedOptions_ (this w)) el) (this w) ∧
    body w' = body w ∧ effects w' = effects w ∧
    ∀ r, heap w' !!! r = selected_element w el r.
Proof.
  unfold setSelection_, selected_after, selected_element. prim.
  destruct (includes (selectedOptions_ (this w)) el) eqn:Hinc.
  { exists w. split_and!; try done. by rewrite with_selectedOptions_id. }
  apply bool_decide_eq_false in Hinc.
  destruct (isMultiple_ (this w)) eqn:Hm; simpl.
  - eexists. split; [reflexivity |]. cbn. split_and!; try done.
    intros r. rewrite !lookup_total_upd.
    case_decide; [| done]. subst.
    by rewrite decide_True.
  - destruct (clearAllSelections_spec w)
      as (w1 & Hrun & Hthis & Hbody & Heff & Hheap).
    rewrite Hrun. eexists. split; [reflexivity |].
    cbn. rewrite Hthis. cbn. split_and!; try done.
    intros r. rewrite !lookup_total_upd.
    destruct (decide (r = el)) as [->|Hr].
    + rewrite decide_True by done. by rewrite Hheap, decide_False.
    + rewrite Hheap. by case_decide; case_bool_decide.
Qed.

(** [setSelection_] keeps a single-select widget at one selection or none. *)
Lemma length_selected_after sel el :
  (length sel ≤ 1)%nat → (length (selected_after false sel el) ≤ 1)%nat.
Proof. intros H. unfold selected_after. by destruct (includes sel el). Qed.

(** [C7]: Select on an option that [selectedOptions_] already holds returns
    at once: the whole state, hence [selectedOptions_] (membership and
    order), the hidden inputs and the values Form Sync emits from them, is
    what it was. *)
Theorem setSelection_already_selected el w :
  el ∈ selectedOptions_ (this w) →
  setSelection_ el w = Return () w ∧
  selectedOptions_ (this (final (setSelection_ el w))) = selectedOptions_ (this w) ∧
  setInputs_ (final (setSelection_ el w)) = setInputs_ w.
Proof.
  intros Hin.
  assert (setSelection_ el w = Return () w) as ->; [| done].
  unfold setSelection_. prim.
  unfold includes. by rewrite bool_decide_eq_true_2.
Qed.

Lemma setSelection_already_selected_witness :
  setSelection_ optY (final (setSelection_ optY sampleSingle)) =
  Return () (final (setSelection_ optY sampleSingle)).
Proof.
  apply setSelection_already_selected.
  vm_compute. apply list_elem_of_here.
Defined.

(** [C6]: on a single-select widget, Option Picked on an option that is
    already selected changes nothing: [selectedOptions_], the hidden inputs,
    [focusedIndex_] and the trace of dispatched events are those of the state
    it started in.  Already selected is what the method tests, the [selected]
    marker on the option; every option in [selectedOptions_] carries it when
    the selection is marked, as it is in every state of a built widget. *)
Theorem onOptionPicked_selected_single el w :
  isMultiple_ (this w) = false →
  has_attr (heap w) el "selected" = true ∨
    (selection_marked w ∧ el ∈ selectedOptions_ (this w)) →
  onOptionPicked_ el w = Return () w.
Proof.
  intros Hm Hsel.
  assert (has_attr (heap w) el "selected" = true) as Hmarker.
  { destruct Hsel as [? | [[_ Hmk] Hin]]; [done | by apply Hmk]. }
  unfold onOptionPicked_. prim.
  destruct (has_attr (heap w) el "disabled"); [done |].
  cbn beta. by rewrite Hmarker, Hm.
Qed.

Lemma onOptionPicked_selected_single_witness :
  onOptionPicked_ optY (final (setSelection_ optY sampleSingle)) =
  Return () (final (setSelection_ optY sampleSingle)).
Proof.
  apply onOptionPicked_selected_single; [vm_compute; reflexivity |].
  left. vm_compute. reflexivity.
Defined.

Lemma forEach_setSelection_single els w :
  isMultiple_ (this w) = false →
  (length (selectedOptions_ (this w)) ≤ 1)%nat →
  ∃ w', forEach els setSelection_ w = Return () w' ∧
    isMultiple_ (this w') = false ∧
    (length (selectedOptions_ (this w')) ≤ 1)%nat.
Proof.
  revert w. induction els as [|el els IH]; intros w Hm Hlen.
  - by exists w.
  - destruct (setSelection_spec el w) as (w1 & Hrun & Hthis & _).
    simpl. rewrite (bind_Return _ _ _ _ _ Hrun).
    apply IH; rewrite Hthis; cbn; [done |].
    rewrite Hm. by apply length_selected_after.
Qed.

(** [C1]: on a single-select widget holding at most one selection (as it does
    when constructed), whatever options Select is applied to one after the
    other, every call returns and leaves [selectedOptions_] with at most one
    element: [take k els] ranges over the calls made so far. *)
Theorem single_select_exclusive w els k :
  isMultiple_ (this w) = false →
  (length (selectedOptions_ (this w)) ≤ 1)%nat →
  ∃ w', forEach (take k els) setSelection_ w = Return () w' ∧
    (length (selectedOptions_ (this w')) ≤ 1)%nat.
Proof.
  intros Hm Hlen.
  destruct (forEach_setSelection_single (take k els) w Hm Hlen)
    as (w' & Hrun & _ & Hlen').
  by exists w'.
Qed.

Lemma single_select_exclusive_witness :
  ∃ w', forEach (take 2 [optX; optY; optX; optZ]) setSelection_ sampleSingle =
          Return () w' ∧
    (length (selectedOptions_ (this w')) ≤ 1)%nat.
Proof.
  apply single_select_exclusive; vm_compute; [reflexivity | lia].
Defined.

(** [C8], as the specification has it, fails: in a freshly constructed widget
    option [optY] is not in [selectedOptions_] and has no [aria-selected]
    attribute; Deselect, which is what [init_] applies to it, gives it one. *)
Lemma clearSelection_nonmember_writes_aria :
  (optY ∉ selectedOptions_ (this sampleSingle)) ∧
  attr (heap sampleSingle) optY "aria-selected" = None ∧
  attr (heap (final (clearSelection_ optY sampleSingle))) optY
    "aria-selected" = Some "false".
Proof.
  split; [apply not_elem_of_nil |]. split; vm_compute; reflexivity.
Qed.

Lemma deselected_fixed (e : Element) :
  attributes e !! "selected" = None →
  attributes e !! "aria-selected" = Some "false" →
  deselected e = e.
Proof.
  intros Hs Ha. destruct e as [a t c]. unfold deselected, with_attributes.
  simpl in *. f_equal. by rewrite delete_id, insert_id.
Qed.

(** [C8], amended: Deselect on an option that is not in [selectedOptions_]
    returns with the instance as it was; on the document it leaves the option
    without the [selected] marker and with [aria-selected="false"] and touches
    no other attribute of any element, so that nothing at all changes when the
    option was already in that form. *)
Theorem clearSelection_nonmember el w :
  el ∉ selectedOptions_ (this w) →
  ∃ w', clearSelection_ el w = Return () w' ∧
    this w' = this w ∧ body w' = body w ∧ effects w' = effects w ∧
    attr (heap w') el "selected" = None ∧
    attr (heap w') el "aria-selected" = Some "false" ∧
    (∀ r name, r ≠ el ∨ (name ≠ "selected" ∧ name ≠ "aria-selected") →
       attr (heap w') r name = attr (heap w) r name) ∧
    (attr (heap w) el "selected" = None →
     attr (heap w) el "aria-selected" = Some "false" → w' = w).
Proof.
  intros Hel. rewrite clearSelection_run. eexists. split; [reflexivity |].
  unfold spliced. rewrite (proj2 (index_of_None _ _) Hel).
  cbn [this body effects heap with_this with_heap].
  rewrite with_selectedOptions_id. split_and!; try done.
  - by rewrite attr_upd, decide_True, attributes_deselected.
  - by rewrite attr_upd, decide_True, attributes_deselected.
  - intros r name Hrn. rewrite attr_upd.
    case_decide as Hr; [| done]. subst r.
    destruct Hrn as [? | [? ?]]; [done |].
    rewrite attributes_deselected. by rewrite !decide_False.
  - unfold attr. intros Hs Ha.
    assert (heap w !! el = Some (heap w !!! el)) as Hlook.
    { rewrite lookup_total_alt in Ha |- *.
      destruct (heap w !! el); [done | by simpl in Ha]. }
    destruct w as [h b s e]. unfold with_this, with_heap; simpl in *.
    rewrite with_selectedOptions_id. f_equal.
    unfold upd. rewrite deselected_fixed by done. by apply insert_id.
Qed.

Lemma clearSelection_nonmember_witness :
  ∃ w', clearSelection_ optY sampleSingle = Return () w' ∧
    this w' = this sampleSingle ∧ body w' = body sampleSingle ∧
    effects w' = effects sampleSingle ∧
    attr (heap w') optY "selected" = None ∧
    attr (heap w') optY "aria-selected" = Some "false" ∧
    (∀ r name, r ≠ optY ∨ (name ≠ "selected" ∧ name ≠ "aria-selected") →
       attr (heap w') r name = attr (heap sampleSingle) r name) ∧
    (attr (heap sampleSingle) optY "selected" = None →
     attr (heap sampleSingle) optY "aria-selected" = Some "false" →
     w' = sampleSingle).
Proof.
  apply clearSelection_nonmember. vm_compute. apply not_elem_of_nil.
Defined.

(** ** Focus recomputation *)

Lemma same_markup_trans h1 h2 h3 :
  same_markup h1 h2 → same_markup h2 h3 → same_markup h1 h3.
Proof.
  intros H12 H23 r. destruct (H12 r) as [<- <-]. apply H23.
Qed.

Lemma same_markup_tabIndex el i h : same_markup h (upd el (with_tabIndex i) h).
Proof. intros r. rewrite lookup_total_upd. case_decide; by subst. Qed.

Lemma same_markup_attr h h' r name :
  same_markup h h' → attr h' r name = attr h r name.
Proof. intros H. unfold attr. by destruct (H r) as [-> _]. Qed.

Lemma same_markup_has_attr h h' r name :
  same_markup h h' → has_attr h' r name = has_attr h r name.
Proof. intros H. unfold has_attr. by rewrite (same_markup_attr h h'). Qed.

Lemma forEach_setTabIndex opts i w :
  ∃ w', forEach opts (λ opt, setTabIndex opt i) w = Return () w' ∧
    this w' = this w ∧ body w' = body w ∧ effects w' = effects w ∧
    same_markup (heap w) (heap w').
Proof.
  revert w. induction opts as [|o opts IH]; intros w.
  - exists w. split_and!; try done.
  - simpl. prim.
    destruct (IH (with_heap (upd o (with_tabIndex i)) w))
      as (w' & Hrun & Hthis & Hbody & Heff & Hheap).
    exists w'. split_and!; try done.
    eapply same_markup_trans; [| exact Hheap]. apply same_markup_tabIndex.
Qed.

Lemma with_focusedIndex_id s : with_focusedIndex (focusedIndex_ s) s = s.
Proof. by destruct s. Qed.

Lemma updateFocus_spec w :
  ∃ w', updateFocus_ w = Return () w' ∧
    this w' = with_focusedIndex (focus_after (this w)) (this w) ∧
    body w' = body w ∧ effects w' = effects w ∧
    same_markup (heap w) (heap w').
Proof.
  unfold updateFocus_, focus_after, initialFocusedElement. mrun.
  destruct (decide (kbSelectMode_ (this w) = NONE)) as [Hmode|Hmode].
  { exists w. split_and!; try done. by rewrite with_focusedIndex_id. }
  destruct (forEach_setTabIndex (options_ (this w)) (-1) w)
    as (w1 & Hrun & Hthis & Hbody & Heff & Hheap).
  rewrite Hrun, Hthis.
  set (tgt := if isMultiple_ (this w) then _ else _).
  destruct tgt as [el|].
  - eexists. split; [reflexivity |]. cbn. rewrite Hthis.
    split_and!; try done.
    eapply same_markup_trans; [exact Hheap | apply same_markup_tabIndex].
  - exists w1. split_and!; try done.
    by rewrite Hthis, with_focusedIndex_id.
Qed.

(** ** Form Sync without a field name *)

Lemma setInputs_inert w :
  truthy (attr (heap w) (element (this w)) "name") = false ∨
    isDisabled_ (this w) = true →
  setInputs_ w = Return [] w.
Proof.
  intros H. unfold setInputs_. prim.
  destruct H as [-> | ->]; [done |].
  by rewrite orb_true_r.
Qed.

Lemma attributes_marked e name :
  attributes (marked e) !! name =
  if decide (name = "aria-selected") then Some "true"
  else if decide (name = "selected") then Some ""
  else attributes e !! name.
Proof.
  unfold marked, with_attributes; simpl.
  rewrite !lookup_insert. by repeat case_decide.
Qed.

(** Select and Deselect write the two selection attributes and nothing else. *)
Lemma selected_element_attr w el r name :
  name ≠ "selected" → name ≠ "aria-selected" →
  attributes (selected_element w el r) !! name = attr (heap w) r name.
Proof.
  intros H1 H2. unfold selected_element, attr.
  destruct (includes _ _); [done |].
  case_decide as Hr.
  - subst. rewrite attributes_marked. by rewrite !decide_False.
  - destruct (_ && _); [| done].
    rewrite attributes_deselected. by rewrite !decide_False.
Qed.

Lemma selected_element_childNodes w el r :
  childNodes (selected_element w el r) = childNodes (heap w !!! r).
Proof.
  unfold selected_element.
  destruct (includes _ _); [done |].
  case_decide as Hr; [by subst |]. by destruct (_ && _).
Qed.

(** ** The [select] notification *)

Lemma with_effect_effects e w : effects (with_effect e w) = effects w ++ [e].
Proof. done. Qed.

(** [C9]: when the host element has no (or an empty) [name] attribute or the
    widget is disabled, every Option Picked that changes [selectedOptions_] on
    a built widget returns after dispatching one [select] event, and the
    [selectedOptions] payload of that event is the empty list. *)
Theorem onOptionPicked_inert_form_payload el w :
  truthy (attr (heap w) (element (this w)) "name") = false ∨
    isDisabled_ (this w) = true →
  action_ (this w) ≠ None →
  selectedOptions_ (this (final (onOptionPicked_ el w))) ≠
    selectedOptions_ (this w) →
  ∃ w', onOptionPicked_ el w = Return () w' ∧
    effects w' = effects w ++ [selectEvent w el []].
Proof.
  intros Hinert Haction. unfold onOptionPicked_, selectEvent. prim.
  destruct (has_attr (heap w) el "disabled"); [done |]. cbn beta.
  assert (∀ w1 : World,
    this w1 = with_selectedOptions (selectedOptions_ (this w1)) (this w) →
    effects w1 = effects w →
    (∀ r name, name ≠ "selected" → name ≠ "aria-selected" →
       attr (heap w1) r name = attr (heap w) r name) →
    setInputs_ w1 = Return [] w1 ∧
    ∃ w2, updateFocus_ w1 = Return () w2 ∧
      action_ (this w2) = action_ (this w) ∧
      element (this w2) = element (this w) ∧
      effects w2 = effects w ∧
      attr (heap w2) el "option" = attr (heap w) el "option") as Htail.
  { intros w1 Hthis Heff Hattr. split.
    - apply setInputs_inert. rewrite Hthis. cbn. by rewrite Hattr.
    - destruct (updateFocus_spec w1) as (w2 & -> & Hthis2 & _ & Heff2 & Hm).
      exists w2. rewrite Hthis2, Hthis, Heff2, Heff.
      by rewrite (same_markup_attr _ _ _ _ Hm), Hattr. }
  destruct (has_attr (heap w) el "selected").
  - destruct (isMultiple_ (this w)); [| done]. cbn beta.
    rewrite clearSelection_run. cbn beta iota. intros _.
    set (w1 := with_this _ _).
    destruct (Htail w1) as (-> & w2 & -> & Ha & He & Hf & Ht); try done.
    { intros r name H1 H2. cbn. rewrite attr_upd.
      case_decide; [| done]. subst.
      rewrite attributes_deselected. by rewrite !decide_False. }
    cbn beta iota. rewrite Ha, He, Ht.
    destruct (action_ (this w)); [| done].
    eexists. split; [reflexivity |]. by rewrite with_effect_effects, Hf.
  - destruct (setSelection_spec el w) as (w1 & -> & Hthis & Hbody & Heff & Hh).
    cbn beta iota. intros _.
    destruct (Htail w1) as (-> & w2 & -> & Ha & He & Hf & Ht); try done.
    { rewrite Hthis. by destruct (this w). }
    { intros r name H1 H2. unfold attr at 1. rewrite Hh.
      by apply selected_element_attr. }
    cbn beta iota. rewrite Ha, He, Ht.
    destruct (action_ (this w)); [| done].
    eexists. split; [reflexivity |]. by rewrite with_effect_effects, Hf.
Qed.

Lemma onOptionPicked_inert_form_payload_witness :
  ∃ w', onOptionPicked_ optY sampleUnnamed = Return () w' ∧
    effects w' = effects sampleUnnamed ++ [selectEvent sampleUnnamed optY []].
Proof.
  apply onOptionPicked_inert_form_payload; vm_compute;
    [by left | done | done].
Defined.

(** ** Navigation without options *)

Lemma at_index_nil i : at_index [] i = None.
Proof. unfold at_index. by case_decide. Qed.

(** With no options, a navigation key gets as far as [preventDefault] and
    then assigns [tabIndex] on [undefined]. *)
Lemma keyDownHandler_no_options Keycodes keyCode w :
  options_ (this w) = [] →
  direction Keycodes (isLtr w) keyCode ≠ 0 →
  keyDownHandler_ Keycodes keyCode w =
  Throw TypeError (with_effect PreventDefault w).
Proof.
  intros Hopts Hdir. unfold keyDownHandler_. prim. fold (isLtr w).
  rewrite decide_False by done. cbn. by rewrite Hopts, at_index_nil.
Qed.

(** [C3], on the code: a selector built over no options listens for key
    presses, and the Down arrow makes its handler throw [TypeError] after
    [preventDefault], where the specification has it return without an error. *)
Theorem keyDownHandler_without_options_throws :
  ∃ w, buildCallback [] sampleEmpty = Return () w ∧
    options_ (this w) = [] ∧
    AddEventListener hostEl "keydown" ∈ effects w ∧
    keyDownHandler_ arrowKeycodes 40 w =
    Throw TypeError (with_effect PreventDefault w).
Proof.
  eexists. split; [vm_compute; reflexivity |].
  split; [done |]. split.
  - apply list_elem_of_further, list_elem_of_here.
  - by apply keyDownHandler_no_options.
Qed.

(** ** External clear *)

(** Pushing [null] empties [selectedOptions_] and returns: [inputs_] and the
    children of every element are those from before the call. *)
Lemma selectedAttributeMutated_null w :
  ∃ w', selectedAttributeMutated_ JsNull w = Return () w' ∧
    this w' = with_selectedOptions [] (this w) ∧
    ∀ r, childNodes (heap w' !!! r) = childNodes (heap w !!! r).
Proof.
  destruct (clearAllSelections_spec w) as (w' & Hrun & Hthis & _ & _ & Hh).
  exists w'. split_and!; try done.
  intros r. rewrite Hh. by case_decide.
Qed.

(** [C2], on the code: with two options selected and a hidden input for each,
    pushing [null] empties [selectedOptions_] and stops there: the two hidden
    inputs stay in [inputs_] and in the host element, with their values. *)
Theorem selectedAttributeMutated_null_keeps_inputs :
  ∃ w', selectedOptions_ (this sampleMultiple) = [optX; optY] ∧
    mutatedAttributesCallback (Some JsNull) sampleMultiple = Return () w' ∧
    selectedOptions_ (this w') = [] ∧
    inputs_ (this w') = inputs_ (this sampleMultiple) ∧
    childNodes (heap w' !!! hostEl) = inputs_ (this w') ∧
    (λ i, attr (heap w') i "value") <$> inputs_ (this w') =
      [Some "X"; Some "Y"].
Proof.
  eexists. split; [vm_compute; reflexivity |].
  split; [vm_compute; reflexivity |].
  vm_compute. done.
Qed.

(** ** Form Sync *)

Lemma detached_nil kids : detached [] kids = kids.
Proof.
  unfold detached. induction kids as [|k kids IH]; [done |].
  rewrite filter_cons_True by apply not_elem_of_nil. by rewrite IH.
Qed.

Lemma detached_cons i inputs kids :
  detached inputs (filter (λ c, c ≠ i) kids) = detached (i :: inputs) kids.
Proof.
  unfold detached. induction kids as [|k kids IH]; [done |].
  destruct (decide (k = i)) as [->|Hk].
  - rewrite (filter_cons_False (λ c, c ≠ i)) by (intros H; by apply H).
    rewrite (filter_cons_False (λ c, c ∉ i :: inputs)); [done |].
    intros H. apply H. apply list_elem_of_here.
  - rewrite (filter_cons_True (λ c, c ≠ i)) by done.
    destruct (decide (k ∈ inputs)) as [Hin|Hin].
    + rewrite !filter_cons_False; [done | |].
      * intros H. apply H. by apply list_elem_of_further.
      * intros H. by apply H.
    + rewrite !filter_cons_True; [by rewrite IH | | done].
      rewrite not_elem_of_cons. by split.
Qed.

Lemma removeChild_run host i w :
  i ∈ childNodes (heap w !!! host) →
  removeChild host i w =
  Return () (with_heap (upd host (with_childNodes (filter (λ c, c ≠ i)))) w).
Proof. intros Hi. unfold removeChild. prim. by rewrite decide_True. Qed.

Lemma forEach_removeChild host inputs w :
  NoDup inputs →
  (∀ i, i ∈ inputs → i ∈ childNodes (heap w !!! host)) →
  ∃ w', forEach inputs (λ input, removeChild host input) w = Return () w' ∧
    this w' = this w ∧ body w' = body w ∧ effects w' = effects w ∧
    dom (heap w) ⊆ dom (heap w') ∧
    (∀ r, attributes (heap w' !!! r) = attributes (heap w !!! r)) ∧
    (∀ r, childNodes (heap w' !!! r) =
          if decide (r = host)
          then detached inputs (childNodes (heap w !!! host))
          else childNodes (heap w !!! r)).
Proof.
  revert w. induction inputs as [|i inputs IH]; intros w Hnd Hkids.
  - exists w. split_and!; try done.
    intros r. case_decide; [subst; by rewrite detached_nil | done].
  - apply NoDup_cons in Hnd as [Hi Hnd].
    simpl. mrun.
    rewrite removeChild_run by (apply Hkids, list_elem_of_here).
    set (w1 := with_heap _ w).
    assert (Hk1 : childNodes (heap w1 !!! host) =
                  filter (λ c, c ≠ i) (childNodes (heap w !!! host))).
    { subst w1. cbn. by rewrite lookup_total_upd, decide_True. }
    destruct (IH w1 Hnd) as (w' & Hrun & Hthis & Hbody & Heff & Hdom & Ha & Hc).
    { intros j Hj. rewrite Hk1. apply list_elem_of_filter. split.
      - intros ->. done.
      - apply Hkids. by apply list_elem_of_further. }
    exists w'. split_and!; try done.
    + etrans; [| exact Hdom]. subst w1. cbn. unfold upd.
      rewrite dom_insert. apply union_subseteq_r.
    + intros r. rewrite Ha. subst w1. cbn. rewrite lookup_total_upd.
      case_decide; by subst.
    + intros r. rewrite Hc. case_decide as Hr.
      * by rewrite Hk1, detached_cons.
      * subst w1. cbn. by rewrite lookup_total_upd, decide_False.
Qed.

Lemma lookup_total_insert_fresh (h : gmap ref Element) r :
  <[fresh (dom h) := blankElement]> h !!! r = h !!! r.
Proof.
  destruct (decide (r = fresh (dom h))) as [->|Hr].
  - by rewrite lookup_total_insert_eq, lookup_total_fresh.
  - by rewrite lookup_total_insert_ne.
Qed.

Lemma dom_upd el f (h : gmap ref Element) : dom (upd el f h) = {[el]} ∪ dom h.
Proof. unfold upd. by rewrite dom_insert_L. Qed.

Lemma union_absorb (X Y : gset ref) : Y ∪ (Y ∪ X) = Y ∪ X.
Proof. by rewrite (assoc_L (∪)), union_idemp_L. Qed.

(** One round of the loop of [setInputs_] on an option without the
    [disabled] marker: a new element, with the attributes of a hidden input,
    is added to the heap and to [inputs_]. *)
Lemma addInput_enabled elementName formId acc opt w :
  has_attr (heap w) opt "disabled" = false →
  let hidden := fresh (dom (heap w)) in
  ∃ w', addInput elementName formId acc opt w =
          Return (acc.1 ++ [hidden], acc.2 ++ [attr (heap w) opt "option"]) w' ∧
    this w' = with_inputs (inputs_ (this w) ++ [hidden]) (this w) ∧
    body w' = body w ∧ effects w' = effects w ∧
    dom (heap w') = {[hidden]} ∪ dom (heap w) ∧
    heap w' !!! hidden =
      {| attributes := hidden_attributes elementName formId
                         (attr (heap w) opt "option");
         tabIndex := 0; childNodes := [] |} ∧
    ∀ r, r ≠ hidden → heap w' !!! r = heap w !!! r.
Proof.
  intros Hd hidden. unfold addInput, createElement. prim. rewrite Hd.
  cbn [negb]. cbn beta iota zeta. fold hidden.
  assert (Hv : attr (<[hidden := blankElement]> (heap w)) opt "option" =
               attr (heap w) opt "option").
  { unfold attr. subst hidden. by rewrite lookup_total_insert_fresh. }
  cbn [heap with_heap this with_this]. rewrite Hv.
  unfold hidden_attributes.
  destruct (truthy formId); cbn beta iota;
    (eexists; split; [reflexivity |]);
    cbn [heap with_heap this with_this body effects];
    (split_and!; try done;
     [ by rewrite !dom_upd, dom_insert_L, !union_absorb
     | rewrite !lookup_total_upd, !decide_True by done;
       by rewrite lookup_total_insert_eq
     | intros r Hr; rewrite !lookup_total_upd, !decide_False by done;
       by rewrite lookup_total_insert_ne ]).
Qed.

Lemma addInput_disabled elementName formId acc opt w :
  has_attr (heap w) opt "disabled" = true →
  addInput elementName formId acc opt w = Return acc w.
Proof.
  intros Hd. unfold addInput. prim. rewrite Hd. by destruct acc.
Qed.

Lemma hidden_attributes_other elementName formId value name :
  ¬ input_attribute name →
  hidden_attributes elementName formId value !! name = None.
Proof.
  unfold input_attribute, hidden_attributes. intros H.
  destruct (truthy formId); simpl; rewrite !lookup_insert, lookup_empty;
    repeat case_decide; try done; subst; tauto.
Qed.

Lemma enabled_ext h h' sel :
  (∀ r, attr h' r "disabled" = attr h r "disabled") →
  enabled h' sel = enabled h sel.
Proof.
  intros H. apply list_filter_iff. intros r. unfold has_attr. by rewrite H.
Qed.

(** The loop of [setInputs_] over [sel]. *)
Lemma foldM_addInput elementName formId sel acc w :
  ∃ new w',
    foldM (addInput elementName formId) sel acc w =
      Return (acc.1 ++ new,
              acc.2 ++ ((λ r, attr (heap w) r "option") <$> enabled (heap w) sel))
        w' ∧
    this w' = with_inputs (inputs_ (this w) ++ new) (this w) ∧
    body w' = body w ∧ effects w' = effects w ∧
    dom (heap w) ⊆ dom (heap w') ∧
    (∀ r, r ∈ dom (heap w) → heap w' !!! r = heap w !!! r) ∧
    (∀ r name, ¬ input_attribute name →
       attr (heap w') r name = attr (heap w) r name) ∧
    NoDup new ∧
    Forall2 (input_for elementName formId (heap w) (heap w')) new
      (enabled (heap w) sel).
Proof.
  revert acc w. induction sel as [|opt sel IH]; intros acc w.
  - exists [], w. simpl. rewrite !app_nil_r. destruct acc.
    split_and!; try done; [by destruct w as [? ? [] ?] | apply NoDup_nil_2].
  - simpl. mrun. unfold enabled.
    destruct (has_attr (heap w) opt "disabled") eqn:Hd.
    + rewrite addInput_disabled by done.
      rewrite filter_cons_False by (by rewrite Hd). apply IH.
    + destruct (addInput_enabled elementName formId acc opt w Hd)
        as (w1 & -> & Hthis1 & Hbody1 & Heff1 & Hdom1 & Hnew1 & Hold1).
      set (hidden := fresh (dom (heap w))) in *.
      assert (Hfresh : hidden ∉ dom (heap w)) by apply is_fresh.
      assert (Hattr1 : ∀ r name, ¬ input_attribute name →
                attr (heap w1) r name = attr (heap w) r name).
      { intros r name Hn. unfold attr.
        destruct (decide (r = hidden)) as [->|Hr]; [| by rewrite Hold1].
        rewrite Hnew1. simpl. rewrite hidden_attributes_other by done.
        subst hidden. by rewrite lookup_total_fresh. }
      assert (Hna : ∀ name, name = "disabled" ∨ name = "option" →
                ¬ input_attribute name).
      { unfold input_attribute. intros name [-> | ->]; intros H;
          repeat destruct H as [H | H]; done. }
      destruct (IH (acc.1 ++ [hidden], acc.2 ++ [attr (heap w) opt "option"]) w1)
        as (new & w' & -> & Hthis & Hbody & Heff & Hdom & Hold & Hattr & Hnd & Hall).
      rewrite filter_cons_True by done. fold (enabled (heap w) sel).
      exists (hidden :: new), w'. cbn [fst snd].
      rewrite (enabled_ext (heap w) (heap w1)) in *
        by (intros r; apply Hattr1, Hna; by left).
      split_and!.
      * rewrite <- !(assoc_L (++)). simpl. do 4 f_equal.
        apply list_fmap_ext. intros _ r _. apply Hattr1, Hna. by right.
      * rewrite Hthis, Hthis1. cbn. by rewrite <- (assoc_L (++)).
      * congruence.
      * congruence.
      * etrans; [| exact Hdom]. rewrite Hdom1. apply union_subseteq_r.
      * intros r Hr. rewrite Hold.
        -- apply Hold1. intros ->. done.
        -- rewrite Hdom1. apply elem_of_union. by right.
      * intros r name Hn. by rewrite Hattr, Hattr1.
      * apply NoDup_cons. split; [| done].
        intros Hin. apply list_elem_of_lookup in Hin as [i Hi].
        destruct (Forall2_lookup_l _ _ _ _ _ Hall Hi) as (o & _ & Hf & _).
        apply Hf. rewrite Hdom1. apply elem_of_union. left.
        by apply elem_of_singleton.
      * apply Forall2_cons. split.
        -- split; [done |]. rewrite Hold, Hnew1; [done |].
           rewrite Hdom1. apply elem_of_union. left. by apply elem_of_singleton.
        -- eapply Forall2_impl; [exact Hall |].
           intros i o [Hi Ho]. split.
           ++ intros Hin. apply Hi. rewrite Hdom1. apply elem_of_union.
              by right.
           ++ rewrite Ho. do 2 f_equal. apply Hattr1, Hna. by right.
Qed.

Lemma attr_Some_dom (h : gmap ref Element) r name v :
  attr h r name = Some v → r ∈ dom h.
Proof.
  unfold attr. rewrite lookup_total_alt. intros H.
  apply elem_of_dom. destruct (h !! r); [by eexists | done].
Qed.

Lemma truthy_Some v : truthy v = true → ∃ s, v = Some s.
Proof. destruct v; [by eexists | done]. Qed.

(** Form Sync when the host has a name and the widget is enabled. *)
Lemma setInputs_emitting w :
  let host := element (this w) in
  let elementName := attr (heap w) host "name" in
  let formId := attr (heap w) host "form" in
  let emitting := enabled (heap w) (selectedOptions_ (this w)) in
  truthy elementName = true → isDisabled_ (this w) = false →
  NoDup (inputs_ (this w)) →
  (∀ i, i ∈ inputs_ (this w) → i ∈ childNodes (heap w !!! host)) →
  ∃ w', setInputs_ w =
          Return ((λ r, attr (heap w) r "option") <$> emitting) w' ∧
    this w' = with_inputs (inputs_ (this w')) (this w) ∧
    body w' = body w ∧ effects w' = effects w ∧
    Forall2 (input_for elementName formId (heap w) (heap w'))
      (inputs_ (this w')) emitting ∧
    NoDup (inputs_ (this w')) ∧
    length (inputs_ (this w')) = length emitting ∧
    childNodes (heap w' !!! host) =
      detached (inputs_ (this w)) (childNodes (heap w !!! host)) ++
      inputs_ (this w') ∧
    ∀ r name, ¬ input_attribute name →
      attr (heap w') r name = attr (heap w) r name.
Proof.
  intros host elementName formId emitting Hname Hdis Hnd Hkids.
  unfold setInputs_. mrun.
  unfold getAttribute, gets. cbn beta.
  fold host. fold elementName. rewrite Hname, Hdis. cbn [negb orb].
  destruct (forEach_removeChild host _ w Hnd Hkids)
    as (w1 & -> & Hthis1 & Hbody1 & Heff1 & Hdom1 & Hattr1 & Hkids1).
  unfold updThis, modify. cbn beta iota.
  set (w2 := with_this (with_inputs []) w1).
  destruct (foldM_addInput elementName formId (selectedOptions_ (this w2))
              ([], []) w2)
    as (new & w3 & Hrun & Hthis3 & Hbody3 & Heff3 & Hdom3 & Hold3 & Hattr3
        & Hnd3 & Hall3).
  assert (Hsel2 : selectedOptions_ (this w2) = selectedOptions_ (this w))
    by (subst w2; cbn; by rewrite Hthis1).
  assert (Hattr2 : ∀ r name, attr (heap w2) r name = attr (heap w) r name)
    by (intros r name; unfold attr; subst w2; cbn; by rewrite Hattr1).
  fold formId. rewrite Hsel2 in *.
  rewrite Hrun. cbn [fst snd app]. unfold appendChild, updElement, updHeap, modify.
  rewrite (enabled_ext (heap w) (heap w2)) in * by (intros r; apply Hattr2).
  destruct (truthy_Some _ Hname) as [s Hs].
  assert (Hhost : host ∈ dom (heap w)) by (by eapply attr_Some_dom).
  assert (Hhost2 : host ∈ dom (heap w2)) by (subst w2; cbn; by apply Hdom1).
  assert (Hfresh : ∀ i, i ∈ new → i ≠ host).
  { intros i Hi ->. apply list_elem_of_lookup in Hi as [k Hk].
    destruct (Forall2_lookup_l _ _ _ _ _ Hall3 Hk) as (o & _ & Hf & _).
    by apply Hf. }
  eexists. split.
  { f_equal. apply list_fmap_ext. intros _ r _. apply Hattr2. }
  cbn [this heap body effects with_heap with_this].
  rewrite Hthis3. subst w2.
  cbn [this heap body effects with_heap with_this inputs_ with_inputs app].
  rewrite Hthis1. split_and!; try done.
  - by rewrite Hbody3.
  - by rewrite Heff3.
  - apply Forall2_same_length_lookup_2; [by eapply Forall2_length |].
    intros k i o Hi Ho.
    destruct (Forall2_lookup_lr _ _ _ _ _ _ Hall3 Hi Ho) as [Hf Hel].
    split.
    + intros Hin. apply Hf. cbn. by apply Hdom1.
    + rewrite lookup_total_upd, decide_False
        by (apply Hfresh; by eapply list_elem_of_lookup_2).
      rewrite Hel. by rewrite Hattr2.
  - by eapply Forall2_length.
  - rewrite lookup_total_upd, decide_True by done. cbn.
    rewrite Hold3 by done. cbn. by rewrite Hkids1, decide_True.
  - intros r name Hn. rewrite attr_upd_childNodes, Hattr3 by done.
    apply Hattr2.
Qed.

(** [C5]: without a (non-empty) [name] on the host, or when the widget is
    disabled, Form Sync returns the empty list and changes nothing.
    Otherwise, on a widget whose hidden inputs are the distinct children of
    the host it appended earlier, it returns the values of the selected
    options that carry no [disabled] marker, in [selectedOptions_] order, and
    [inputs_] becomes a list of as many new, pairwise distinct elements, the
    i-th of them a hidden input for the i-th such option; the host loses its
    old inputs and gains the new ones at the end of its children. *)
Theorem setInputs_spec w :
  let host := element (this w) in
  let elementName := attr (heap w) host "name" in
  let formId := attr (heap w) host "form" in
  let emitting := enabled (heap w) (selectedOptions_ (this w)) in
  (truthy elementName = false ∨ isDisabled_ (this w) = true →
   setInputs_ w = Return [] w) ∧
  (truthy elementName = true → isDisabled_ (this w) = false →
   NoDup (inputs_ (this w)) →
   (∀ i, i ∈ inputs_ (this w) → i ∈ childNodes (heap w !!! host)) →
   ∃ w', setInputs_ w =
           Return ((λ r, attr (heap w) r "option") <$> emitting) w' ∧
     this w' = with_inputs (inputs_ (this w')) (this w) ∧
     body w' = body w ∧ effects w' = effects w ∧
     Forall2 (input_for elementName formId (heap w) (heap w'))
       (inputs_ (this w')) emitting ∧
     NoDup (inputs_ (this w')) ∧
     length (inputs_ (this w')) = length emitting ∧
     childNodes (heap w' !!! host) =
       detached (inputs_ (this w)) (childNodes (heap w !!! host)) ++
       inputs_ (this w') ∧
     ∀ r name, ¬ input_attribute name →
       attr (heap w') r name = attr (heap w) r name).
Proof.
  intros host elementName formId emitting.
  split; [apply setInputs_inert | apply setInputs_emitting].
Qed.

Lemma setInputs_spec_witness :
  ∃ w', setInputs_ sampleDisabledOption = Return [Some "A"] w' ∧
    length (inputs_ (this w')) = 1%nat.
Proof.
  destruct (setInputs_spec sampleDisabledOption) as [_ H].
  destruct H as (w' & Hrun & _ & _ & _ & _ & _ & Hlen & _).
  - vm_compute. reflexivity.
  - vm_compute. reflexivity.
  - vm_compute. apply NoDup_singleton.
  - intros i Hi. vm_compute in Hi |- *. exact Hi.
  - exists w'. split; [exact Hrun | exact Hlen].
Defined.

(** ** Initialization *)

(** Whether [r] carries the [selected] marker after [setSelection_ el]. *)
Lemma selected_element_marker w el r :
  bool_decide (is_Some (attributes (selected_element w el r) !! "selected")) =
  if includes (selectedOptions_ (this w)) el
  then has_attr (heap w) r "selected"
  else if decide (r = el) then true
  else if negb (isMultiple_ (this w)) &&
          bool_decide (r ∈ selectedOptions_ (this w))
       then false
       else has_attr (heap w) r "selected".
Proof.
  unfold selected_element, has_attr, attr.
  destruct (includes _ _); [done |].
  case_decide as Hr.
  - subst. rewrite attributes_marked. by rewrite decide_False, decide_True.
  - destruct (_ && _); [| done].
    rewrite attributes_deselected. by rewrite decide_False, decide_True.
Qed.

Lemma initOption_spec opt w :
  ∃ w', initOption opt w = Return () w' ∧
    this w' = with_options (options_ (this w) ++ [opt])
                (with_selectedOptions (selection_after_init w opt) (this w)) ∧
    body w' = body w ∧ effects w' = effects w ∧
    (∀ r, has_attr (heap w') r "selected" = marker_after_init w opt r) ∧
    (∀ r, childNodes (heap w' !!! r) = childNodes (heap w !!! r)) ∧
    (∀ r name, name ≠ "selected" → name ≠ "aria-selected" →
       name ≠ "role" → name ≠ "aria-disabled" →
       attr (heap w') r name = attr (heap w) r name).
Proof.
  unfold initOption. prim.
  set (w0 := with_heap (upd opt (with_attributes <["role":="option"]>)) w).
  set (wa := if has_attr (heap w0) opt "disabled"
             then with_heap
                    (upd opt (with_attributes <["aria-disabled":="true"]>)) w0
             else w0).
  assert (Hrun_a :
    (if has_attr (heap w0) opt "disabled" return M ()
     then λ w1, Return () (with_heap
                    (upd opt (with_attributes <["aria-disabled":="true"]>)) w1)
     else λ w1, Return () w1) w0 = Return () wa).
  { subst wa. by destruct (has_attr (heap w0) opt "disabled"). }
  rewrite Hrun_a. clear Hrun_a. cbn beta iota.
  assert (Hthis_a : this wa = this w).
  { subst wa w0. by destruct (has_attr _ opt "disabled"). }
  assert (Hbody_a : body wa = body w).
  { subst wa w0. by destruct (has_attr _ opt "disabled"). }
  assert (Heff_a : effects wa = effects w).
  { subst wa w0. by destruct (has_attr _ opt "disabled"). }
  assert (Hattr_a : ∀ r name, name ≠ "role" → name ≠ "aria-disabled" →
            attr (heap wa) r name = attr (heap w) r name).
  { intros r name H1 H2. subst wa w0.
    destruct (has_attr _ opt "disabled"); cbn;
      rewrite !attr_upd_attributes; repeat case_decide; subst;
      rewrite ?lookup_total_upd, ?decide_True by done; cbn;
      by rewrite ?lookup_insert_ne by done. }
  assert (Hkids_a : ∀ r, childNodes (heap wa !!! r) = childNodes (heap w !!! r)).
  { intros r. subst wa w0.
    destruct (has_attr _ opt "disabled"); cbn;
      rewrite !lookup_total_upd; repeat case_decide; by subst. }
  assert (Hsel_a : ∀ r, has_attr (heap wa) r "selected" =
                        has_attr (heap w) r "selected").
  { intros r. unfold has_attr. by rewrite Hattr_a. }
  clearbody wa. clear w0.
  unfold selection_after_init, marker_after_init. rewrite <- (Hsel_a opt).
  destruct (has_attr (heap wa) opt "selected") eqn:Hm.
  - destruct (setSelection_spec opt wa) as (w1 & -> & Hthis & Hbody & Heff & Hh).
    eexists. split; [reflexivity |].
    cbn [this heap body effects with_heap with_this].
    rewrite Hthis, Hthis_a. split_and!; try done.
    + congruence.
    + congruence.
    + intros r. rewrite <- Hsel_a, <- Hthis_a.
      rewrite <- selected_element_marker, <- Hh.
      unfold has_attr, attr. rewrite lookup_total_upd. case_decide; by subst.
    + intros r. rewrite lookup_total_upd, <- Hkids_a.
      rewrite <- (selected_element_childNodes wa opt r), <- Hh.
      case_decide; by subst.
    + intros r name H1 H2 H3 H4. rewrite attr_upd_tabIndex.
      unfold attr at 1. rewrite Hh, selected_element_attr by done.
      by apply Hattr_a.
  - rewrite clearSelection_run. eexists. split; [reflexivity |].
    cbn [this heap body effects with_heap with_this].
    rewrite Hthis_a. split_and!; try done.
    + intros r. unfold has_attr. rewrite attr_upd_tabIndex, attr_upd.
      case_decide as Hr.
      * by rewrite attributes_deselected.
      * apply Hsel_a.
    + intros r. rewrite !lookup_total_upd, <- Hkids_a.
      repeat case_decide; by subst.
    + intros r name H1 H2 H3 H4. rewrite attr_upd_tabIndex, attr_upd.
      case_decide as Hr; [| by apply Hattr_a]. subst.
      rewrite attributes_deselected, !decide_False by done.
      by apply Hattr_a.
Qed.

Lemma last_marked_elem h0 l r : r ∈ last_marked h0 l → r ∈ l.
Proof.
  unfold last_marked. destruct (last (marked_in h0 l)) as [x|] eqn:Hl.
  - intros ->%list_elem_of_singleton. apply last_Some_elem_of in Hl.
    by apply list_elem_of_filter in Hl as [_ ?].
  - by intros ?%not_elem_of_nil.
Qed.

Lemma last_marked_snoc_true h0 l r :
  has_attr h0 r "selected" = true → last_marked h0 (l ++ [r]) = [r].
Proof.
  intros H. unfold last_marked, marked_in.
  rewrite filter_app, (filter_cons_True _ r) by done.
  by rewrite filter_nil, last_snoc.
Qed.

Lemma last_marked_snoc_false h0 l r :
  has_attr h0 r "selected" = false →
  last_marked h0 (l ++ [r]) = last_marked h0 l.
Proof.
  intros H. unfold last_marked, marked_in.
  rewrite filter_app, (filter_cons_False _ r) by (by rewrite H).
  by rewrite filter_nil, app_nil_r.
Qed.

(** The loop of [init_] on a single-select widget: after [done], the rest of
    the options are [queried]. *)
Lemma forEach_initOption_single h0 queried done w :
  NoDup (done ++ queried) →
  isMultiple_ (this w) = false →
  selectedOptions_ (this w) = last_marked h0 done →
  (∀ r, r ∈ done → has_attr (heap w) r "selected" =
                   bool_decide (r ∈ last_marked h0 done)) →
  (∀ r, r ∉ done → has_attr (heap w) r "selected" = has_attr h0 r "selected") →
  ∃ w', forEach queried initOption w = Return () w' ∧
    this w' = with_options (options_ (this w) ++ queried)
                (with_selectedOptions (last_marked h0 (done ++ queried))
                   (this w)) ∧
    body w' = body w ∧ effects w' = effects w ∧
    (∀ r, r ∈ done ++ queried →
       has_attr (heap w') r "selected" =
       bool_decide (r ∈ last_marked h0 (done ++ queried))) ∧
    (∀ r, childNodes (heap w' !!! r) = childNodes (heap w !!! r)) ∧
    (∀ r name, name ≠ "selected" → name ≠ "aria-selected" →
       name ≠ "role" → name ≠ "aria-disabled" →
       attr (heap w') r name = attr (heap w) r name).
Proof.
  revert done w. induction queried as [|opt queried IH];
    intros done w Hnd Hm Hsel Hdone Hrest.
  - exists w. rewrite !app_nil_r. split_and!; try done.
    rewrite <- Hsel. by destruct (this w).
  - destruct (initOption_spec opt w)
      as (w1 & Hrun & Hthis & Hbody & Heff & Hmark & Hkids & Hattr).
    simpl. rewrite (bind_Return _ _ _ _ _ Hrun).
    assert (Hopt : opt ∉ done).
    { apply NoDup_app in Hnd as (_ & Hdis & _). intros Hin.
      apply (Hdis _ Hin), list_elem_of_here. }
    assert (Hnsel : opt ∉ selectedOptions_ (this w)).
    { rewrite Hsel. intros Hin. by apply Hopt, (last_marked_elem h0). }
    assert (Hsel1 : selection_after_init w opt = last_marked h0 (done ++ [opt])).
    { unfold selection_after_init. rewrite (Hrest opt Hopt).
      destruct (has_attr h0 opt "selected") eqn:Hmk.
      - rewrite last_marked_snoc_true by done.
        unfold selected_after, includes.
        by rewrite bool_decide_eq_false_2, Hm.
      - rewrite last_marked_snoc_false by done.
        unfold spliced. by rewrite (proj2 (index_of_None _ _) Hnsel). }
    assert (Hmark1 : ∀ r, marker_after_init w opt r =
              if decide (r ∈ done ++ [opt])
              then bool_decide (r ∈ last_marked h0 (done ++ [opt]))
              else has_attr h0 r "selected").
    { intros r. unfold marker_after_init, includes.
      rewrite (Hrest opt Hopt), (bool_decide_eq_false_2 _ Hnsel), Hm, Hsel.
      destruct (decide (r = opt)) as [->|Hr].
      - rewrite decide_True
          by (apply elem_of_app; right; apply list_elem_of_here).
        destruct (has_attr h0 opt "selected") eqn:Hmk.
        + rewrite last_marked_snoc_true by done.
          symmetry. apply bool_decide_eq_true_2, list_elem_of_here.
        + rewrite last_marked_snoc_false by done.
          symmetry. apply bool_decide_eq_false_2.
          intros Hin. by apply Hopt, (last_marked_elem h0).
      - assert (r ∈ done ++ [opt] ↔ r ∈ done) as Hiff.
        { rewrite elem_of_app, list_elem_of_singleton. tauto. }
        destruct (decide (r ∈ done)) as [Hin|Hin].
        + rewrite decide_True by by apply Hiff.
          destruct (has_attr h0 opt "selected") eqn:Hmk; simpl.
          * rewrite last_marked_snoc_true by done.
            rewrite (bool_decide_eq_false_2 (r ∈ [opt]))
              by by rewrite list_elem_of_singleton.
            case_bool_decide; [done |]. rewrite Hdone by done.
            by apply bool_decide_eq_false_2.
          * rewrite last_marked_snoc_false by done. by apply Hdone.
        + rewrite decide_False by by rewrite Hiff.
          assert (r ∉ last_marked h0 done) as Hnl.
          { intros H. by apply Hin, (last_marked_elem h0). }
          destruct (has_attr h0 opt "selected"); simpl;
            rewrite ?(bool_decide_eq_false_2 _ Hnl); by apply Hrest. }
    destruct (IH (done ++ [opt]) w1)
      as (w' & Hrun' & Hthis' & Hbody' & Heff' & Hmark' & Hkids' & Hattr').
    + by rewrite <- (assoc_L (++)).
    + rewrite Hthis. by cbn.
    + rewrite Hthis. cbn. exact Hsel1.
    + intros r Hr. rewrite Hmark, Hmark1. by rewrite decide_True.
    + intros r Hr. rewrite Hmark, Hmark1. by rewrite decide_False.
    + rewrite <- (assoc_L (++)) in *. simpl in *.
      exists w'. split_and!; try done.
      * rewrite Hthis', Hthis. cbn. by rewrite <- (assoc_L (++)).
      * congruence.
      * congruence.
      * intros r. by rewrite Hkids', Hkids.
      * intros r name H1 H2 H3 H4. by rewrite Hattr', Hattr.
Qed.

Lemma not_input_attribute_selected : ¬ input_attribute "selected".
Proof. unfold input_attribute. intros H. repeat destruct H as [H | H]; done. Qed.

(** Form Sync returns whenever [inputs_] is attached to the host; it leaves
    the instance as it was except for [inputs_], and writes none of the
    attributes of the options. *)
Lemma setInputs_frame w :
  NoDup (inputs_ (this w)) →
  (∀ i, i ∈ inputs_ (this w) → i ∈ childNodes (heap w !!! element (this w))) →
  ∃ values w', setInputs_ w = Return values w' ∧
    this w' = with_inputs (inputs_ (this w')) (this w) ∧
    body w' = body w ∧ effects w' = effects w ∧
    NoDup (inputs_ (this w')) ∧
    (∀ i, i ∈ inputs_ (this w') →
          i ∈ childNodes (heap w' !!! element (this w))) ∧
    ∀ r name, ¬ input_attribute name →
      attr (heap w') r name = attr (heap w) r name.
Proof.
  intros Hnd Hkids.
  pose proof (setInputs_inert w) as Hinert.
  pose proof (setInputs_emitting w) as Hemit. cbv zeta in Hemit.
  destruct (truthy (attr (heap w) (element (this w)) "name")) eqn:Hname.
  - destruct (isDisabled_ (this w)) eqn:Hdis.
    + exists [], w. rewrite Hinert by by right. split_and!; try done.
      by destruct (this w).
    + destruct (Hemit eq_refl eq_refl Hnd Hkids)
        as (w' & Hrun & Hthis & Hbody & Heff & _ & Hnd' & _ & Hk & Hattr).
      eexists _, w'. split_and!; try done.
      intros i Hi. rewrite Hk. apply elem_of_app. by right.
  - exists [], w. rewrite Hinert by by left. split_and!; try done.
    by destruct (this w).
Qed.

(** [C10]: [init_], run on a single-select widget that has no selection and
    no inputs yet (as [buildCallback] runs it), over options of which some
    carry the [selected] marker, [l] being the last of them in document order
    and [earlier] the others: it returns with [l] as the one selected option,
    still marked, and with the marker gone from every option of [earlier]. *)
Theorem init_single_last_marked_wins w queried earlier l :
  isMultiple_ (this w) = false →
  selectedOptions_ (this w) = [] →
  inputs_ (this w) = [] →
  NoDup queried →
  marked_in (heap w) queried = earlier ++ [l] →
  ∃ w', init_ queried w = Return () w' ∧
    selectedOptions_ (this w') = [l] ∧
    has_attr (heap w') l "selected" = true ∧
    ∀ r, r ∈ earlier → has_attr (heap w') r "selected" = false.
Proof.
  intros Hm Hsel Hin Hnd Hmarked.
  destruct (forEach_initOption_single (heap w) queried [] w)
    as (w1 & Hrun1 & Hthis1 & _ & _ & Hmark1 & Hkids1 & _); try done.
  { intros r Hr. by apply not_elem_of_nil in Hr. }
  simpl in Hthis1, Hmark1.
  assert (Hlast : last_marked (heap w) queried = [l]).
  { unfold last_marked. by rewrite Hmarked, last_snoc. }
  rewrite Hlast in *.
  destruct (updateFocus_spec w1) as (w2 & Hrun2 & Hthis2 & _ & _ & Hsame).
  destruct (setInputs_frame w2) as (values & w3 & Hrun3 & Hthis3 & _ & _ & _ & _ & Hattr3).
  { rewrite Hthis2, Hthis1. cbn. rewrite Hin. apply NoDup_nil_2. }
  { rewrite Hthis2, Hthis1. cbn. rewrite Hin.
    intros i Hi. by apply not_elem_of_nil in Hi. }
  exists w3. unfold init_.
  rewrite (bind_Return _ _ _ _ _ Hrun1), (bind_Return _ _ _ _ _ Hrun2),
    (bind_Return _ _ _ _ _ Hrun3).
  split; [done |].
  assert (Hmark3 : ∀ r, has_attr (heap w3) r "selected" =
                        has_attr (heap w1) r "selected").
  { intros r. unfold has_attr.
    rewrite Hattr3 by apply not_input_attribute_selected.
    by rewrite (same_markup_attr _ _ _ _ Hsame). }
  assert (Hmk : ∀ r, r ∈ earlier ++ [l] → r ∈ queried).
  { intros r Hr. rewrite <- Hmarked in Hr.
    by apply list_elem_of_filter in Hr as [_ ?]. }
  assert (Hnd' : NoDup (earlier ++ [l])).
  { rewrite <- Hmarked. by apply NoDup_filter. }
  split_and!.
  - rewrite Hthis3, Hthis2, Hthis1. by cbn.
  - rewrite Hmark3, Hmark1.
    + apply bool_decide_eq_true_2, list_elem_of_here.
    + apply Hmk, elem_of_app. right. apply list_elem_of_here.
  - intros r Hr. rewrite Hmark3, Hmark1.
    + apply bool_decide_eq_false_2.
      apply NoDup_app in Hnd' as (_ & Hdis & _). by apply Hdis.
    + apply Hmk, elem_of_app. by left.
Qed.

Lemma init_single_last_marked_wins_witness :
  ∃ w', init_ [optX; optY; optZ] sampleAllMarked = Return () w' ∧
    selectedOptions_ (this w') = [optZ] ∧
    has_attr (heap w') optZ "selected" = true ∧
    ∀ r, r ∈ [optX; optY] → has_attr (heap w') r "selected" = false.
Proof.
  apply init_single_last_marked_wins; try (vm_compute; reflexivity).
  apply (bool_decide_unpack (NoDup [optX; optY; optZ])). vm_compute. exact I.
Defined.

(** ** The invariant of a built widget *)

Lemma consistent_select_ready w : consistent w → select_ready w.
Proof.
  intros (Hnd & Hsel & Hlen & Hact & Hndi & Hatt & _) Hmode.
  split_and!; auto.
Qed.

Lemma spliced_single sel el :
  (length sel ≤ 1)%nat → (length (spliced sel el) ≤ 1)%nat.
Proof. intros H. etrans; [apply length_spliced | done]. Qed.

Lemma NoDup_selected_after multiple sel el :
  NoDup sel → NoDup (selected_after multiple sel el).
Proof.
  intros Hnd. unfold selected_after, includes.
  case_bool_decide as Hin; [done |].
  destruct multiple; simpl; [| apply NoDup_singleton].
  apply NoDup_app. split_and!; [done | | apply NoDup_singleton].
  intros r Hr ->%list_elem_of_singleton. done.
Qed.

(** After [setSelection_ el], every selected option carries the marker if every
    one did before. *)
Lemma marker_selected_after w el r :
  selection_marked w →
  r ∈ selected_after (isMultiple_ (this w)) (selectedOptions_ (this w)) el →
  (if includes (selectedOptions_ (this w)) el
   then has_attr (heap w) r "selected"
   else if decide (r = el) then true
   else if negb (isMultiple_ (this w)) &&
           bool_decide (r ∈ selectedOptions_ (this w))
        then false
        else has_attr (heap w) r "selected") = true.
Proof.
  intros [_ Hmk]. unfold selected_after.
  destruct (includes _ _); [by apply Hmk |].
  case_decide as Hr; [done |].
  destruct (isMultiple_ (this w)); simpl.
  - rewrite elem_of_app, list_elem_of_singleton.
    intros [Hin | ->]; [by apply Hmk | done].
  - by intros ->%list_elem_of_singleton.
Qed.

Lemma NoDup_middle (l1 : list ref) x l2 :
  NoDup (l1 ++ x :: l2) →
  NoDup (l1 ++ l2) ∧ ∀ r, r ∈ l1 ++ l2 → r ≠ x.
Proof.
  intros (H1 & Hdis & [Hx H2]%NoDup_cons)%NoDup_app. split.
  - apply NoDup_app. split_and!; [done | | done].
    intros r Hr Hr2. apply (Hdis r Hr). by apply list_elem_of_further.
  - intros r [Hr | Hr]%elem_of_app ->; [| done].
    apply (Hdis x Hr), list_elem_of_here.
Qed.

Lemma spliced_middle sel el i :
  index_of sel el = Some i →
  sel = take i sel ++ el :: drop (S i) sel ∧
  spliced sel el = take i sel ++ drop (S i) sel.
Proof.
  intros Hi. destruct (index_of_Some _ _ _ Hi) as [Hl _]. split.
  - by rewrite take_drop_middle.
  - unfold spliced. by rewrite Hi, delete_take_drop.
Qed.

Lemma NoDup_spliced sel el : NoDup sel → NoDup (spliced sel el).
Proof.
  intros Hnd. destruct (index_of sel el) as [i|] eqn:Hi.
  - destruct (spliced_middle _ _ _ Hi) as [Hsel ->].
    rewrite Hsel in Hnd. by apply NoDup_middle in Hnd as [? _].
  - unfold spliced. by rewrite Hi.
Qed.

Lemma elem_of_spliced_NoDup sel el r :
  NoDup sel → r ∈ spliced sel el → r ≠ el ∧ r ∈ sel.
Proof.
  intros Hnd. destruct (index_of sel el) as [i|] eqn:Hi.
  - destruct (spliced_middle _ _ _ Hi) as [Hsel ->].
    rewrite Hsel in Hnd. apply NoDup_middle in Hnd as [_ Hne].
    intros Hr. split; [by apply Hne |].
    rewrite Hsel. apply elem_of_app in Hr as [Hr | Hr]; apply elem_of_app;
      [by left | right; by apply list_elem_of_further].
  - unfold spliced. rewrite Hi. intros Hr. split; [| done]. intros ->.
    by apply (proj1 (index_of_None _ _) Hi).
Qed.

Lemma setSelection_consistent el w :
  consistent w →
  ∃ w', setSelection_ el w = Return () w' ∧ consistent w' ∧
    options_ (this w') = options_ (this w).
Proof.
  intros (Hnd & Hsel & Hlen & Hact & Hndi & Hatt & Hmk).
  destruct (setSelection_spec el w) as (w' & Hrun & Hthis & _ & _ & Hh).
  exists w'. split; [done |].
  unfold consistent, selection_marked. rewrite Hthis. cbn.
  split_and!; try done.
  - intros Hm. rewrite Hm. apply length_selected_after. by apply Hlen.
  - intros i Hi. rewrite Hh, selected_element_childNodes. by apply Hatt.
  - by apply NoDup_selected_after, Hmk.
  - intros r Hr. unfold has_attr, attr. rewrite Hh, selected_element_marker.
    by apply marker_selected_after.
Qed.

Lemma clearSelection_consistent el w :
  consistent w →
  ∃ w', clearSelection_ el w = Return () w' ∧ consistent w' ∧
    options_ (this w') = options_ (this w).
Proof.
  intros (Hnd & Hsel & Hlen & Hact & Hndi & Hatt & Hnds & Hmk).
  rewrite clearSelection_run. eexists. split; [reflexivity |].
  unfold consistent, selection_marked. cbn. split_and!; try done.
  - intros Hm. apply spliced_single. by apply Hlen.
  - intros i Hi. rewrite lookup_total_upd. case_decide as Hr.
    + rewrite <- Hr. by apply Hatt.
    + by apply Hatt.
  - by apply NoDup_spliced.
  - intros r Hr. destruct (elem_of_spliced_NoDup _ _ _ Hnds Hr) as [Hne Hin].
    unfold has_attr. rewrite attr_upd, decide_False by done. by apply Hmk.
Qed.

Lemma clearAllSelections_consistent w :
  consistent w →
  ∃ w', clearAllSelections_ w = Return () w' ∧ consistent w' ∧
    options_ (this w') = options_ (this w).
Proof.
  intros (Hnd & Hsel & Hlen & Hact & Hndi & Hatt & Hmk).
  destruct (clearAllSelections_spec w) as (w' & Hrun & Hthis & _ & _ & Hh).
  exists w'. split; [done |].
  unfold consistent, selection_marked. rewrite Hthis. cbn.
  split_and!; try done.
  - intros _. lia.
  - intros i Hi. rewrite Hh. case_decide; by apply Hatt.
  - apply NoDup_nil_2.
  - intros r Hr. by apply not_elem_of_nil in Hr.
Qed.

Lemma updateFocus_consistent w :
  consistent w →
  ∃ w', updateFocus_ w = Return () w' ∧ consistent w' ∧
    options_ (this w') = options_ (this w).
Proof.
  intros (Hnd & Hsel & Hlen & Hact & Hndi & Hatt & Hnds & Hmk).
  destruct (updateFocus_spec w) as (w' & Hrun & Hthis & _ & _ & Hsame).
  exists w'. split; [done |].
  unfold consistent, selection_marked. rewrite Hthis. cbn.
  split_and!; try done.
  - intros i Hi. destruct (Hsame (element (this w))) as [_ ->]. by apply Hatt.
  - intros r Hr. rewrite (same_markup_has_attr _ _ _ _ Hsame). by apply Hmk.
Qed.

Lemma setInputs_consistent w :
  consistent w →
  ∃ values w', setInputs_ w = Return values w' ∧ consistent w' ∧
    options_ (this w') = options_ (this w).
Proof.
  intros (Hnd & Hsel & Hlen & Hact & Hndi & Hatt & Hnds & Hmk).
  destruct (setInputs_frame w Hndi Hatt)
    as (values & w' & Hrun & Hthis & _ & _ & Hndi' & Hatt' & Hattr).
  exists values, w'. split; [done |]. unfold consistent, selection_marked.
  rewrite Hthis in Hatt' |- *. cbn in Hatt' |- *.
  rewrite Hthis in Hndi'. cbn in Hndi'.
  split_and!; try done.
  intros r Hr. unfold has_attr.
  rewrite Hattr by apply not_input_attribute_selected. by apply Hmk.
Qed.

Lemma onOptionPicked_consistent el w :
  consistent w →
  ∃ w', onOptionPicked_ el w = Return () w' ∧ consistent w' ∧
    options_ (this w') = options_ (this w).
Proof.
  intros Hc. unfold onOptionPicked_. prim.
  destruct (has_attr (heap w) el "disabled"); [by exists w |]. cbn beta.
  assert (∀ w1, consistent w1 → options_ (this w1) = options_ (this w) →
    ∃ w', match setInputs_ w1 with
          | Return a0 w'0 => Return (Some a0) w'0
          | Throw e w'0 => Throw e w'0
          end = Return (Some (default [] (match setInputs_ w1 with
                                          | Return a0 _ => Some a0
                                          | Throw _ _ => None
                                          end))) w' ∧
      consistent w' ∧ options_ (this w') = options_ (this w)) as Hsync.
  { intros w1 Hc1 Ho1.
    destruct (setInputs_consistent w1 Hc1) as (values & w2 & -> & Hc2 & Ho2).
    exists w2. split_and!; [done | done | congruence]. }
  assert (∀ values w2, consistent w2 →
    options_ (this w2) = options_ (this w) →
    ∃ w', match updateFocus_ w2 with
          | Return _ w'0 =>
              match action_ (this w'0) with
              | Some _ => λ w3 : World,
                  Return ()
                    (with_effect
                       (Trigger (element (this w'0)) "select"
                          {| eventType := "amp-selector.select";
                             targetOption := attr (heap w'0) el "option";
                             selectedOptions := values |}) w3)
              | None => λ w3 : World, Throw TypeError w3
              end w'0
          | Throw e w'0 => Throw e w'0
          end = Return () w' ∧
      consistent w' ∧ options_ (this w') = options_ (this w)) as Hfire.
  { intros values w2 Hc2 Ho2.
    destruct (updateFocus_consistent w2 Hc2) as (w3 & -> & Hc3 & Ho3).
    destruct Hc3 as (? & ? & ? & Hact & ? & ? & ?).
    destruct (action_ (this w3)) eqn:Ha; [| done].
    eexists. split; [reflexivity |]. split.
    - unfold consistent. cbn. rewrite Ha. by split_and!.
    - cbn. congruence. }
  destruct (has_attr (heap w) el "selected").
  - destruct (isMultiple_ (this w)); [| by exists w]. cbn beta.
    destruct (clearSelection_consistent el w Hc) as (w1 & -> & Hc1 & Ho1).
    cbn beta iota.
    destruct (Hsync w1 Hc1 Ho1) as (w2 & -> & Hc2 & Ho2).
    cbn beta iota. by apply Hfire.
  - destruct (setSelection_consistent el w Hc) as (w1 & -> & Hc1 & Ho1).
    cbn beta iota.
    destruct (Hsync w1 Hc1 Ho1) as (w2 & -> & Hc2 & Ho2).
    cbn beta iota. by apply Hfire.
Qed.

Lemma clickHandler_consistent closestBySelector target w :
  consistent w →
  ∃ w', clickHandler_ closestBySelector target w = Return () w' ∧
    consistent w' ∧ options_ (this w') = options_ (this w).
Proof.
  intros Hc. unfold clickHandler_.
  destruct target as [el|]; [| by exists w]. prim.
  destruct (if has_attr (heap w) el "option" then Some el
            else closestBySelector el) as [el'|]; [| by exists w].
  by apply onOptionPicked_consistent.
Qed.

Lemma direction_cases Keycodes isLtr keyCode :
  let dir := direction Keycodes isLtr keyCode in
  dir = 0 ∨ dir = 1 ∨ dir = -1.
Proof.
  unfold direction. repeat case_decide; destruct isLtr; auto.
Qed.

Lemma at_index_Some l i el :
  at_index l i = Some el → 0 ≤ i < Z.of_nat (length l).
Proof.
  unfold at_index. case_decide as Hneg; [done |].
  intros Hl%lookup_lt_Some. lia.
Qed.

(** ** Keyboard navigation *)

(** The two assignments to [focusedIndex_] in [keyDownHandler_] amount to the
    mathematical modulus. *)
Lemma wraparound a n :
  0 < n →
  (if decide (Z.rem a n < 0) then Z.rem a n + n else Z.rem a n) = a mod n.
Proof.
  intros Hn.
  assert (Ha : a = Z.rem a n + (a ÷ n) * n).
  { rewrite (Z.mul_comm (a ÷ n) n), Z.add_comm. apply Z.quot_rem'. }
  assert (Hb : - n < Z.rem a n < n).
  { destruct (Z.le_gt_cases 0 a).
    - pose proof (Z.rem_bound_pos a n). lia.
    - pose proof (Z.rem_bound_pos_neg a n). lia. }
  rewrite Ha at 3. rewrite Z_mod_plus_full.
  case_decide.
  - apply (Z.mod_unique_pos _ _ (-1)); lia.
  - symmetry. apply Z.mod_small. lia.
Qed.

Lemma at_index_in_range l i :
  0 ≤ i < Z.of_nat (length l) →
  ∃ el, at_index l i = Some el ∧ l !! Z.to_nat i = Some el.
Proof.
  intros Hi. unfold at_index. rewrite decide_False by lia.
  destruct (lookup_lt_is_Some_2 l (Z.to_nat i)) as [el Hel]; [lia |].
  by exists el.
Qed.

Lemma selected_after_single sel el :
  (length sel ≤ 1)%nat → selected_after false sel el = [el].
Proof.
  intros Hlen. unfold selected_after, includes.
  case_bool_decide as Hin; [| done].
  destruct sel as [|x [|y sel]]; simpl in Hlen; [| | lia].
  - by apply not_elem_of_nil in Hin.
  - by apply list_elem_of_singleton in Hin as ->.
Qed.

Lemma not_input_attribute_dir : ¬ input_attribute "dir".
Proof. unfold input_attribute. intros H. repeat destruct H as [H | H]; done. Qed.

(** Option Picked on the option under the focus cursor, as run from the key
    handler in select mode: it returns, and the cursor stays where it is. *)
Lemma onOptionPicked_keeps_focus el i w :
  kbSelectMode_ (this w) = SELECT →
  select_ready w →
  options_ (this w) !! i = Some el →
  focusedIndex_ (this w) = Z.of_nat i →
  ∃ w', onOptionPicked_ el w = Return () w' ∧
    focusedIndex_ (this w') = Z.of_nat i ∧
    options_ (this w') = options_ (this w) ∧
    kbSelectMode_ (this w') = SELECT ∧
    body w' = body w ∧
    (∀ r, attr (heap w') r "dir" = attr (heap w) r "dir") ∧
    select_ready w'.
Proof.
  intros Hmode Hready Hel Hfi.
  destruct (Hready Hmode) as (Hnd & Hm & Hlen & Hact & Hndi & Hatt).
  unfold onOptionPicked_. prim.
  destruct (has_attr (heap w) el "disabled"); [by exists w |]. cbn beta.
  rewrite Hm.
  destruct (has_attr (heap w) el "selected"); [by exists w |].
  destruct (setSelection_spec el w) as (w1 & -> & Hthis1 & Hbody1 & Heff1 & Hh1).
  cbn beta iota.
  rewrite Hm, selected_after_single in Hthis1 by done.
  destruct (setInputs_frame w1)
    as (values & w2 & -> & Hthis2 & Hbody2 & Heff2 & Hndi2 & Hatt2 & Hattr2).
  { rewrite Hthis1. by cbn. }
  { rewrite Hthis1. cbn. intros j Hj.
    rewrite Hh1, selected_element_childNodes. by apply Hatt. }
  cbn beta iota.
  destruct (updateFocus_spec w2) as (w3 & -> & Hthis3 & Hbody3 & Heff3 & Hsame).
  cbn beta iota.
  assert (Hfocus : focus_after (this w2) = Z.of_nat i).
  { unfold focus_after, initialFocusedElement.
    rewrite Hthis2, Hthis1. cbn. rewrite Hmode, Hm.
    rewrite decide_False by done. cbn. by apply indexOf_lookup. }
  rewrite Hfocus in Hthis3.
  assert (Hact3 : action_ (this w3) = action_ (this w)).
  { rewrite Hthis3, Hthis2, Hthis1. by cbn. }
  rewrite Hact3. destruct (action_ (this w)) as [a|] eqn:Ha; [| done].
  eexists. split; [reflexivity |].
  cbn [this heap body effects with_effect].
  rewrite Hthis3, Hthis2, Hthis1. cbn. split_and!; try done.
  - congruence.
  - intros r. rewrite (same_markup_attr _ _ _ _ Hsame).
    rewrite Hattr2 by apply not_input_attribute_dir.
    unfold attr at 1. rewrite Hh1. by apply selected_element_attr.
  - intros _. cbn. rewrite Hthis3, Hthis2, Hthis1. cbn.
    split_and!; try done.
    + by rewrite Ha.
    + intros j Hj. destruct (Hsame (element (this w))) as [_ ->].
      apply Hatt2 in Hj. by rewrite Hthis1 in Hj.
Qed.

(** One navigation key press with the cursor inside the options. *)
Lemma keyDownHandler_step Keycodes keyCode w :
  let n := Z.of_nat (length (options_ (this w))) in
  let dir := direction Keycodes (isLtr w) keyCode in
  dir = 1 ∨ dir = -1 →
  0 ≤ focusedIndex_ (this w) < n →
  select_ready w →
  ∃ w', keyDownHandler_ Keycodes keyCode w = Return () w' ∧
    focusedIndex_ (this w') = (focusedIndex_ (this w) + dir) mod n ∧
    options_ (this w') = options_ (this w) ∧
    isLtr w' = isLtr w ∧
    select_ready w' ∧
    (consistent w → consistent w').
Proof.
  intros n dir Hdir Hfi Hready.
  unfold keyDownHandler_. prim. fold (isLtr w). fold dir.
  rewrite decide_False by lia.
  cbn [this heap body effects with_effect with_heap with_this].
  destruct (at_index_in_range _ _ Hfi) as (el & -> & _).
  cbn [this heap body effects with_effect with_heap with_this
       focusedIndex_ with_focusedIndex options_].
  fold n.
  set (w1 := with_this _ _).
  assert (Hw1 : ∃ w1' : World,
    (if decide (Z.rem (focusedIndex_ (this w) + dir) n < 0) return M ()
     then λ w0, Return () (with_this
            (with_focusedIndex (Z.rem (focusedIndex_ (this w) + dir) n + n)) w0)
     else λ w0, Return () w0) w1 = Return () w1' ∧
    this w1' = with_focusedIndex ((focusedIndex_ (this w) + dir) mod n) (this w) ∧
    body w1' = body w ∧
    same_markup (heap w) (heap w1')).
  { rewrite <- (wraparound _ n) by lia. subst w1.
    case_decide; (eexists; split; [reflexivity |]); cbn;
      (split_and!; [done | done | apply same_markup_tabIndex]). }
  destruct Hw1 as (w1' & -> & Hthis1 & Hbody1 & Hsame1). clear w1.
  cbn beta iota. rewrite Hthis1.
  cbn [focusedIndex_ with_focusedIndex options_].
  set (fi' := (focusedIndex_ (this w) + dir) mod n) in *.
  assert (Hfi' : 0 ≤ fi' < n) by (apply Z.mod_pos_bound; lia).
  destruct (at_index_in_range _ _ Hfi') as (new & -> & Hnew).
  set (w2 := with_effect _ _).
  assert (Hthis2 : this w2 = with_focusedIndex fi' (this w))
    by (subst w2; cbn; by rewrite Hthis1).
  assert (Hsame2 : same_markup (heap w) (heap w2)).
  { subst w2. cbn. eapply same_markup_trans; [exact Hsame1 |].
    apply same_markup_tabIndex. }
  assert (Hltr2 : isLtr w2 = isLtr w).
  { unfold isLtr. subst w2. cbn. rewrite Hbody1.
    by rewrite (same_markup_attr _ _ _ _ Hsame2). }
  assert (Hready2 : select_ready w2).
  { intros Hmode. rewrite Hthis2 in Hmode |- *. cbn in Hmode |- *.
    destruct (Hready Hmode) as (? & ? & ? & ? & ? & Hatt).
    split_and!; try done.
    intros i Hi. destruct (Hsame2 (element (this w))) as [_ Hk].
    apply Hatt in Hi. rewrite <- Hk in Hi. exact Hi. }
  assert (Hcons2 : consistent w → consistent w2).
  { intros (? & ? & ? & ? & ? & Hatt & ? & Hmk).
    unfold consistent, selection_marked.
    rewrite Hthis2. cbn. split_and!; try done.
    - intros i Hi. destruct (Hsame2 (element (this w))) as [_ Hk].
      apply Hatt in Hi. rewrite <- Hk in Hi. exact Hi.
    - intros r Hr. rewrite (same_markup_has_attr _ _ _ _ Hsame2).
      by apply Hmk. }
  destruct (decide (kbSelectMode_ (this w1') = SELECT)) as [Hmode|Hmode].
  - assert (Hmode2 : kbSelectMode_ (this w2) = SELECT) by done.
    destruct (onOptionPicked_keeps_focus new (Z.to_nat fi') w2)
      as (w3 & Hrun3 & Hfi3 & Hopts3 & Hmode3 & Hbody3 & Hdir3 & Hready3);
      try done.
    { by rewrite Hthis2. }
    { rewrite Hthis2. cbn. lia. }
    rewrite Hrun3.
    exists w3. split_and!; try done.
    + rewrite Hfi3. lia.
    + by rewrite Hopts3, Hthis2.
    + rewrite <- Hltr2. unfold isLtr. by rewrite Hbody3, Hdir3.
    + intros Hc.
      destruct (onOptionPicked_consistent new w2 (Hcons2 Hc))
        as (w3' & Hrun3' & Hc3 & _).
      rewrite Hrun3 in Hrun3'. by injection Hrun3' as ->.
  - exists w2. split_and!; try done; by rewrite Hthis2.
Qed.

Lemma times_keyDownHandler Keycodes keyCode k w :
  let n := Z.of_nat (length (options_ (this w))) in
  let dir := direction Keycodes (isLtr w) keyCode in
  dir = 1 ∨ dir = -1 →
  0 ≤ focusedIndex_ (this w) < n →
  select_ready w →
  ∃ w', times k (keyDownHandler_ Keycodes keyCode) w = Return () w' ∧
    focusedIndex_ (this w') =
      (focusedIndex_ (this w) + Z.of_nat k * dir) mod n.
Proof.
  revert w. induction k as [|k IH]; intros w n dir Hdir Hfi Hready.
  - exists w. split; [done |].
    rewrite Z.mul_0_l, Z.add_0_r. symmetry. by apply Z.mod_small.
  - destruct (keyDownHandler_step Keycodes keyCode w Hdir Hfi Hready)
      as (w1 & Hrun1 & Hfi1 & Hopts1 & Hltr1 & Hready1 & _).
    fold n dir in Hfi1.
    destruct (IH w1) as (w' & Hrun & Hfi'); try done.
    { by rewrite Hltr1. }
    { rewrite Hopts1, Hfi1. fold n. apply Z.mod_pos_bound. lia. }
    exists w'. simpl. rewrite (bind_Return _ _ _ _ _ Hrun1).
    split; [done |].
    rewrite Hfi', Hopts1, Hltr1, Hfi1. fold n dir.
    rewrite Z.add_mod_idemp_l by lia. f_equal. lia.
Qed.

(** [C4]: on a widget with [n] options and the cursor on one of them (so
    [n >= 1]), a key whose direction is "next" ([1]) or "previous" ([-1])
    moves [focusedIndex_] to [(focusedIndex_ + dir) mod n], a value of
    [[0, n)]; and [n] presses of that key bring [focusedIndex_] back to where
    it started.  In select mode the widget is taken as [buildCallback] leaves
    it ([select_ready]). *)
Theorem navigation_wraps_around Keycodes keyCode w :
  let n := Z.of_nat (length (options_ (this w))) in
  let dir := direction Keycodes (isLtr w) keyCode in
  dir = 1 ∨ dir = -1 →
  0 ≤ focusedIndex_ (this w) < n →
  select_ready w →
  (∃ w1, keyDownHandler_ Keycodes keyCode w = Return () w1 ∧
     focusedIndex_ (this w1) = (focusedIndex_ (this w) + dir) mod n ∧
     0 ≤ focusedIndex_ (this w1) < n) ∧
  (∃ wn, times (length (options_ (this w)))
           (keyDownHandler_ Keycodes keyCode) w = Return () wn ∧
     focusedIndex_ (this wn) = focusedIndex_ (this w)).
Proof.
  intros n dir Hdir Hfi Hready. split.
  - destruct (keyDownHandler_step Keycodes keyCode w Hdir Hfi Hready)
      as (w1 & Hrun1 & Hfi1 & _).
    exists w1. split; [done |]. split; [done |].
    rewrite Hfi1. apply Z.mod_pos_bound. lia.
  - destruct (times_keyDownHandler Keycodes keyCode
                (length (options_ (this w))) w Hdir Hfi Hready)
      as (wn & Hrun & Hfin).
    exists wn. split; [done |].
    rewrite Hfin. fold n dir.
    rewrite (Z.mul_comm n dir), Z_mod_plus_full. by apply Z.mod_small.
Qed.

Lemma navigation_wraps_around_witness :
  ∃ wn, times 3 (keyDownHandler_ arrowKeycodes 40) sampleSelectMode =
          Return () wn ∧
    focusedIndex_ (this wn) = 0.
Proof.
  apply (navigation_wraps_around arrowKeycodes 40 sampleSelectMode).
  - left. vm_compute. reflexivity.
  - vm_compute. split; [discriminate | reflexivity].
  - intros _. split_and!.
    + apply (bool_decide_unpack (NoDup [optX; optY; optZ])). vm_compute. exact I.
    + vm_compute. reflexivity.
    + vm_compute. lia.
    + vm_compute. discriminate.
    + vm_compute. apply NoDup_nil_2.
    + intros i Hi. vm_compute in Hi. by apply not_elem_of_nil in Hi.
Defined.

(** ** Consistency over the life of a widget *)

(** A key press leaves the widget consistent whether the handler returns or
    throws. *)
Lemma keyDownHandler_consistent Keycodes keyCode w :
  consistent w →
  consistent (final (keyDownHandler_ Keycodes keyCode w)).
Proof.
  intros Hc.
  destruct (direction_cases Keycodes (isLtr w) keyCode) as [Hd | Hd].
  { unfold keyDownHandler_. prim. fold (isLtr w).
    by rewrite decide_True. }
  destruct (at_index (options_ (this w)) (focusedIndex_ (this w)))
    as [el|] eqn:Hel.
  - destruct (keyDownHandler_step Keycodes keyCode w Hd)
      as (w' & -> & _ & _ & _ & _ & Hc').
    + by eapply at_index_Some.
    + by apply consistent_select_ready.
    + by apply Hc'.
  - unfold keyDownHandler_. prim. fold (isLtr w).
    rewrite decide_False by lia. cbn. by rewrite Hel.
Qed.

Lemma forEach_consistent {A} (f : A → M unit) l w :
  (∀ x w, consistent w →
     ∃ w', f x w = Return () w' ∧ consistent w' ∧
       options_ (this w') = options_ (this w)) →
  consistent w →
  ∃ w', forEach l f w = Return () w' ∧ consistent w' ∧
    options_ (this w') = options_ (this w).
Proof.
  intros Hf. revert w. induction l as [|x l IH]; intros w Hc.
  - by exists w.
  - destruct (Hf x w Hc) as (w1 & Hrun1 & Hc1 & Ho1).
    destruct (IH w1 Hc1) as (w' & Hrun & Hc' & Ho').
    exists w'. simpl. rewrite (bind_Return _ _ _ _ _ Hrun1).
    split_and!; [done | done | congruence].
Qed.

Lemma selectedAttributeMutated_consistent newValue w :
  consistent w →
  ∃ w', selectedAttributeMutated_ newValue w = Return () w' ∧ consistent w'.
Proof.
  intros Hc.
  assert (∀ selectedArray,
    ∃ w', (multiple ← gets (λ w, isMultiple_ (this w));
           let selectedArray :=
             if negb multiple then take 1 selectedArray else selectedArray in
           let selectedMap : gmap string bool :=
             foldl (λ map value, <[value := true]> map) ∅ selectedArray in
           opts ← gets (λ w, options_ (this w));
           forEach opts (λ el,
             value ← getAttribute el "option";
             if bool_decide (selectedMap !! to_string value = Some true)
             then setSelection_ el
             else clearSelection_ el) ;;
           updateFocus_ ;;
           setInputs_ ;;
           mret ()) w = Return () w' ∧ consistent w') as Hloop.
  { intros selectedArray. mrun. cbn zeta.
    set (selectedMap := foldl _ _ _).
    destruct (forEach_consistent
                (λ el, value ← getAttribute el "option";
                       if bool_decide (selectedMap !! to_string value = Some true)
                       then setSelection_ el
                       else clearSelection_ el)
                (options_ (this w)) w) as (w1 & Hrun1 & Hc1 & _); [| done |].
    { intros el w0 Hc0. unfold getAttribute. mrun.
      case_bool_decide;
        [by apply setSelection_consistent | by apply clearSelection_consistent]. }
    unfold mbind, M_bind in Hrun1. rewrite Hrun1.
    destruct (updateFocus_consistent w1 Hc1) as (w2 & -> & Hc2 & _).
    destruct (setInputs_consistent w2 Hc2) as (values & w3 & -> & Hc3 & _).
    by exists w3. }
  destruct newValue as [|key|keys].
  - destruct (clearAllSelections_consistent w Hc) as (w' & Hrun & Hc' & _).
    by exists w'.
  - apply Hloop.
  - apply Hloop.
Qed.

Lemma dispatch_consistent Keycodes e w :
  consistent w → consistent (final (dispatch Keycodes e w)).
Proof.
  intros Hc. destruct e as [closest target | keyCode | selected]; simpl.
  - destruct (clickHandler_consistent closest target w Hc) as (w' & -> & ? & _).
    done.
  - by apply keyDownHandler_consistent.
  - destruct selected as [newValue|]; [| done]. simpl.
    destruct (selectedAttributeMutated_consistent newValue w Hc)
      as (w' & -> & ?).
    done.
Qed.

Lemma after_events_consistent Keycodes events w :
  consistent w → consistent (after_events Keycodes events w).
Proof.
  revert w. induction events as [|e events IH]; intros w Hc; [done |].
  simpl. by apply IH, dispatch_consistent.
Qed.

Lemma initOption_marked opt w w' :
  selection_marked w →
  this w' = with_options (options_ (this w) ++ [opt])
              (with_selectedOptions (selection_after_init w opt) (this w)) →
  (∀ r, has_attr (heap w') r "selected" = marker_after_init w opt r) →
  selection_marked w'.
Proof.
  intros Hmk Hthis Hmark. unfold selection_marked. rewrite Hthis. cbn.
  unfold selection_after_init. split.
  - destruct (has_attr (heap w) opt "selected");
      [by apply NoDup_selected_after, Hmk | by apply NoDup_spliced, Hmk].
  - intros r. rewrite Hmark. unfold marker_after_init.
    destruct (has_attr (heap w) opt "selected").
    + by apply marker_selected_after.
    + intros Hr. destruct (elem_of_spliced_NoDup _ _ _ (proj1 Hmk) Hr)
        as [Hne Hin].
      rewrite decide_False by done. by apply Hmk.
Qed.

Lemma forEach_initOption_frame queried w :
  (isMultiple_ (this w) = false →
   (length (selectedOptions_ (this w)) ≤ 1)%nat) →
  selection_marked w →
  ∃ w', forEach queried initOption w = Return () w' ∧
    this w' = with_options (options_ (this w) ++ queried)
                (with_selectedOptions (selectedOptions_ (this w')) (this w)) ∧
    (isMultiple_ (this w) = false →
     (length (selectedOptions_ (this w')) ≤ 1)%nat) ∧
    selection_marked w' ∧
    ∀ r, childNodes (heap w' !!! r) = childNodes (heap w !!! r).
Proof.
  revert w. induction queried as [|opt queried IH]; intros w Hlen Hmk.
  - exists w. rewrite app_nil_r. split_and!; try done.
    by destruct (this w).
  - destruct (initOption_spec opt w)
      as (w1 & Hrun1 & Hthis1 & _ & _ & Hmark1 & Hkids1 & _).
    destruct (IH w1) as (w' & Hrun & Hthis & Hlen' & Hmk' & Hkids).
    { rewrite Hthis1. cbn. intros Hm. unfold selection_after_init.
      destruct (has_attr (heap w) opt "selected").
      - rewrite Hm. by apply length_selected_after, Hlen.
      - by apply spliced_single, Hlen. }
    { by eapply initOption_marked. }
    exists w'. simpl. rewrite (bind_Return _ _ _ _ _ Hrun1).
    split_and!; try done.
    + rewrite Hthis, Hthis1. cbn. by rewrite <- (assoc_L (++)).
    + intros Hm. apply Hlen'. rewrite Hthis1. by cbn.
    + intros r. by rewrite Hkids, Hkids1.
Qed.

Lemma init_consistent queried w :
  NoDup (options_ (this w) ++ queried) →
  (kbSelectMode_ (this w) = SELECT → isMultiple_ (this w) = false) →
  (isMultiple_ (this w) = false →
   (length (selectedOptions_ (this w)) ≤ 1)%nat) →
  action_ (this w) ≠ None →
  NoDup (inputs_ (this w)) →
  (∀ i, i ∈ inputs_ (this w) → i ∈ childNodes (heap w !!! element (this w))) →
  selection_marked w →
  ∃ w', init_ queried w = Return () w' ∧ consistent w'.
Proof.
  intros Hnd Hsel Hlen Hact Hndi Hatt Hmk.
  destruct (forEach_initOption_frame queried w Hlen Hmk)
    as (w1 & Hrun1 & Hthis1 & Hlen1 & Hmk1 & Hkids1).
  assert (Hc1 : consistent w1).
  { unfold consistent. split_and!; try done; rewrite Hthis1; cbn; try done.
    intros i Hi. rewrite Hkids1. by apply Hatt. }
  destruct (updateFocus_consistent w1 Hc1) as (w2 & Hrun2 & Hc2 & _).
  destruct (setInputs_consistent w2 Hc2) as (values & w3 & Hrun3 & Hc3 & _).
  exists w3. unfold init_.
  by rewrite (bind_Return _ _ _ _ _ Hrun1), (bind_Return _ _ _ _ _ Hrun2),
    (bind_Return _ _ _ _ _ Hrun3).
Qed.

(** A widget that [buildCallback] has built, over the distinct elements
    [querySelectorAll] returns, is consistent. *)
Lemma buildCallback_consistent queried h b host trace w :
  NoDup queried →
  buildCallback queried
    {| heap := h; body := b; this := constructor host; effects := trace |} =
    Return () w →
  consistent w.
Proof.
  intros Hnd. unfold buildCallback. prim. cbn.
  set (multiple := has_attr h host "multiple").
  set (disabled := has_attr h host "disabled").
  set (w0 := (if multiple return M () then _ else _) _).
  assert (∃ h0, w0 = Return ()
            {| heap := h0; body := b;
               this := with_isDisabled disabled
                         (with_isMultiple multiple
                            (with_action (Some actionServiceForDoc)
                               (constructor host)));
               effects := trace |}) as [h0 ->].
  { subst w0. destruct multiple; by eexists. }
  cbn beta iota.
  set (w1 := (if disabled return M () then _ else _) _).
  assert (∃ h1, w1 = Return ()
            {| heap := h1; body := b;
               this := with_isDisabled disabled
                         (with_isMultiple multiple
                            (with_action (Some actionServiceForDoc)
                               (constructor host)));
               effects := trace |}) as [h1 ->].
  { subst w1. destruct disabled; by eexists. }
  cbn beta iota. cbn [heap].
  destruct (parse_mode _) as [mode|]; [| done].
  destruct (multiple && bool_decide (mode = SELECT)) eqn:Hassert; [done |].
  cbn [negb]. cbn beta iota.
  set (w2 := with_this _ _).
  destruct (init_consistent queried w2) as (w3 & -> & Hc3); try done.
  { subst w2. cbn. intros ->. rewrite bool_decide_eq_true_2 in Hassert by done.
    by destruct multiple. }
  { intros _. subst w2. cbn. lia. }
  { apply NoDup_nil_2. }
  { intros i Hi. by apply not_elem_of_nil in Hi. }
  { split; [apply NoDup_nil_2 |]. intros r Hr. by apply not_elem_of_nil in Hr. }
  cbn beta iota.
  destruct disabled; cbn; [by intros [= <-] |].
  destruct (decide (mode ≠ NONE)); by intros [= <-].
Qed.

(** Every state of a built widget, after any sequence of clicks, key presses
    and external mutations, is consistent; in particular a single-select
    widget never holds two selections and the hidden inputs stay attached. *)
Lemma built_widget_consistent Keycodes queried h b host trace w events :
  NoDup queried →
  buildCallback queried
    {| heap := h; body := b; this := constructor host; effects := trace |} =
    Return () w →
  consistent (after_events Keycodes events w).
Proof.
  intros Hnd Hbuild.
  by eapply after_events_consistent, buildCallback_consistent.
Qed.

(** * Further properties *)

(** ** What a method leaves alone *)

Lemma final_bind {A B} (m : M A) (f : A → M B) w :
  final ((m ≫= f) w) =
  match m w with
  | Return a w' => final (f a w')
  | Throw _ w' => w'
  end.
Proof. unfold mbind, M_bind. by destruct (m w). Qed.

Lemma unchanged_ret {A T} (π : World → T) (a : A) : unchanged π (mret a).
Proof. by intros w. Qed.

Lemma unchanged_gets {A T} (π : World → T) (f : World → A) :
  unchanged π (gets f).
Proof. by intros w. Qed.

Lemma unchanged_throw {A T} (π : World → T) e : unchanged π (@throw A e).
Proof. by intros w. Qed.

Lemma unchanged_modify {T} (π : World → T) f :
  (∀ w, π (f w) = π w) → unchanged π (modify f).
Proof. intros H w. apply H. Qed.

Lemma unchanged_bind {A B T} (π : World → T) (m : M A) (f : A → M B) :
  unchanged π m → (∀ a, unchanged π (f a)) → unchanged π (m ≫= f).
Proof.
  intros Hm Hf w. rewrite final_bind. specialize (Hm w).
  destruct (m w) as [a w'|e w']; simpl in Hm; [| done].
  by rewrite Hf.
Qed.

Lemma unchanged_forEach {A T} (π : World → T) (l : list A) f :
  (∀ x, unchanged π (f x)) → unchanged π (forEach l f).
Proof.
  intros Hf. induction l as [|x l IH]; [by intros w |].
  simpl. apply unchanged_bind; [apply Hf | by intros _].
Qed.

Lemma unchanged_foldM {A B T} (π : World → T) (f : B → A → M B) l b :
  (∀ b x, unchanged π (f b x)) → unchanged π (foldM f l b).
Proof.
  intros Hf. revert b. induction l as [|x l IH]; intros b; [by intros w |].
  simpl. apply unchanged_bind; [apply Hf | apply IH].
Qed.

Create HintDb frame discriminated.

Lemma unchanged_createElement {T} (π : World → T) :
  (∀ f w, π (with_heap f w) = π w) → unchanged π createElement.
Proof. intros H w. apply H. Qed.

(** Goes through the body of a method; [tac] settles the writes. *)
Ltac frame_with tac :=
  unfold getAttribute, hasAttribute, setAttribute, removeAttribute,
    setTabIndex, appendChild, updElement, updHeap, updThis, emit, assert,
    mutateElement;
  repeat first
    [ assumption
    | solve [auto 1 with frame nocore]
    | apply unchanged_ret
    | apply unchanged_gets
    | apply unchanged_throw
    | apply unchanged_bind
    | apply unchanged_forEach
    | apply unchanged_foldM
    | apply unchanged_modify; intros ?; tac
    | apply unchanged_createElement; intros ? ?; tac
    | match goal with
      | |- unchanged _ (let _ := _ in _) => cbv zeta
      | |- unchanged _ (if ?b then _ else _) => destruct b
      | |- unchanged _ (match ?x with _ => _ end) => destruct x
      | |- unchanged _ _ => fail 1
      | |- _ => intro
      end ].

(** Observations that the selection methods leave alone: those that do not
    look at the heap, the selection, the inputs or the focus cursor. *)
Section selection_frame.
Context {T : Type} (π : World → T).
Hypothesis π_heap : ∀ f w, π (with_heap f w) = π w.
Hypothesis π_selectedOptions :
  ∀ l w, π (with_this (with_selectedOptions l) w) = π w.
Hypothesis π_inputs : ∀ l w, π (with_this (with_inputs l) w) = π w.
Hypothesis π_focusedIndex :
  ∀ i w, π (with_this (with_focusedIndex i) w) = π w.

Local Ltac frame :=
  frame_with ltac:(first [ apply π_heap | apply π_selectedOptions
                         | apply π_inputs | apply π_focusedIndex ]).

Lemma clearSelection_unchanged el : unchanged π (clearSelection_ el).
Proof. unfold clearSelection_. frame. Qed.
Local Hint Resolve clearSelection_unchanged : frame.

Lemma clearAllSelections_unchanged : unchanged π clearAllSelections_.
Proof.
  unfold clearAllSelections_. frame.
  induction (length a) as [|n IH]; simpl; [frame |].
  unfold pop_selectedOptions. frame.
Qed.
Local Hint Resolve clearAllSelections_unchanged : frame.

Lemma setSelection_unchanged el : unchanged π (setSelection_ el).
Proof. unfold setSelection_. frame. Qed.
Local Hint Resolve setSelection_unchanged : frame.

Lemma updateFocus_unchanged : unchanged π updateFocus_.
Proof. unfold updateFocus_. frame. Qed.
Local Hint Resolve updateFocus_unchanged : frame.

Lemma setInputs_unchanged : unchanged π setInputs_.
Proof. unfold setInputs_, addInput, removeChild. frame. Qed.
Local Hint Resolve setInputs_unchanged : frame.

Lemma selectedAttributeMutated_unchanged newValue :
  unchanged π (selectedAttributeMutated_ newValue).
Proof. unfold selectedAttributeMutated_. destruct newValue; frame. Qed.
End selection_frame.

(** ** The configuration is fixed at build time *)

Section config_frame.
Local Ltac frame := frame_with ltac:(reflexivity).

Lemma clearSelection_config el : unchanged config (clearSelection_ el).
Proof. by apply clearSelection_unchanged. Qed.
Lemma setSelection_config el : unchanged config (setSelection_ el).
Proof. by apply setSelection_unchanged. Qed.
Lemma updateFocus_config : unchanged config updateFocus_.
Proof. by apply updateFocus_unchanged. Qed.
Lemma setInputs_config : unchanged config setInputs_.
Proof. by apply setInputs_unchanged. Qed.
Local Hint Resolve clearSelection_config setSelection_config
  updateFocus_config setInputs_config : frame.

Lemma onOptionPicked_config el : unchanged config (onOptionPicked_ el).
Proof. unfold onOptionPicked_. frame. Qed.
Local Hint Resolve onOptionPicked_config : frame.

Lemma dispatch_config Keycodes e : unchanged config (dispatch Keycodes e).
Proof.
  destruct e as [closest target | keyCode | selected]; simpl.
  - unfold clickHandler_. frame.
  - unfold keyDownHandler_. frame.
  - destruct selected as [newValue|]; simpl; [| frame].
    by apply selectedAttributeMutated_unchanged.
Qed.
End config_frame.

(** [X1]: no click, key press or external mutation, in any number and order
    and whether its handler returns or throws, changes what was fixed at build
    time: the host element, [isMultiple_], [isDisabled_], [kbSelectMode_], the
    action service, the list [options_] and the document body. *)
Theorem events_keep_config Keycodes events w :
  config (after_events Keycodes events w) = config w.
Proof.
  revert w. induction events as [|e events IH]; intros w; [done |].
  simpl. rewrite IH. apply dispatch_config.
Qed.

(** [X2]: an external mutation of [selected], whatever the value pushed and
    whether the handler returns or throws, makes no call into the host: no
    [select] event is triggered, no focus is moved, no default is prevented. *)
Theorem mutatedAttributesCallback_silent selected w :
  effects (final (mutatedAttributesCallback selected w)) = effects w.
Proof.
  destruct selected as [newValue|]; [| done]. simpl.
  by apply (selectedAttributeMutated_unchanged effects).
Qed.

(** ** Building *)

Lemma attr_setAttribute_other el k v (h : gmap ref Element) r name :
  name ≠ k →
  attr (upd el (with_attributes <[k:=v]>) h) r name = attr h r name.
Proof.
  intros Hk. rewrite attr_upd_attributes. case_decide; [| done].
  subst. by rewrite lookup_insert_ne.
Qed.

Lemma childNodes_upd_attributes el g (h : gmap ref Element) r :
  childNodes (upd el (with_attributes g) h !!! r) = childNodes (h !!! r).
Proof. rewrite lookup_total_upd. case_decide; by subst. Qed.

Lemma attr_setAttribute_same el k v (h : gmap ref Element) :
  attr (upd el (with_attributes <[k:=v]>) h) el k = Some v.
Proof.
  rewrite attr_upd_attributes, decide_True by done. by rewrite lookup_insert_eq.
Qed.

(** The first half of [buildCallback], up to the two assertions: the flags
    are read and the host gets its ARIA attributes; no other element is
    touched and [keyboard-select-mode] is still what it was. *)
Lemma buildCallback_prefix queried h b host trace :
  ∃ h1,
    buildCallback queried (constructed h b host trace) =
    (match parse_mode (requested_mode h host) with
     | None => throw (AssertionError "Invalid keyboard-select-mode")
     | Some mode =>
         assert (negb (has_attr h host "multiple" && bool_decide (mode = SELECT)))
           "[keyboard-select-mode=select] not supported for multiple selection amp-selector" ;;
         updThis (with_kbSelectMode mode) ;;
         init_ queried ;;
         if negb (has_attr h host "disabled") then
           emit (AddEventListener host "click") ;;
           if decide (mode ≠ NONE)
           then emit (AddEventListener host "keydown")
           else mret ()
         else mret ()
     end)
      {| heap := h1; body := b;
         this := with_isDisabled (has_attr h host "disabled")
                   (with_isMultiple (has_attr h host "multiple")
                      (with_action (Some actionServiceForDoc)
                         (constructor host)));
         effects := trace |} ∧
    (∀ r, r ≠ host → h1 !!! r = h !!! r) ∧
    (∀ r, childNodes (h1 !!! r) = childNodes (h !!! r)) ∧
    attr h1 host "role" = Some "listbox" ∧
    attr h1 host "aria-multiselectable" =
      (if has_attr h host "multiple" then Some "true"
       else attr h host "aria-multiselectable") ∧
    attr h1 host "aria-disabled" =
      (if has_attr h host "disabled" then Some "true"
       else attr h host "aria-disabled") ∧
    (∀ name, name ≠ "role" → name ≠ "aria-multiselectable" →
       name ≠ "aria-disabled" → attr h1 host name = attr h host name).
Proof.
  unfold buildCallback, constructed, requested_mode. prim. cbn.
  set (multiple := has_attr h host "multiple").
  set (disabled := has_attr h host "disabled").
  destruct multiple, disabled;
    cbn [heap with_heap with_this this body effects];
    rewrite !attr_setAttribute_other by done;
    (eexists; split; [reflexivity |]);
    (split_and!; cbn [heap with_heap with_this this body effects];
     [ intros r Hr; repeat (rewrite lookup_total_upd, decide_False by done);
       done
     | intros r; by rewrite !childNodes_upd_attributes
     | by rewrite ?attr_setAttribute_other, ?attr_setAttribute_same by done ..
     | intros name H1 H2 H3; by rewrite ?attr_setAttribute_other by done ]).
Qed.

Section init_frame.
Local Ltac frame := frame_with ltac:(reflexivity).

Lemma clearSelection_settings el : unchanged settings (clearSelection_ el).
Proof. by apply clearSelection_unchanged. Qed.
Lemma setSelection_settings el : unchanged settings (setSelection_ el).
Proof. by apply setSelection_unchanged. Qed.
Lemma updateFocus_settings : unchanged settings updateFocus_.
Proof. by apply updateFocus_unchanged. Qed.
Lemma setInputs_settings : unchanged settings setInputs_.
Proof. by apply setInputs_unchanged. Qed.
Local Hint Resolve clearSelection_settings setSelection_settings
  updateFocus_settings setInputs_settings : frame.

Lemma init_settings queried : unchanged settings (init_ queried).
Proof. unfold init_, initOption. frame. Qed.
End init_frame.

(** [init_] appends the options it is given to [options_], in their order. *)
Lemma init_options queried w w' :
  init_ queried w = Return () w' →
  options_ (this w') = options_ (this w) ++ queried.
Proof.
  unfold init_. intros Hrun.
  assert (∀ l w0, ∃ w1, forEach l initOption w0 = Return () w1 ∧
            options_ (this w1) = options_ (this w0) ++ l) as Hloop.
  { induction l as [|opt l IH]; intros w0.
    - exists w0. by rewrite app_nil_r.
    - destruct (initOption_spec opt w0) as (w1 & Hrun1 & Hthis1 & _).
      destruct (IH w1) as (w2 & Hrun2 & Ho2).
      exists w2. simpl. rewrite (bind_Return _ _ _ _ _ Hrun1).
      split; [done |]. rewrite Ho2, Hthis1. cbn.
      by rewrite <- (assoc_L (++)). }
  destruct (Hloop queried w) as (w1 & Hrun1 & Ho1).
  rewrite (bind_Return _ _ _ _ _ Hrun1) in Hrun.
  assert (unchanged (λ w, options_ (this w)) updateFocus_) as Hf
    by by apply updateFocus_unchanged.
  assert (unchanged (λ w, options_ (this w)) setInputs_) as Hi
    by by apply setInputs_unchanged.
  unfold mbind, M_bind in Hrun. specialize (Hf w1).
  destruct (updateFocus_ w1) as [[] w2|e w2]; [| done].
  specialize (Hi w2).
  destruct (setInputs_ w2) as [values w3|e w3]; [| done].
  injection Hrun as <-. simpl in Hf, Hi. congruence.
Qed.

(** [X3]: when the [keyboard-select-mode] of the host is none of ["none"],
    ["focus"], ["select"] (and not empty), [buildCallback] throws the
    assertion error [Invalid keyboard-select-mode] before it looks at any
    option: no option is registered or touched, nothing is selected and no
    listener is attached. *)
Theorem buildCallback_invalid_mode queried h b host trace :
  parse_mode (requested_mode h host) = None →
  ∃ w', buildCallback queried (constructed h b host trace) =
          Throw (AssertionError "Invalid keyboard-select-mode") w' ∧
    options_ (this w') = [] ∧
    selectedOptions_ (this w') = [] ∧
    effects w' = trace ∧
    ∀ r, r ≠ host → heap w' !!! r = h !!! r.
Proof.
  intros Hparse.
  destruct (buildCallback_prefix queried h b host trace)
    as (h1 & -> & Hother & _).
  rewrite Hparse. unfold throw. eexists. split; [reflexivity |].
  by split_and!.
Qed.

Lemma buildCallback_invalid_mode_witness :
  ∃ w', buildCallback [optX; optY; optZ] sampleBadMode =
          Throw (AssertionError "Invalid keyboard-select-mode") w' ∧
    options_ (this w') = [] ∧
    selectedOptions_ (this w') = [] ∧
    effects w' = [] ∧
    ∀ r, r ≠ hostEl → heap w' !!! r = heap sampleBadMode !!! r.
Proof.
  apply (buildCallback_invalid_mode _ (heap sampleBadMode) bodyEl hostEl []).
  vm_compute. reflexivity.
Defined.

(** [X4]: on a host that carries [multiple] and asks for
    [keyboard-select-mode="select"], [buildCallback] throws the assertion
    error for the unsupported combination; the mode of the instance is still
    the [NONE] of the constructor, no option is registered or touched and no
    listener is attached. *)
Theorem buildCallback_multiple_select queried h b host trace :
  has_attr h host "multiple" = true →
  parse_mode (requested_mode h host) = Some SELECT →
  ∃ w', buildCallback queried (constructed h b host trace) =
          Throw (AssertionError
                   "[keyboard-select-mode=select] not supported for multiple selection amp-selector")
            w' ∧
    kbSelectMode_ (this w') = NONE ∧
    options_ (this w') = [] ∧
    effects w' = trace ∧
    ∀ r, r ≠ host → heap w' !!! r = h !!! r.
Proof.
  intros Hm Hparse.
  destruct (buildCallback_prefix queried h b host trace)
    as (h1 & -> & Hother & _).
  rewrite Hparse, Hm. unfold assert. cbn.
  eexists. split; [reflexivity |]. by split_and!.
Qed.

Lemma buildCallback_multiple_select_witness :
  ∃ w', buildCallback [optX; optY; optZ] sampleMultipleSelectMode =
          Throw (AssertionError
                   "[keyboard-select-mode=select] not supported for multiple selection amp-selector")
            w' ∧
    kbSelectMode_ (this w') = NONE ∧
    options_ (this w') = [] ∧
    effects w' = [] ∧
    ∀ r, r ≠ hostEl → heap w' !!! r = heap sampleMultipleSelectMode !!! r.
Proof.
  apply (buildCallback_multiple_select _ (heap sampleMultipleSelectMode)
           bodyEl hostEl []); vm_compute; reflexivity.
Defined.

(** [X5]: in every other case [buildCallback], given the distinct options
    [querySelectorAll] found, returns: the instance has the flags of the
    host, the mode asked for, the action service and exactly those options,
    in their order; it is consistent; and the host calls made are the
    listeners, none on a disabled host, else [click] and, unless the mode is
    [NONE], [keydown]. *)
Theorem buildCallback_returns queried h b host trace mode :
  NoDup queried →
  parse_mode (requested_mode h host) = Some mode →
  has_attr h host "multiple" && bool_decide (mode = SELECT) = false →
  ∃ w, buildCallback queried (constructed h b host trace) = Return () w ∧
    element (this w) = host ∧
    isMultiple_ (this w) = has_attr h host "multiple" ∧
    isDisabled_ (this w) = has_attr h host "disabled" ∧
    kbSelectMode_ (this w) = mode ∧
    action_ (this w) = Some actionServiceForDoc ∧
    options_ (this w) = queried ∧
    effects w = trace ++ listeners host (has_attr h host "disabled") mode ∧
    consistent w.
Proof.
  intros Hnd Hparse Hassert.
  assert (∃ w, buildCallback queried (constructed h b host trace) = Return () w
               ∧ settings w =
                 (host, has_attr h host "multiple", has_attr h host "disabled",
                  Some actionServiceForDoc, mode, b,
                  trace ++ listeners host (has_attr h host "disabled") mode)
               ∧ options_ (this w) = queried) as (w & Hrun & Hset & Hopts).
  { destruct (buildCallback_prefix queried h b host trace)
      as (h1 & -> & _).
    rewrite Hparse, Hassert. unfold assert. prim. cbn [negb]. cbn beta iota.
    set (w2 := with_this _ _).
    destruct (init_consistent queried w2) as (w3 & Hrun3 & _); try done.
    { subst w2. cbn. intros ->.
      rewrite bool_decide_eq_true_2, andb_true_r in Hassert by done.
      done. }
    { intros _. subst w2. cbn. lia. }
    { apply NoDup_nil_2. }
    { intros i Hi. by apply not_elem_of_nil in Hi. }
    { split; [apply NoDup_nil_2 |]. intros r Hr. by apply not_elem_of_nil in Hr. }
    pose proof (init_settings queried w2) as Hs.
    pose proof (init_options queried w2 w3 Hrun3) as Ho.
    rewrite Hrun3 in Hs |- *. simpl in Hs. cbn beta iota.
    unfold settings in Hs. subst w2. cbn in Hs, Ho.
    injection Hs as He Hm Hd Ha Hk Hb Hf.
    unfold listeners, settings.
    destruct (has_attr h host "disabled"); cbn.
    - eexists. split; [reflexivity |].
      rewrite He, Hm, Hd, Ha, Hk, Hb, Hf, app_nil_r. done.
    - destruct (decide (mode ≠ NONE)); (eexists; split; [reflexivity |]);
        cbn; rewrite He, Hm, Hd, Ha, Hk, Hb, Hf, <- ?(assoc_L (++)); done. }
  exists w. unfold settings in Hset. injection Hset as -> -> -> -> -> _ ->.
  split_and!; try done.
  by eapply buildCallback_consistent.
Qed.

Lemma buildCallback_returns_witness :
  ∃ w, buildCallback [optX; optY; optZ] sampleDisabledHost = Return () w ∧
    element (this w) = hostEl ∧
    isMultiple_ (this w) = false ∧
    isDisabled_ (this w) = true ∧
    kbSelectMode_ (this w) = FOCUS ∧
    action_ (this w) = Some actionServiceForDoc ∧
    options_ (this w) = [optX; optY; optZ] ∧
    effects w = [] ∧
    consistent w.
Proof.
  apply (buildCallback_returns [optX; optY; optZ] (heap sampleDisabledHost)
           bodyEl hostEl [] FOCUS).
  - apply (bool_decide_unpack (NoDup [optX; optY; optZ])). vm_compute. exact I.
  - vm_compute. reflexivity.
  - vm_compute. reflexivity.
Defined.

(** ** Key presses *)

(** A navigation key with the cursor on an option: the handler moves the
    focus and, in select mode, goes on with Option Picked. *)
Lemma keyDownHandler_run Keycodes keyCode w old :
  let n := Z.of_nat (length (options_ (this w))) in
  let dir := direction Keycodes (isLtr w) keyCode in
  let index := (focusedIndex_ (this w) + dir) mod n in
  dir ≠ 0 →
  at_index (options_ (this w)) (focusedIndex_ (this w)) = Some old →
  ∃ new, at_index (options_ (this w)) index = Some new ∧
    keyDownHandler_ Keycodes keyCode w =
    (if decide (kbSelectMode_ (this w) = SELECT)
     then onOptionPicked_ new else mret ())
      (focus_moved w old new index).
Proof.
  intros n dir index Hdir Hold.
  pose proof (at_index_Some _ _ _ Hold) as Hfi. fold n in Hfi.
  assert (Hindex : 0 ≤ index < n) by (apply Z.mod_pos_bound; lia).
  destruct (at_index_in_range _ _ Hindex) as (new & Hnew & _).
  exists new. split; [done |].
  unfold keyDownHandler_. prim. fold (isLtr w). fold dir.
  rewrite decide_False by done.
  cbn [this heap body effects with_effect with_heap with_this].
  rewrite Hold.
  cbn [this heap body effects with_effect with_heap with_this
       focusedIndex_ with_focusedIndex options_].
  fold n. pose proof (wraparound (focusedIndex_ (this w) + dir) n) as Hwrap.
  fold index in Hwrap.
  destruct (decide (Z.rem (focusedIndex_ (this w) + dir) n < 0));
    cbn [this heap body effects with_effect with_heap with_this
         focusedIndex_ with_focusedIndex options_ kbSelectMode_];
    rewrite Hwrap by lia; rewrite Hnew; by destruct w as [? ? [] ?].
Qed.



(** A navigation key with the cursor off the options. *)
Lemma keyDownHandler_stray Keycodes keyCode w :
  direction Keycodes (isLtr w) keyCode ≠ 0 →
  at_index (options_ (this w)) (focusedIndex_ (this w)) = None →
  keyDownHandler_ Keycodes keyCode w =
  Throw TypeError (with_effect PreventDefault w).
Proof.
  intros Hdir Hnone.
  unfold keyDownHandler_. prim. fold (isLtr w).
  rewrite decide_False by done.
  cbn [this heap body effects with_effect with_heap with_this].
  by rewrite Hnone.
Qed.

(** [X7]: a key press throws exactly when it is a navigation key and the
    cursor is not on an option; it then throws [TypeError] with
    [preventDefault] already called and nothing else changed.  In every other
    case the handler returns. *)
Theorem keyDownHandler_throws_iff Keycodes keyCode w :
  let dir := direction Keycodes (isLtr w) keyCode in
  let stray := dir ≠ 0 ∧
    at_index (options_ (this w)) (focusedIndex_ (this w)) = None in
  select_ready w →
  (stray → keyDownHandler_ Keycodes keyCode w =
             Throw TypeError (with_effect PreventDefault w)) ∧
  (¬ stray → ∃ w', keyDownHandler_ Keycodes keyCode w = Return () w').
Proof.
  intros dir stray Hready. split.
  - intros [Hdir Hnone]. by apply keyDownHandler_stray.
  - intros Hstray.
    destruct (direction_cases Keycodes (isLtr w) keyCode) as [Hd | Hd].
    { exists w. unfold keyDownHandler_. prim. fold (isLtr w).
      by rewrite decide_True. }
    destruct (at_index (options_ (this w)) (focusedIndex_ (this w)))
      as [el|] eqn:Hel.
    + destruct (keyDownHandler_step Keycodes keyCode w Hd)
        as (w' & -> & _); [by eapply at_index_Some | done |].
      by exists w'.
    + destruct Hstray. split; [| done]. fold (isLtr w) in Hd.
      unfold dir. lia.
Qed.

Lemma keyDownHandler_throws_iff_witness :
  let w := with_this (with_focusedIndex (-1)) sampleFocusMode in
  keyDownHandler_ arrowKeycodes 40 w =
    Throw TypeError (with_effect PreventDefault w) ∧
  ∃ w', keyDownHandler_ arrowKeycodes 40 sampleFocusMode = Return () w'.
Proof.
  split.
  - apply (keyDownHandler_throws_iff arrowKeycodes 40
             (with_this (with_focusedIndex (-1)) sampleFocusMode)).
    + intros Hmode. vm_compute in Hmode. discriminate.
    + split; [vm_compute; discriminate | vm_compute; reflexivity].
  - apply (keyDownHandler_throws_iff arrowKeycodes 40 sampleFocusMode).
    + intros Hmode. vm_compute in Hmode. discriminate.
    + intros [_ Hnone]. vm_compute in Hnone. discriminate.
Defined.

(** ** Option Picked when the selection changes *)

(** Form Sync on a widget whose inputs are distinct children of the host. *)
Lemma setInputs_values w :
  NoDup (inputs_ (this w)) →
  (∀ i, i ∈ inputs_ (this w) → i ∈ childNodes (heap w !!! element (this w))) →
  ∃ w', setInputs_ w = Return (form_values w (selectedOptions_ (this w))) w' ∧
    this w' = with_inputs (inputs_ (this w')) (this w) ∧
    body w' = body w ∧ effects w' = effects w ∧
    NoDup (inputs_ (this w')) ∧
    (∀ i, i ∈ inputs_ (this w') →
          i ∈ childNodes (heap w' !!! element (this w))) ∧
    ∀ r name, ¬ input_attribute name →
      attr (heap w') r name = attr (heap w) r name.
Proof.
  intros Hnd Hkids. unfold form_values.
  pose proof (setInputs_inert w) as Hinert.
  pose proof (setInputs_emitting w) as Hemit. cbv zeta in Hemit.
  destruct (truthy (attr (heap w) (element (this w)) "name")) eqn:Hname.
  - destruct (isDisabled_ (this w)) eqn:Hdis.
    + exists w. rewrite Hinert by by right. split_and!; try done.
      by destruct (this w).
    + destruct (Hemit eq_refl eq_refl Hnd Hkids)
        as (w' & Hrun & Hthis & Hbody & Heff & _ & Hnd' & _ & Hk & Hattr).
      exists w'. split_and!; try done.
      intros i Hi. rewrite Hk. apply elem_of_app. by right.
  - exists w. rewrite Hinert by by left. split_and!; try done.
    by destruct (this w).
Qed.

Lemma form_values_ext w w' sel :
  element (this w') = element (this w) →
  isDisabled_ (this w') = isDisabled_ (this w) →
  attr (heap w') (element (this w)) "name" =
    attr (heap w) (element (this w)) "name" →
  (∀ r, attr (heap w') r "disabled" = attr (heap w) r "disabled") →
  (∀ r, attr (heap w') r "option" = attr (heap w) r "option") →
  form_values w' sel = form_values w sel.
Proof.
  intros He Hd Hname Hdisabled Hoption. unfold form_values.
  rewrite He, Hd, Hname.
  rewrite (enabled_ext (heap w) (heap w')) by done.
  destruct (_ && _); [| done].
  apply list_fmap_ext. intros _ r _. by apply Hoption.
Qed.

Lemma not_input_attribute_disabled : ¬ input_attribute "disabled".
Proof. unfold input_attribute. intros H. by decompose [or] H. Qed.

Lemma not_input_attribute_option : ¬ input_attribute "option".
Proof. unfold input_attribute. intros H. by decompose [or] H. Qed.

(** Form Sync leaves the elements the document already has as they are, but
    for the child list of the host: it writes attributes to the inputs it
    creates only. *)
Lemma setInputs_old_elements w r :
  NoDup (inputs_ (this w)) →
  (∀ i, i ∈ inputs_ (this w) → i ∈ childNodes (heap w !!! element (this w))) →
  r ∈ dom (heap w) →
  attributes (heap (final (setInputs_ w)) !!! r) = attributes (heap w !!! r) ∧
  (r ≠ element (this w) →
   childNodes (heap (final (setInputs_ w)) !!! r) = childNodes (heap w !!! r)).
Proof.
  intros Hnd Hkids Hr.
  destruct (decide (truthy (attr (heap w) (element (this w)) "name") = true ∧
                    isDisabled_ (this w) = false)) as [[Hname Hdis] | Hinert].
  2: { rewrite setInputs_inert; [done |].
       destruct (truthy _); [| by left].
       destruct (isDisabled_ _); [by right |]. by destruct Hinert. }
  unfold setInputs_. mrun. unfold getAttribute, gets. cbn beta.
  rewrite Hname, Hdis. cbn [negb orb].
  destruct (forEach_removeChild (element (this w)) _ w Hnd Hkids)
    as (w1 & -> & Hthis1 & Hbody1 & Heff1 & Hdom1 & Hattr1 & Hkids1).
  unfold updThis, modify. cbn beta iota.
  set (w2 := with_this (with_inputs []) w1).
  destruct (foldM_addInput (attr (heap w) (element (this w)) "name")
              (attr (heap w) (element (this w)) "form")
              (selectedOptions_ (this w2)) ([], []) w2)
    as (new & w3 & Hrun & _ & _ & _ & _ & Hold3 & _).
  rewrite Hrun. cbn [fst snd app].
  unfold appendChild, updElement, updHeap, modify. cbn.
  rewrite lookup_total_upd.
  assert (Hw3 : heap w3 !!! r = heap w1 !!! r).
  { rewrite Hold3 by (subst w2; cbn; by apply Hdom1). by subst w2. }
  split.
  - case_decide; [subst r |]; cbn; by rewrite Hw3.
  - intros Hne. rewrite decide_False by done.
    by rewrite Hw3, Hkids1, decide_False.
Qed.

Lemma setInputs_host_name w :
  NoDup (inputs_ (this w)) →
  (∀ i, i ∈ inputs_ (this w) → i ∈ childNodes (heap w !!! element (this w))) →
  attr (heap (final (setInputs_ w))) (element (this w)) "name" =
  attr (heap w) (element (this w)) "name".
Proof.
  intros Hnd Hkids.
  destruct (attr (heap w) (element (this w)) "name") as [s|] eqn:Hname.
  - unfold attr.
    destruct (setInputs_old_elements w (element (this w)) Hnd Hkids)
      as [-> _]; [by eapply attr_Some_dom | done].
  - rewrite setInputs_inert; [done |]. left. by rewrite Hname.
Qed.

Lemma toggled_element_attr w el r name :
  name ≠ "selected" → name ≠ "aria-selected" →
  attributes (toggled_element w el r) !! name = attr (heap w) r name.
Proof.
  intros H1 H2. unfold toggled_element.
  destruct (has_attr _ _ _); [| by apply selected_element_attr].
  case_decide as Hr; [| done]. subst.
  rewrite attributes_deselected. by rewrite !decide_False.
Qed.

Lemma toggled_element_childNodes w el r :
  childNodes (toggled_element w el r) = childNodes (heap w !!! r).
Proof.
  unfold toggled_element.
  destruct (has_attr _ _ _); [| by apply selected_element_childNodes].
  by case_decide; subst.
Qed.

(** The selection step of Option Picked. *)
Lemma toggle_run el w :
  consistent w →
  ∃ w1, (if has_attr (heap w) el "selected"
         then clearSelection_ el else setSelection_ el) w = Return () w1 ∧
    this w1 = with_selectedOptions (toggled w el) (this w) ∧
    body w1 = body w ∧ effects w1 = effects w ∧
    (∀ r, heap w1 !!! r = toggled_element w el r) ∧
    consistent w1.
Proof.
  intros Hc. unfold toggled, toggled_element.
  destruct (has_attr (heap w) el "selected").
  - destruct (clearSelection_consistent el w Hc) as (w1 & Hrun & Hc1 & _).
    exists w1. split; [done |].
    rewrite clearSelection_run in Hrun. injection Hrun as <-.
    split_and!; try done.
    intros r. cbn. rewrite lookup_total_upd. by case_decide; subst.
  - destruct (setSelection_consistent el w Hc) as (w1 & Hrun & Hc1 & _).
    destruct (setSelection_spec el w) as (w1' & Hrun' & ? & ? & ? & ?).
    rewrite Hrun in Hrun'. injection Hrun' as <-.
    by exists w1.
Qed.

Lemma onOptionPicked_change_run el w :
  consistent w →
  has_attr (heap w) el "disabled" = false →
  (has_attr (heap w) el "selected" = true → isMultiple_ (this w) = true) →
  ∃ w', onOptionPicked_ el w = Return () w' ∧
    selectedOptions_ (this w') = toggled w el ∧
    focusedIndex_ (this w') =
      focus_after (with_selectedOptions (toggled w el) (this w)) ∧
    config w' = config w ∧
    effects w' =
      effects w ++ [selectEvent w el (form_values w (toggled w el))] ∧
    (∀ r name, ¬ input_attribute name →
       attr (heap w') r name = attributes (toggled_element w el r) !! name) ∧
    (∀ sel, form_values w' sel = form_values w sel).
Proof.
  intros Hc Hdis Hsel.
  destruct (toggle_run el w Hc)
    as (w1 & Hrun1 & Hthis1 & Hbody1 & Heff1 & Hh1 & Hc1).
  unfold onOptionPicked_. prim. rewrite Hdis. cbn beta iota.
  match goal with
  | |- ∃ w', match ?s with _ => _ end = _ ∧ _ =>
      assert (Hstep : s =
        match setInputs_ w1 with
        | Return a0 w'1 => Return (Some a0) w'1
        | Throw e w'1 => Throw e w'1
        end)
  end.
  { destruct (has_attr (heap w) el "selected").
    - rewrite Hsel by done. by rewrite Hrun1.
    - by rewrite Hrun1. }
  rewrite Hstep. clear Hstep Hrun1.
  destruct Hc1 as (_ & _ & _ & Hact1 & Hndi1 & Hatt1 & _).
  pose proof (setInputs_host_name w1 Hndi1 Hatt1) as Hname2.
  destruct (setInputs_values w1 Hndi1 Hatt1)
    as (w2 & Hrun2 & Hthis2 & Hbody2 & Heff2 & _ & _ & Hattr2).
  rewrite Hrun2 in Hname2 |- *. cbn [final] in Hname2.
  cbn beta iota.
  destruct (updateFocus_spec w2) as (w3 & -> & Hthis3 & Hbody3 & Heff3 & Hsame).
  cbn beta iota.
  assert (Hact3 : action_ (this w3) = action_ (this w1))
    by (rewrite Hthis3, Hthis2; by cbn).
  rewrite Hact3. destruct (action_ (this w1)) as [a|]; [| done].
  eexists. split; [reflexivity |].
  assert (Hattr : ∀ r name, ¬ input_attribute name →
    attr (heap w3) r name = attributes (toggled_element w el r) !! name).
  { intros r name Hn. rewrite (same_markup_attr _ _ _ _ Hsame).
    rewrite Hattr2 by done. unfold attr. by rewrite Hh1. }
  assert (Hvalues1 : ∀ sel, form_values w1 sel = form_values w sel).
  { intros sel. apply form_values_ext; rewrite ?Hthis1; try done;
      intros; unfold attr; rewrite Hh1; by apply toggled_element_attr. }
  cbn [this heap body effects with_effect].
  rewrite Hthis3, Hthis2, Hthis1. cbn. split_and!; try done.
  - unfold config. cbn. rewrite Hthis3, Hthis2, Hthis1. cbn. congruence.
  - rewrite Heff3, Heff2, Heff1. unfold selectEvent. do 4 f_equal.
    + rewrite Hattr, toggled_element_attr; [done.. |].
      unfold input_attribute. intros H; by decompose [or] H.
    + apply Hvalues1.
  - intros sel. rewrite <- Hvalues1.
    apply form_values_ext; cbn.
    + by rewrite Hthis3, Hthis2.
    + by rewrite Hthis3, Hthis2.
    + by rewrite (same_markup_attr _ _ _ _ Hsame).
    + intros r. rewrite (same_markup_attr _ _ _ _ Hsame).
      apply Hattr2, not_input_attribute_disabled.
    + intros r. rewrite (same_markup_attr _ _ _ _ Hsame).
      apply Hattr2, not_input_attribute_option.
Qed.

Lemma onOptionPicked_change el w :
  consistent w →
  has_attr (heap w) el "disabled" = false →
  (has_attr (heap w) el "selected" = true → isMultiple_ (this w) = true) →
  ∃ w', onOptionPicked_ el w = Return () w' ∧
    selectedOptions_ (this w') = toggled w el ∧
    focusedIndex_ (this w') =
      focus_after (with_selectedOptions (toggled w el) (this w)) ∧
    config w' = config w ∧
    effects w' =
      effects w ++ [selectEvent w el (form_values w (toggled w el))] ∧
    (∀ r name, ¬ input_attribute name →
       attr (heap w') r name = attributes (toggled_element w el r) !! name) ∧
    (∀ sel, form_values w' sel = form_values w sel) ∧
    consistent w'.
Proof.
  intros Hc Hdis Hsel.
  destruct (onOptionPicked_change_run el w Hc Hdis Hsel)
    as (w' & Hrun & H).
  destruct (onOptionPicked_consistent el w Hc) as (wc & Hrunc & Hcc & _).
  rewrite Hrun in Hrunc. injection Hrunc as <-.
  exists w'. by split_and!; try apply H.
Qed.

Lemma consistentb_sound w : consistentb w = true → consistent w.
Proof.
  unfold consistentb, consistent, selection_marked. intros H.
  repeat (apply andb_prop in H as [H ?]).
  repeat match goal with
         | H : bool_decide _ = true |- _ => apply bool_decide_eq_true in H
         | H : forallb _ _ = true |- _ =>
             rewrite forallb_forall in H; setoid_rewrite <- list_elem_of_In in H
         end.
  rename select (implb (bool_decide _) _ = true) into Hmode.
  rename select (implb (negb _) _ = true) into Hlen.
  rename select (∀ x, _ → bool_decide _ = true) into Hkids.
  split_and!; try done.
  - intros Hm. rewrite bool_decide_eq_true_2 in Hmode by done.
    by destruct (isMultiple_ (this w)).
  - intros Hm. rewrite Hm in Hlen. by apply bool_decide_eq_true in Hlen.
  - by apply not_eq_None_Some.
  - intros i Hi. apply Hkids in Hi. by apply bool_decide_eq_true in Hi.
Qed.



Lemma toggled_unmarked el w :
  consistent w →
  has_attr (heap w) el "selected" = false →
  (el ∉ selectedOptions_ (this w)) ∧
  toggled w el =
    (if isMultiple_ (this w) then selectedOptions_ (this w) else []) ++ [el].
Proof.
  intros (_ & _ & _ & _ & _ & _ & _ & Hmk) Hs.
  assert (Hin : el ∉ selectedOptions_ (this w)).
  { intros Hin. apply Hmk in Hin. congruence. }
  split; [done |].
  unfold toggled, selected_after, includes. rewrite Hs.
  by rewrite bool_decide_eq_false_2.
Qed.

(** [X9]: on a single-select widget that manages focus, Option Picked on an
    enabled, unmarked element that is not one of the options the widget
    collected when it was built selects that element and leaves the cursor at
    -1, the result of [indexOf]; the next navigation key then throws
    [TypeError] once it has prevented the default. *)
Theorem onOptionPicked_stray_option Keycodes keyCode el w :
  consistent w →
  isMultiple_ (this w) = false →
  kbSelectMode_ (this w) ≠ NONE →
  has_attr (heap w) el "disabled" = false →
  has_attr (heap w) el "selected" = false →
  el ∉ options_ (this w) →
  direction Keycodes (isLtr w) keyCode ≠ 0 →
  ∃ w', onOptionPicked_ el w = Return () w' ∧
    selectedOptions_ (this w') = [el] ∧
    focusedIndex_ (this w') = -1 ∧
    keyDownHandler_ Keycodes keyCode w' =
      Throw TypeError (with_effect PreventDefault w').
Proof.
  intros Hc Hm Hmode Hdis Hs Hel Hdir.
  destruct (onOptionPicked_change el w Hc Hdis)
    as (w' & Hrun & Hsel & Hfi & Hcfg & _ & Hattr & _ & _); [congruence |].
  destruct (toggled_unmarked el w Hc Hs) as [_ Ht].
  rewrite Hm in Ht. cbn in Ht. rewrite Ht in Hsel, Hfi.
  assert (Hfi' : focusedIndex_ (this w') = -1).
  { rewrite Hfi. unfold focus_after, initialFocusedElement. cbn.
    rewrite decide_False, Hm by done. cbn.
    change (at_index [el] 0) with (Some el). cbn beta iota.
    unfold indexOf. by rewrite (proj2 (index_of_None _ _) Hel). }
  injection Hcfg as He _ _ _ _ Ho Hb.
  exists w'. split_and!; try done.
  apply keyDownHandler_stray.
  - unfold isLtr. rewrite Hb, Hattr by apply not_input_attribute_dir.
    by rewrite toggled_element_attr.
  - rewrite Hfi'. unfold at_index. by rewrite decide_True.
Qed.

Lemma onOptionPicked_stray_option_witness :
  ∃ w', onOptionPicked_ optW sampleLateOption = Return () w' ∧
    selectedOptions_ (this w') = [optW] ∧
    focusedIndex_ (this w') = -1 ∧
    keyDownHandler_ arrowKeycodes 40 w' =
      Throw TypeError (with_effect PreventDefault w').
Proof.
  apply (onOptionPicked_stray_option arrowKeycodes 40 optW sampleLateOption).
  - apply consistentb_sound. vm_compute. reflexivity.
  - vm_compute. reflexivity.
  - vm_compute. discriminate.
  - vm_compute. reflexivity.
  - vm_compute. reflexivity.
  - apply (bool_decide_unpack (optW ∉ [optX; optY; optZ])). vm_compute. exact I.
  - vm_compute. discriminate.
Defined.

Lemma spliced_snoc sel el : el ∉ sel → spliced (sel ++ [el]) el = sel.
Proof.
  intros Hel. unfold spliced.
  assert (Hi : index_of (sel ++ [el]) el = Some (length sel)).
  { induction sel as [|y sel IH]; simpl.
    - by rewrite decide_True.
    - apply not_elem_of_cons in Hel as [Hy Hel].
      rewrite decide_False by done. by rewrite IH. }
  rewrite Hi, delete_middle. by rewrite app_nil_r.
Qed.

(** [X10]: on a multi-select widget, picking an enabled, unmarked option and
    then picking it again is a round trip: both calls return; the first
    appends the option to the selection, the second gives back the selection
    there was, with the [selected] marker on the same elements as before; two
    [select] events are triggered, the first with the values of the grown
    selection and the second with the values of the original one. *)
Theorem onOptionPicked_twice_multiple el w :
  let sel := selectedOptions_ (this w) in
  consistent w →
  isMultiple_ (this w) = true →
  has_attr (heap w) el "disabled" = false →
  has_attr (heap w) el "selected" = false →
  ∃ w1 w2,
    onOptionPicked_ el w = Return () w1 ∧
    onOptionPicked_ el w1 = Return () w2 ∧
    selectedOptions_ (this w1) = sel ++ [el] ∧
    selectedOptions_ (this w2) = sel ∧
    (∀ r, has_attr (heap w2) r "selected" = has_attr (heap w) r "selected") ∧
    effects w2 =
      effects w ++ [selectEvent w el (form_values w (sel ++ [el]));
                    selectEvent w el (form_values w sel)].
Proof.
  intros sel Hc Hm Hdis Hs.
  destruct (toggled_unmarked el w Hc Hs) as [Hel Ht].
  rewrite Hm in Ht. fold sel in Hel, Ht.
  destruct (onOptionPicked_change el w Hc Hdis)
    as (w1 & Hrun1 & Hsel1 & _ & Hcfg1 & Heff1 & Hattr1 & Hvalues1 & Hc1);
    [done |].
  rewrite Ht in Hsel1, Heff1.
  injection Hcfg1 as He1 Hm1 _ _ _ _ _.
  assert (Hselected : ¬ input_attribute "selected")
    by apply not_input_attribute_selected.
  assert (Hs1 : has_attr (heap w1) el "selected" = true).
  { destruct Hc1 as (_ & _ & _ & _ & _ & _ & _ & Hmk1).
    apply Hmk1. rewrite Hsel1. apply elem_of_app. right.
    by apply list_elem_of_singleton. }
  assert (Hdis1 : has_attr (heap w1) el "disabled" = false).
  { unfold has_attr. rewrite Hattr1 by apply not_input_attribute_disabled.
    by rewrite toggled_element_attr. }
  destruct (onOptionPicked_change el w1 Hc1 Hdis1)
    as (w2 & Hrun2 & Hsel2 & _ & _ & Heff2 & Hattr2 & _ & _); [congruence |].
  assert (Ht1 : toggled w1 el = sel).
  { unfold toggled. rewrite Hs1, Hsel1. by apply spliced_snoc. }
  rewrite Ht1 in Hsel2, Heff2.
  exists w1, w2. split_and!; try done.
  - intros r. unfold has_attr at 1. rewrite Hattr2 by done.
    unfold toggled_element. rewrite Hs1.
    destruct (decide (r = el)) as [-> | Hr].
    + rewrite attributes_deselected. rewrite decide_False, decide_True by done.
      by rewrite Hs.
    + fold (attr (heap w1) r "selected"). rewrite Hattr1 by done.
      unfold toggled_element, selected_element, includes. rewrite Hs.
      rewrite (bool_decide_eq_false_2 _ Hel).
      rewrite decide_False by done. by rewrite Hm.
  - rewrite Heff2, Heff1, <- app_assoc. cbn [app].
    unfold selectEvent. rewrite He1, Hvalues1.
    rewrite Hattr1 by apply not_input_attribute_option.
    by rewrite toggled_element_attr.
Qed.

Lemma onOptionPicked_twice_multiple_witness :
  ∃ w1 w2,
    onOptionPicked_ optZ sampleMultiple = Return () w1 ∧
    onOptionPicked_ optZ w1 = Return () w2 ∧
    selectedOptions_ (this w1) = selectedOptions_ (this sampleMultiple) ++ [optZ] ∧
    selectedOptions_ (this w2) = selectedOptions_ (this sampleMultiple) ∧
    (∀ r, has_attr (heap w2) r "selected" =
          has_attr (heap sampleMultiple) r "selected") ∧
    effects w2 =
      effects sampleMultiple ++
      [selectEvent sampleMultiple optZ
         (form_values sampleMultiple
            (selectedOptions_ (this sampleMultiple) ++ [optZ]));
       selectEvent sampleMultiple optZ
         (form_values sampleMultiple (selectedOptions_ (this sampleMultiple)))].
Proof.
  apply (onOptionPicked_twice_multiple optZ sampleMultiple).
  - apply consistentb_sound. vm_compute. reflexivity.
  - vm_compute. reflexivity.
  - vm_compute. reflexivity.
  - vm_compute. reflexivity.
Defined.

(** ** The markup mirrors the selection *)

Lemma keeps_ret {A} (I : World → Prop) (a : A) : keeps I (mret a).
Proof. by intros w. Qed.

Lemma keeps_gets {A} (I : World → Prop) (f : World → A) : keeps I (gets f).
Proof. by intros w. Qed.

Lemma keeps_throw {A} (I : World → Prop) e : keeps I (@throw A e).
Proof. by intros w. Qed.

Lemma keeps_modify (I : World → Prop) f :
  (∀ w, I w → I (f w)) → keeps I (modify f).
Proof. intros H w. apply H. Qed.

Lemma keeps_bind {A B} (I : World → Prop) (m : M A) (f : A → M B) :
  keeps I m → (∀ a, keeps I (f a)) → keeps I (m ≫= f).
Proof.
  intros Hm Hf w Hw. rewrite final_bind. specialize (Hm w Hw).
  destruct (m w) as [a w'|e w']; simpl in Hm; [| done].
  by apply Hf.
Qed.

Lemma keeps_forEach {A} (I : World → Prop) (l : list A) f :
  (∀ x, keeps I (f x)) → keeps I (forEach l f).
Proof.
  intros Hf. induction l as [|x l IH]; [by intros w |].
  simpl. apply keeps_bind; [apply Hf | by intros _].
Qed.

Lemma keeps_foldM {A B} (I : World → Prop) (f : B → A → M B) l b :
  (∀ b x, keeps I (f b x)) → keeps I (foldM f l b).
Proof.
  intros Hf. revert b. induction l as [|x l IH]; intros b; [by intros w |].
  simpl. apply keeps_bind; [apply Hf | apply IH].
Qed.

Create HintDb keeps discriminated.

(** Goes through the body of a method; [tac] settles the writes. *)
Ltac keeps_with tac :=
  unfold getAttribute, hasAttribute, setAttribute, removeAttribute,
    setTabIndex, appendChild, updElement, updHeap, updThis, emit, assert,
    mutateElement;
  repeat first
    [ assumption
    | solve [auto 1 with keeps nocore]
    | apply keeps_ret
    | apply keeps_gets
    | apply keeps_throw
    | apply keeps_bind
    | apply keeps_forEach
    | apply keeps_foldM
    | apply keeps_modify; tac
    | match goal with
      | |- keeps _ (let _ := _ in _) => cbv zeta
      | |- keeps _ (if ?b then _ else _) => destruct b
      | |- keeps _ (match ?x with _ => _ end) => destruct x
      | |- keeps _ _ => fail 1
      | |- _ => intro
      end ].

Lemma mirrored_over_ext opts w w' :
  selectedOptions_ (this w') = selectedOptions_ (this w) →
  (∀ r name, name = "selected" ∨ name = "aria-selected" →
     attr (heap w') r name = attr (heap w) r name) →
  mirrored_over opts w → mirrored_over opts w'.
Proof.
  intros Hsel Hattr (Hnd & Hin & Hout).
  unfold mirrored_over, has_attr. rewrite Hsel.
  split_and!; [done | |]; intros r Hr; rewrite !Hattr by auto.
  - by apply Hin.
  - by apply Hout.
Qed.

Lemma mirrored_over_subseteq opts opts' w :
  (∀ r, r ∈ opts → r ∈ opts') →
  mirrored_over opts' w → mirrored_over opts w.
Proof.
  intros Hsub (Hnd & Hin & Hout). split_and!; [done | done |].
  intros r Hr. by apply Hout, Hsub.
Qed.

Lemma clearSelection_mirrored_over opts el w :
  mirrored_over opts w →
  mirrored_over (el :: opts) (final (clearSelection_ el w)).
Proof.
  intros (Hnd & Hin & Hout). rewrite clearSelection_run.
  unfold mirrored_over, has_attr. cbn. split_and!.
  - by apply NoDup_spliced.
  - intros r Hr. destruct (elem_of_spliced_NoDup _ _ _ Hnd Hr) as [Hne Hr'].
    rewrite !attr_upd, !decide_False by done. by apply Hin.
  - intros r Hr Hnot. rewrite !attr_upd.
    destruct (decide (r = el)) as [-> | Hne].
    + by rewrite !attributes_deselected.
    + apply Hout.
      * by apply elem_of_cons in Hr as [? | ?].
      * intros Hr'. apply Hnot. by apply elem_of_spliced.
Qed.

Lemma clearAllSelections_mirrored_over opts w :
  mirrored_over opts w → mirrored_over opts (final (clearAllSelections_ w)).
Proof.
  intros (Hnd & Hin & Hout).
  destruct (clearAllSelections_spec w) as (w' & -> & Hthis & _ & _ & Hh).
  cbn [final]. unfold mirrored_over, has_attr, attr. rewrite Hthis. cbn.
  split_and!.
  - apply NoDup_nil_2.
  - intros r Hr. by apply not_elem_of_nil in Hr.
  - intros r Hr _. rewrite Hh. case_decide as Hsel.
    + by rewrite !attributes_deselected.
    + by apply Hout.
Qed.

Lemma setSelection_mirrored_over opts el w :
  mirrored_over opts w →
  mirrored_over (el :: opts) (final (setSelection_ el w)).
Proof.
  intros (Hnd & Hin & Hout).
  destruct (setSelection_spec el w) as (w' & -> & Hthis & _ & _ & Hh).
  cbn [final]. unfold mirrored_over, has_attr, attr. rewrite Hthis. cbn.
  unfold selected_after, selected_element, includes in Hh |- *.
  destruct (bool_decide (el ∈ selectedOptions_ (this w))) eqn:Hel.
  { apply bool_decide_eq_true in Hel.
    split_and!; [done | intros r Hr; rewrite Hh; by apply Hin |].
    intros r [-> | Hr]%elem_of_cons Hnot; [done |].
    rewrite Hh. by apply Hout. }
  apply bool_decide_eq_false in Hel.
  split_and!.
  - destruct (isMultiple_ (this w)); simpl; [| apply NoDup_singleton].
    apply NoDup_app. split_and!; [done | | apply NoDup_singleton].
    by intros r Hr ->%list_elem_of_singleton.
  - intros r Hr. rewrite Hh. case_decide as Hre.
    + subst. by rewrite !attributes_marked.
    + destruct (isMultiple_ (this w)); simpl in *.
      * apply elem_of_app in Hr as [Hr | Hr%list_elem_of_singleton]; [| done].
        by apply Hin.
      * by apply list_elem_of_singleton in Hr.
  - intros r Hr Hnot. rewrite Hh. case_decide as Hre.
    { subst. destruct Hnot. apply elem_of_app. right.
      by apply list_elem_of_singleton. }
    apply elem_of_cons in Hr as [? | Hr]; [done |].
    destruct (isMultiple_ (this w)); simpl in *.
    + apply Hout; [done |]. intros Hr'. apply Hnot, elem_of_app. by left.
    + destruct (bool_decide (r ∈ selectedOptions_ (this w))) eqn:Hsel.
      * by rewrite !attributes_deselected.
      * apply bool_decide_eq_false in Hsel. by apply Hout.
Qed.

Lemma keeps_createElement opts : keeps (mirrored_over opts) createElement.
Proof.
  intros w Hw. apply (mirrored_over_ext opts w); [done | | done].
  intros r name _. unfold attr. cbn. by rewrite lookup_total_insert_fresh.
Qed.

(** Every method keeps the markup of a fixed list of elements in step with
    the selection. *)
Section mirror_keeps.
Context (opts : list ref).

Local Ltac write :=
  let w := fresh "w" in
  let Hw := fresh "Hw" in
  let Hn := fresh "Hn" in
  intros w Hw; apply (mirrored_over_ext opts w); [reflexivity | | exact Hw];
  intros ? ? Hn; cbn;
  first [ reflexivity
        | apply attr_upd_tabIndex
        | apply attr_upd_childNodes
        | destruct Hn as [-> | ->]; apply attr_setAttribute_other; done ].

Local Ltac keeps := keeps_with ltac:(write).

Lemma clearSelection_keeps el : keeps (mirrored_over opts) (clearSelection_ el).
Proof.
  intros w Hw. apply (mirrored_over_subseteq opts (el :: opts));
    [intros r Hr; by apply list_elem_of_further |].
  by apply clearSelection_mirrored_over.
Qed.

Lemma setSelection_keeps el : keeps (mirrored_over opts) (setSelection_ el).
Proof.
  intros w Hw. apply (mirrored_over_subseteq opts (el :: opts));
    [intros r Hr; by apply list_elem_of_further |].
  by apply setSelection_mirrored_over.
Qed.

Lemma clearAllSelections_keeps : keeps (mirrored_over opts) clearAllSelections_.
Proof. intros w Hw. by apply clearAllSelections_mirrored_over. Qed.

Local Hint Resolve clearSelection_keeps setSelection_keeps
  clearAllSelections_keeps keeps_createElement : keeps.

Lemma updateFocus_keeps : keeps (mirrored_over opts) updateFocus_.
Proof. unfold updateFocus_. keeps. Qed.
Local Hint Resolve updateFocus_keeps : keeps.

Lemma setInputs_keeps : keeps (mirrored_over opts) setInputs_.
Proof. unfold setInputs_, addInput, removeChild. keeps. Qed.
Local Hint Resolve setInputs_keeps : keeps.

Lemma onOptionPicked_keeps el : keeps (mirrored_over opts) (onOptionPicked_ el).
Proof. unfold onOptionPicked_. keeps. Qed.
Local Hint Resolve onOptionPicked_keeps : keeps.

Lemma selectedAttributeMutated_keeps newValue :
  keeps (mirrored_over opts) (selectedAttributeMutated_ newValue).
Proof. unfold selectedAttributeMutated_. destruct newValue; keeps. Qed.

Lemma dispatch_keeps Keycodes e : keeps (mirrored_over opts) (dispatch Keycodes e).
Proof.
  destruct e as [closest target | keyCode | selected]; simpl.
  - unfold clickHandler_. keeps.
  - unfold keyDownHandler_. keeps.
  - destruct selected as [newValue|]; simpl; [| keeps].
    by apply selectedAttributeMutated_keeps.
Qed.
End mirror_keeps.

Lemma initOption_mirrored opt : keeps mirrored (initOption opt).
Proof.
  intros w Hw. unfold mirrored in Hw.
  unfold initOption. prim.
  set (w0 := with_heap (upd opt (with_attributes <["role":="option"]>)) w).
  set (wa := if has_attr (heap w0) opt "disabled"
             then with_heap
                    (upd opt (with_attributes <["aria-disabled":="true"]>)) w0
             else w0).
  assert (Hrun_a :
    (if has_attr (heap w0) opt "disabled" return M ()
     then λ w1, Return () (with_heap
                    (upd opt (with_attributes <["aria-disabled":="true"]>)) w1)
     else λ w1, Return () w1) w0 = Return () wa).
  { subst wa. by destruct (has_attr (heap w0) opt "disabled"). }
  rewrite Hrun_a. clear Hrun_a. cbn beta iota.
  assert (Hthis_a : this wa = this w).
  { subst wa w0. by destruct (has_attr _ opt "disabled"). }
  assert (Hwa : mirrored_over (options_ (this w)) wa).
  { apply (mirrored_over_ext _ w); [by rewrite Hthis_a | | done].
    intros r name Hn. subst wa w0.
    destruct (has_attr _ opt "disabled"); cbn;
      destruct Hn as [-> | ->]; by rewrite !attr_setAttribute_other. }
  clearbody wa. clear w0.
  set (step := if has_attr (heap wa) opt "selected" return M ()
               then setSelection_ opt else clearSelection_ opt).
  assert (Hstep : ∃ w1, step wa = Return () w1 ∧
            options_ (this w1) = options_ (this w) ∧
            mirrored_over (opt :: options_ (this w)) w1).
  { subst step. destruct (has_attr (heap wa) opt "selected").
    - pose proof (setSelection_mirrored_over _ opt wa Hwa) as Hm.
      destruct (setSelection_spec opt wa) as (w1 & Hrun & Hthis & _).
      rewrite Hrun in Hm. exists w1. split_and!; [done | | done].
      by rewrite Hthis, Hthis_a.
    - pose proof (clearSelection_mirrored_over _ opt wa Hwa) as Hm.
      rewrite clearSelection_run in Hm |- *. eexists. split; [reflexivity |].
      split; [| done]. cbn. by rewrite Hthis_a. }
  destruct Hstep as (w1 & Hrun1 & Ho1 & Hm1).
  change ((if has_attr (heap wa) opt "selected"
           then setSelection_ opt else clearSelection_ opt) wa)
    with (step wa).
  rewrite Hrun1. cbn. unfold mirrored. cbn. rewrite Ho1.
  apply (mirrored_over_subseteq _ (opt :: options_ (this w))).
  { intros r [Hr | ->%list_elem_of_singleton]%elem_of_app;
      [by apply list_elem_of_further | apply list_elem_of_here]. }
  apply (mirrored_over_ext _ w1); [done | | done].
  intros r name _. cbn. apply attr_upd_tabIndex.
Qed.

Lemma init_mirrored queried : keeps mirrored (init_ queried).
Proof.
  assert (Hfocus : keeps mirrored updateFocus_).
  { intros w Hw. unfold mirrored.
    pose proof (updateFocus_config w) as Hcfg. injection Hcfg as _ _ _ _ _ -> _.
    by apply updateFocus_keeps. }
  assert (Hinputs : keeps mirrored setInputs_).
  { intros w Hw. unfold mirrored.
    pose proof (setInputs_config w) as Hcfg. injection Hcfg as _ _ _ _ _ -> _.
    by apply setInputs_keeps. }
  unfold init_.
  apply keeps_bind; [apply keeps_forEach, initOption_mirrored | intros _].
  apply keeps_bind; [done | intros _].
  apply keeps_bind; [done | intros _]. apply keeps_ret.
Qed.

Lemma buildCallback_mirrored queried h b host trace :
  mirrored (final (buildCallback queried (constructed h b host trace))).
Proof.
  assert (Hbuild : keeps mirrored (buildCallback queried)).
  { pose proof (init_mirrored queried).
    unfold buildCallback.
    keeps_with ltac:(
      let w := fresh "w" in
      let Hw := fresh "Hw" in
      let Hn := fresh "Hn" in
      intros w Hw; unfold mirrored;
      apply (mirrored_over_ext (options_ (this w)) w);
        [reflexivity | | exact Hw];
      intros ? ? Hn; cbn;
      first [ reflexivity
            | destruct Hn as [-> | ->]; apply attr_setAttribute_other; done ]). }
  apply Hbuild. unfold mirrored, mirrored_over. cbn. split_and!.
  - apply NoDup_nil_2.
  - intros r Hr. by apply not_elem_of_nil in Hr.
  - intros r Hr. by apply not_elem_of_nil in Hr.
Qed.

Lemma after_events_mirrored Keycodes events w :
  mirrored w → mirrored (after_events Keycodes events w).
Proof.
  revert w. induction events as [|e events IH]; intros w Hw; [done |].
  simpl. apply IH. unfold mirrored.
  pose proof (dispatch_config Keycodes e w) as Hcfg.
  injection Hcfg as _ _ _ _ _ -> _.
  by apply dispatch_keeps.
Qed.

(** [X11]: the markup of the options mirrors the selection at every moment
    of a widget's life.  After [buildCallback], whether it returned or threw,
    and after any clicks, key presses and external mutations, whether their
    handlers returned or threw: the selected elements are distinct and each
    carries the [selected] marker and [aria-selected="true"]; every option
    that is not selected carries no [selected] marker and
    [aria-selected="false"]. *)
Theorem markup_mirrors_selection Keycodes queried h b host trace events :
  mirrored
    (after_events Keycodes events
       (final (buildCallback queried (constructed h b host trace)))).
Proof. apply after_events_mirrored, buildCallback_mirrored. Qed.

(** ** Roving tab index *)

Lemma roving_ext w w' :
  options_ (this w') = options_ (this w) →
  kbSelectMode_ (this w') = kbSelectMode_ (this w) →
  focusedIndex_ (this w') = focusedIndex_ (this w) →
  (∀ r, tabIndex (heap w' !!! r) = tabIndex (heap w !!! r)) →
  roving w → roving w'.
Proof.
  intros Ho Hm Hf Ht [Hnd Hr]. unfold roving. rewrite Ho, Hm, Hf.
  split; [done |]. intros Hmode i r Hi. rewrite Ht. by apply Hr.
Qed.

Lemma tabIndex_upd_attributes el g (h : gmap ref Element) r :
  tabIndex (upd el (with_attributes g) h !!! r) = tabIndex (h !!! r).
Proof. rewrite lookup_total_upd. case_decide; by subst. Qed.

Lemma tabIndex_upd_childNodes el g (h : gmap ref Element) r :
  tabIndex (upd el (with_childNodes g) h !!! r) = tabIndex (h !!! r).
Proof. rewrite lookup_total_upd. case_decide; by subst. Qed.

Lemma forEach_setTabIndex_all opts i w :
  ∃ w', forEach opts (λ opt, setTabIndex opt i) w = Return () w' ∧
    this w' = this w ∧
    ∀ r, tabIndex (heap w' !!! r) =
         if decide (r ∈ opts) then i else tabIndex (heap w !!! r).
Proof.
  revert w. induction opts as [|o opts IH]; intros w.
  - exists w. by split_and!.
  - simpl. prim.
    destruct (IH (with_heap (upd o (with_tabIndex i)) w))
      as (w' & Hrun & Hthis & Hh).
    exists w'. split_and!; try done.
    intros r. rewrite Hh. cbn. rewrite lookup_total_upd.
    destruct (decide (r ∈ opts)) as [Hr | Hr].
    + rewrite decide_True; [done | by apply list_elem_of_further].
    + destruct (decide (r = o)) as [-> | Hne].
      * rewrite decide_True; [done | apply list_elem_of_here].
      * rewrite decide_False; [done |].
        by intros [? | ?]%elem_of_cons.
Qed.

(** [updateFocus_] puts the tab order right, whatever it was. *)
Lemma updateFocus_roving w :
  NoDup (options_ (this w)) → roving (final (updateFocus_ w)).
Proof.
  intros Hnd. unfold updateFocus_. mrun.
  destruct (decide (kbSelectMode_ (this w) = NONE)) as [Hmode|Hmode].
  { by split. }
  destruct (forEach_setTabIndex_all (options_ (this w)) (-1) w)
    as (w1 & Hrun & Hthis & Hh).
  rewrite Hrun, Hthis.
  set (tgt := if isMultiple_ (this w) then _ else _).
  assert (Hnone : tgt = None → options_ (this w) = []).
  { subst tgt. unfold at_index. cbn.
    destruct (isMultiple_ (this w)), (selectedOptions_ (this w)),
      (options_ (this w)); by cbn. }
  destruct tgt as [el|].
  - cbn. unfold roving. cbn. rewrite Hthis. cbn. split; [done |].
    intros _ i r Hi. rewrite lookup_total_upd.
    destruct (decide (r = el)) as [-> | Hne].
    + cbn. by rewrite (indexOf_lookup _ _ _ Hnd Hi), decide_True.
    + rewrite Hh, decide_True by (by eapply list_elem_of_lookup_2).
      rewrite decide_False; [done |].
      unfold indexOf. destruct (index_of _ el) as [j|] eqn:Hj; [| lia].
      intros Heq. apply Nat2Z.inj in Heq. subst j.
      apply index_of_Some in Hj as [Hj _]. congruence.
  - cbn. unfold roving. rewrite Hthis, Hnone by done.
    split; [apply NoDup_nil_2 | done].
Qed.

Lemma keeps_createElement_roving : keeps roving createElement.
Proof.
  intros w Hw. apply (roving_ext w); [done.. | | done].
  intros r. cbn. by rewrite lookup_total_insert_fresh.
Qed.

Section roving_keeps.
Local Ltac write :=
  let w := fresh "w" in
  let Hw := fresh "Hw" in
  intros w Hw; apply (roving_ext w); [reflexivity.. | | exact Hw];
  intros ?; cbn;
  first [ reflexivity
        | apply tabIndex_upd_attributes
        | apply tabIndex_upd_childNodes ].

Local Ltac keeps := keeps_with ltac:(write).

Lemma clearSelection_roving el : keeps roving (clearSelection_ el).
Proof. unfold clearSelection_. keeps. Qed.
Local Hint Resolve clearSelection_roving keeps_createElement_roving : keeps.

Lemma clearAllSelections_roving : keeps roving clearAllSelections_.
Proof.
  unfold clearAllSelections_. keeps.
  induction (length a) as [|n IH]; simpl; [keeps |].
  unfold pop_selectedOptions. keeps.
Qed.
Local Hint Resolve clearAllSelections_roving : keeps.

Lemma setSelection_roving el : keeps roving (setSelection_ el).
Proof. unfold setSelection_. keeps. Qed.
Local Hint Resolve setSelection_roving : keeps.

Lemma setInputs_roving : keeps roving setInputs_.
Proof. unfold setInputs_, addInput, removeChild. keeps. Qed.
Local Hint Resolve setInputs_roving : keeps.

Lemma updateFocus_keeps_roving : keeps roving updateFocus_.
Proof. intros w [Hnd _]. by apply updateFocus_roving. Qed.
Local Hint Resolve updateFocus_keeps_roving : keeps.

Lemma onOptionPicked_roving el : keeps roving (onOptionPicked_ el).
Proof. unfold onOptionPicked_. keeps. Qed.
Local Hint Resolve onOptionPicked_roving : keeps.

Lemma selectedAttributeMutated_roving newValue :
  keeps roving (selectedAttributeMutated_ newValue).
Proof. unfold selectedAttributeMutated_. destruct newValue; keeps. Qed.

Lemma focus_moved_roving w old new :
  let n := Z.of_nat (length (options_ (this w))) in
  ∀ index,
  at_index (options_ (this w)) (focusedIndex_ (this w)) = Some old →
  at_index (options_ (this w)) index = Some new →
  roving w → roving (focus_moved w old new index).
Proof.
  intros n index Hold Hnew [Hnd Hr]. unfold roving. cbn. split; [done |].
  intros Hmode i r Hi.
  pose proof (at_index_Some _ _ _ Hold) as Hfi.
  pose proof (at_index_Some _ _ _ Hnew) as Hin.
  unfold at_index in Hold, Hnew.
  rewrite decide_False in Hold by lia. rewrite decide_False in Hnew by lia.
  assert (Hi_new : index = Z.of_nat i ↔ r = new).
  { split.
    - intros ->. rewrite Nat2Z.id in Hnew. congruence.
    - intros ->. pose proof (NoDup_lookup _ _ _ _ Hnd Hi Hnew). lia. }
  assert (Hi_old : focusedIndex_ (this w) = Z.of_nat i ↔ r = old).
  { split.
    - intros Heq. rewrite Heq, Nat2Z.id in Hold. congruence.
    - intros ->. pose proof (NoDup_lookup _ _ _ _ Hnd Hi Hold). lia. }
  rewrite lookup_total_upd.
  destruct (decide (r = new)) as [-> | Hne].
  { cbn. by rewrite decide_True by by apply Hi_new. }
  rewrite (decide_False (P := index = Z.of_nat i)) by by rewrite Hi_new.
  rewrite lookup_total_upd.
  destruct (decide (r = old)) as [-> | Hne']; [done |].
  rewrite (Hr Hmode i r Hi).
  by rewrite decide_False by by rewrite Hi_old.
Qed.

Lemma keyDownHandler_roving Keycodes keyCode :
  keeps roving (keyDownHandler_ Keycodes keyCode).
Proof.
  intros w Hw.
  destruct (decide (direction Keycodes (isLtr w) keyCode = 0)) as [Hd | Hd].
  { unfold keyDownHandler_. prim. fold (isLtr w). by rewrite decide_True. }
  destruct (at_index (options_ (this w)) (focusedIndex_ (this w)))
    as [old|] eqn:Hold.
  - destruct (keyDownHandler_run Keycodes keyCode w old Hd Hold)
      as (new & Hnew & ->).
    pose proof (focus_moved_roving w old new _ Hold Hnew Hw) as Hmoved.
    case_decide; [by apply onOptionPicked_roving | done].
  - by rewrite keyDownHandler_stray.
Qed.

Lemma dispatch_roving Keycodes e : keeps roving (dispatch Keycodes e).
Proof.
  destruct e as [closest target | keyCode | selected]; simpl.
  - unfold clickHandler_. keeps.
  - apply keyDownHandler_roving.
  - destruct selected as [newValue|]; simpl; [| keeps].
    by apply selectedAttributeMutated_roving.
Qed.
End roving_keeps.

Lemma after_events_roving Keycodes events w :
  roving w → roving (after_events Keycodes events w).
Proof.
  revert w. induction events as [|e events IH]; intros w Hw; [done |].
  simpl. by apply IH, dispatch_roving.
Qed.

Lemma forEach_initOption_options l w :
  ∃ w', forEach l initOption w = Return () w' ∧
    options_ (this w') = options_ (this w) ++ l.
Proof.
  revert w. induction l as [|opt l IH]; intros w.
  - exists w. by rewrite app_nil_r.
  - destruct (initOption_spec opt w) as (w1 & Hrun1 & Hthis1 & _).
    destruct (IH w1) as (w2 & Hrun2 & Ho2).
    exists w2. simpl. rewrite (bind_Return _ _ _ _ _ Hrun1).
    split; [done |]. rewrite Ho2, Hthis1. cbn.
    by rewrite <- (assoc_L (++)).
Qed.

Lemma init_roving queried w :
  NoDup (options_ (this w) ++ queried) → roving (final (init_ queried w)).
Proof.
  intros Hnd.
  destruct (forEach_initOption_options queried w) as (w1 & Hrun1 & Ho1).
  rewrite <- Ho1 in Hnd.
  pose proof (updateFocus_roving w1 Hnd) as Hr2.
  unfold init_. rewrite final_bind, Hrun1, final_bind.
  destruct (updateFocus_ w1) as [[] w2|e w2]; cbn in Hr2; [| done].
  rewrite final_bind.
  pose proof (setInputs_roving w2 Hr2) as Hr3.
  by destruct (setInputs_ w2).
Qed.

Lemma buildCallback_roving queried h b host trace :
  NoDup queried →
  roving (final (buildCallback queried (constructed h b host trace))).
Proof.
  intros Hnd.
  assert (Hempty : ∀ w, options_ (this w) = [] → roving w).
  { intros w Hw. unfold roving. rewrite Hw.
    split; [apply NoDup_nil_2 | done]. }
  destruct (buildCallback_prefix queried h b host trace) as (h1 & -> & _).
  destruct (parse_mode (requested_mode h host)) as [mode|];
    [| by apply Hempty].
  rewrite final_bind. unfold assert.
  destruct (negb _); [| by apply Hempty]. cbn.
  rewrite final_bind. cbn.
  set (w2 := with_this _ _).
  pose proof (init_roving queried w2 Hnd) as Hr.
  rewrite final_bind.
  destruct (init_ queried w2) as [[] w3|e w3]; cbn in Hr; [| done].
  destruct (negb _); [| done].
  rewrite final_bind. cbn.
  by destruct (decide (mode ≠ NONE)).
Qed.

(** [X12]: a widget built over the distinct elements [querySelectorAll]
    returns keeps a roving tab index through its whole life.  After
    [buildCallback], whether it returned or threw, and after any clicks, key
    presses and external mutations, whether their handlers returned or
    threw: when the widget manages focus, the option at [focusedIndex_] has
    tab index 0 and every other option has tab index -1, so that at most one
    option is in the tab order. *)
Theorem tab_index_roves Keycodes queried h b host trace events :
  NoDup queried →
  roving
    (after_events Keycodes events
       (final (buildCallback queried (constructed h b host trace)))).
Proof. intros Hnd. by apply after_events_roving, buildCallback_roving. Qed.

Lemma tab_index_roves_witness :
  roving
    (after_events arrowKeycodes
       [KeyDown 40; Click (λ _, None) (Some optX); KeyDown 37;
        AttributesMutated (Some (JsScalar "Z"))]
       (final (buildCallback [optX; optY; optZ]
                 (constructed
                    (heap (sampleDocument
                             [("name", "color");
                              ("keyboard-select-mode", "focus")]
                             [("option", "X")]
                             [("option", "Y"); ("selected", "")]
                             [("option", "Z")]))
                    bodyEl hostEl [])))).
Proof.
  apply (tab_index_roves arrowKeycodes [optX; optY; optZ]).
  apply (bool_decide_unpack (NoDup [optX; optY; optZ])). vm_compute. exact I.
Defined.

(** ** Handlers on a built widget *)

(** [X13]: on a widget built over the distinct elements [querySelectorAll]
    returns, and after any clicks, key presses and external mutations, the
    widget is consistent, and neither the click handler nor the mutation
    callback throws: Form Sync never asks the host to remove an input that is
    not its child, and the action service is always there to trigger. *)
Theorem built_widget_handlers_return
    Keycodes queried h b host trace w0 events :
  let w := after_events Keycodes events w0 in
  NoDup queried →
  buildCallback queried (constructed h b host trace) = Return () w0 →
  consistent w ∧
  (∀ closestBySelector target,
     ∃ w', clickHandler_ closestBySelector target w = Return () w') ∧
  (∀ selected, ∃ w', mutatedAttributesCallback selected w = Return () w').
Proof.
  intros w Hnd Hbuild.
  assert (Hc : consistent w)
    by (by eapply after_events_consistent, buildCallback_consistent).
  split_and!; [done | |].
  - intros closest target.
    destruct (clickHandler_consistent closest target w Hc) as (w' & Hrun & _).
    by exists w'.
  - intros [newValue|]; [| by exists w]. simpl.
    destruct (selectedAttributeMutated_consistent newValue w Hc)
      as (w' & Hrun & _).
    by exists w'.
Qed.

Lemma built_widget_handlers_return_witness :
  let w := after_events arrowKeycodes
             [Click (λ _, None) (Some optZ); KeyDown 39]
             sampleFocusMode in
  consistent w ∧
  (∀ closestBySelector target,
     ∃ w', clickHandler_ closestBySelector target w = Return () w') ∧
  (∀ selected, ∃ w', mutatedAttributesCallback selected w = Return () w').
Proof.
  apply (built_widget_handlers_return arrowKeycodes [optX; optY; optZ]
           (heap (sampleDocument
                    [("name", "color"); ("keyboard-select-mode", "focus")]
                    [("option", "X")] [("option", "Y"); ("selected", "")]
                    [("option", "Z")]))
           bodyEl hostEl []).
  - apply (bool_decide_unpack (NoDup [optX; optY; optZ])). vm_compute. exact I.
  - vm_compute. reflexivity.
Defined.

(** [X14]: two navigation keys of opposite directions are a round trip of
    the cursor: with the cursor on an option, both handlers return and
    [focusedIndex_] is back where it was, also across the ends of the list. *)
Theorem keyDownHandler_there_and_back Keycodes there back w :
  let n := Z.of_nat (length (options_ (this w))) in
  let dir := direction Keycodes (isLtr w) there in
  dir ≠ 0 →
  direction Keycodes (isLtr w) back = - dir →
  0 ≤ focusedIndex_ (this w) < n →
  select_ready w →
  ∃ w1 w2,
    keyDownHandler_ Keycodes there w = Return () w1 ∧
    keyDownHandler_ Keycodes back w1 = Return () w2 ∧
    focusedIndex_ (this w2) = focusedIndex_ (this w).
Proof.
  intros n dir Hdir Hback Hfi Hready.
  assert (Hd : dir = 1 ∨ dir = -1).
  { destruct (direction_cases Keycodes (isLtr w) there) as [? | ?];
      [done | by fold dir]. }
  destruct (keyDownHandler_step Keycodes there w Hd Hfi Hready)
    as (w1 & Hrun1 & Hfi1 & Ho1 & Hltr1 & Hready1 & _).
  fold n dir in Hfi1.
  destruct (keyDownHandler_step Keycodes back w1)
    as (w2 & Hrun2 & Hfi2 & _).
  { rewrite Hltr1, Hback. lia. }
  { rewrite Ho1, Hfi1. fold n. apply Z.mod_pos_bound. lia. }
  { done. }
  exists w1, w2. split_and!; [done | done |].
  rewrite Hfi2, Hltr1, Hback, Ho1, Hfi1. fold n.
  rewrite Zplus_mod_idemp_l.
  replace (focusedIndex_ (this w) + dir + - dir) with (focusedIndex_ (this w))
    by lia.
  apply Z.mod_small. lia.
Qed.

Lemma keyDownHandler_there_and_back_witness :
  ∃ w1 w2,
    keyDownHandler_ arrowKeycodes 38 sampleSelectMode = Return () w1 ∧
    keyDownHandler_ arrowKeycodes 39 w1 = Return () w2 ∧
    focusedIndex_ (this w2) = focusedIndex_ (this sampleSelectMode).
Proof.
  apply (keyDownHandler_there_and_back arrowKeycodes 38 39 sampleSelectMode).
  - vm_compute. discriminate.
  - vm_compute. reflexivity.
  - vm_compute. split; [discriminate | reflexivity].
  - apply consistent_select_ready, consistentb_sound. vm_compute. reflexivity.
Defined.

(** ** [init_] on a multi-select widget *)

Lemma spliced_not_elem sel el : el ∉ sel → spliced sel el = sel.
Proof.
  intros Hel. unfold spliced.
  by rewrite (proj2 (index_of_None _ _) Hel).
Qed.

Lemma forEach_initOption_multiple h0 queried done w :
  NoDup (done ++ queried) →
  isMultiple_ (this w) = true →
  selectedOptions_ (this w) = marked_in h0 done →
  (∀ r, has_attr (heap w) r "selected" = has_attr h0 r "selected") →
  ∃ w', forEach queried initOption w = Return () w' ∧
    this w' = with_options (options_ (this w) ++ queried)
                (with_selectedOptions (marked_in h0 (done ++ queried))
                   (this w)) ∧
    (∀ r, has_attr (heap w') r "selected" = has_attr h0 r "selected") ∧
    (∀ r, childNodes (heap w' !!! r) = childNodes (heap w !!! r)).
Proof.
  revert done w. induction queried as [|opt queried IH];
    intros done w Hnd Hm Hsel Hmark.
  - exists w. rewrite !app_nil_r. split_and!; try done.
    rewrite <- Hsel. by destruct (this w).
  - destruct (initOption_spec opt w)
      as (w1 & Hrun & Hthis & _ & _ & Hmark1 & Hkids1 & _).
    simpl. rewrite (bind_Return _ _ _ _ _ Hrun).
    assert (Hopt : opt ∉ selectedOptions_ (this w)).
    { rewrite Hsel. intros [_ Hin]%list_elem_of_filter.
      apply NoDup_app in Hnd as (_ & Hdis & _).
      apply (Hdis _ Hin), list_elem_of_here. }
    assert (Hsel1 : selection_after_init w opt = marked_in h0 (done ++ [opt])).
    { unfold selection_after_init, marked_in.
      rewrite filter_app, filter_cons, filter_nil, <- (Hmark opt).
      fold (marked_in h0 done). rewrite <- Hsel.
      destruct (has_attr (heap w) opt "selected").
      - rewrite decide_True by done.
        unfold selected_after, includes.
        by rewrite bool_decide_eq_false_2, Hm.
      - rewrite decide_False by done.
        by rewrite spliced_not_elem, app_nil_r. }
    destruct (IH (done ++ [opt]) w1) as (w' & Hrun' & Hthis' & Hmark' & Hkids').
    { by rewrite <- (assoc_L (++)). }
    { rewrite Hthis. by cbn. }
    { rewrite Hthis. cbn. exact Hsel1. }
    { intros r. rewrite Hmark1. unfold marker_after_init, includes.
      destruct (has_attr (heap w) opt "selected") eqn:Ho.
      - rewrite bool_decide_eq_false_2 by done.
        case_decide as Hr; [subst; by rewrite <- Hmark |].
        rewrite Hm. cbn. apply Hmark.
      - case_decide as Hr; [subst; by rewrite <- Hmark | apply Hmark]. }
    exists w'. split; [done |]. rewrite Hthis', Hthis. cbn.
    rewrite <- !(assoc_L (++)). split_and!; try done.
    intros r. by rewrite Hkids', Hkids1.
Qed.

(** [X15]: [init_], run on a multi-select widget that has no selection and
    no inputs yet (as [buildCallback] runs it), over distinct options: it
    returns with exactly the options that carry the [selected] marker
    selected, in document order; the options found are appended to
    [options_]; and no element gains or loses the marker. *)
Theorem init_multiple_keeps_marked w queried :
  isMultiple_ (this w) = true →
  selectedOptions_ (this w) = [] →
  inputs_ (this w) = [] →
  NoDup queried →
  ∃ w', init_ queried w = Return () w' ∧
    selectedOptions_ (this w') = marked_in (heap w) queried ∧
    options_ (this w') = options_ (this w) ++ queried ∧
    ∀ r, has_attr (heap w') r "selected" = has_attr (heap w) r "selected".
Proof.
  intros Hm Hsel Hin Hnd.
  destruct (forEach_initOption_multiple (heap w) queried [] w)
    as (w1 & Hrun1 & Hthis1 & Hmark1 & _); try done.
  simpl in Hthis1.
  destruct (updateFocus_spec w1) as (w2 & Hrun2 & Hthis2 & _ & _ & Hsame).
  destruct (setInputs_frame w2)
    as (values & w3 & Hrun3 & Hthis3 & _ & _ & _ & _ & Hattr3).
  { rewrite Hthis2, Hthis1. cbn. rewrite Hin. apply NoDup_nil_2. }
  { rewrite Hthis2, Hthis1. cbn. rewrite Hin.
    intros i Hi. by apply not_elem_of_nil in Hi. }
  exists w3. unfold init_.
  rewrite (bind_Return _ _ _ _ _ Hrun1), (bind_Return _ _ _ _ _ Hrun2),
    (bind_Return _ _ _ _ _ Hrun3).
  split; [done |]. rewrite Hthis3, Hthis2, Hthis1. cbn.
  split_and!; try done.
  intros r. unfold has_attr.
  rewrite Hattr3 by apply not_input_attribute_selected.
  rewrite (same_markup_attr _ _ _ _ Hsame). apply Hmark1.
Qed.

Lemma init_multiple_keeps_marked_witness :
  let w := with_this (with_isMultiple true) sampleAllMarked in
  ∃ w', init_ [optX; optY; optZ] w = Return () w' ∧
    selectedOptions_ (this w') = marked_in (heap w) [optX; optY; optZ] ∧
    options_ (this w') = options_ (this w) ++ [optX; optY; optZ] ∧
    ∀ r, has_attr (heap w') r "selected" = has_attr (heap w) r "selected".
Proof.
  apply init_multiple_keeps_marked; try (vm_compute; reflexivity).
  apply (bool_decide_unpack (NoDup [optX; optY; optZ])). vm_compute. exact I.
Defined.

(** ** Selection pushed from outside *)

Lemma selectedMap_lookup (values : list string) (m : gmap string bool) k :
  foldl (λ map value, <[value := true]> map) m values !! k = Some true ↔
  k ∈ values ∨ m !! k = Some true.
Proof.
  revert m. induction values as [|v values IH]; intros m; simpl.
  - split; [by right | by intros [?%not_elem_of_nil | ?]].
  - rewrite IH, elem_of_cons. destruct (decide (k = v)) as [-> | Hne].
    + rewrite lookup_insert_eq. split; [by intros _; left; left |].
      intros _. by right.
    + rewrite lookup_insert_ne by done. tauto.
Qed.

Lemma elem_of_externally_selected_multiple keep opts sel r :
  NoDup opts → NoDup sel →
  r ∈ externally_selected true keep opts sel ↔
  (r ∈ opts ∧ keep r = true) ∨ ((r ∉ opts) ∧ r ∈ sel).
Proof.
  unfold externally_selected.
  revert sel. induction opts as [|el opts IH]; intros sel Hnd Hsel; simpl.
  - split; [intros Hr; right; split; [apply not_elem_of_nil | done] |].
    by intros [[?%not_elem_of_nil _] | [_ ?]].
  - apply NoDup_cons in Hnd as [Hel Hnd].
    rewrite IH, elem_of_cons; [| done |].
    2: { destruct (keep el);
           [by apply NoDup_selected_after | by apply NoDup_spliced]. }
    destruct (decide (r = el)) as [-> | Hne].
    + destruct (keep el) eqn:Hk.
      * assert (Hin : el ∈ selected_after true sel el).
        { unfold selected_after, includes. case_bool_decide; [done |].
          apply elem_of_app. right. apply list_elem_of_here. }
        tauto.
      * assert (Hout : el ∉ spliced sel el).
        { intros Hr. by apply elem_of_spliced_NoDup in Hr as [? _]. }
        split.
        -- intros [[? _] | [_ ?]]; done.
        -- intros [[_ ?] | [Hn _]]; [congruence | destruct Hn; by left].
    + assert (Hstep : r ∈ (if keep el then selected_after true sel el
                            else spliced sel el) ↔ r ∈ sel).
      { destruct (keep el); [| by apply elem_of_spliced].
        unfold selected_after, includes. case_bool_decide; [done |].
        rewrite elem_of_app, list_elem_of_singleton. tauto. }
      rewrite Hstep. tauto.
Qed.

Lemma externally_selected_single keep opts sel :
  NoDup opts → (length sel ≤ 1)%nat →
  externally_selected false keep opts sel =
  match last (filter (λ r, keep r = true) opts) with
  | Some l => [l]
  | None => filter (λ r, r ∉ opts) sel
  end.
Proof.
  unfold externally_selected.
  revert sel. induction opts as [|el opts IH]; intros sel Hnd Hlen; simpl.
  - induction sel as [|x sel IHsel]; [done |].
    rewrite filter_cons_True by apply not_elem_of_nil.
    f_equal. apply IHsel. simpl in Hlen. lia.
  - apply NoDup_cons in Hnd as [Hel Hnd].
    rewrite IH; [| done |].
    2: { destruct (keep el);
           [by apply length_selected_after | by apply spliced_single]. }
    rewrite filter_cons. destruct (keep el) eqn:Hk.
    + rewrite decide_True by done.
      destruct (filter _ opts) as [|x l] eqn:Hf; simpl.
      * rewrite selected_after_single by done.
        rewrite filter_cons, decide_True by done. by rewrite filter_nil.
      * destruct (last (x :: l)) eqn:Hlast; [done |].
        by apply last_None in Hlast.
    + rewrite decide_False by done.
      destruct (last (filter _ opts)); [done |].
      destruct sel as [|x [|y sel]]; [done | | simpl in Hlen; lia].
      unfold spliced. simpl. destruct (decide (x = el)) as [-> | Hne]; simpl.
      * rewrite filter_nil, filter_cons, decide_False, filter_nil; [done |].
        intros H. apply H, list_elem_of_here.
      * rewrite !filter_cons, !filter_nil.
        destruct (decide (x ∈ opts)) as [Hx | Hx].
        -- rewrite !decide_False; [done | |]; intros H; apply H;
             [by apply list_elem_of_further | done].
        -- rewrite !decide_True; [done | | done].
           by intros [? | ?]%elem_of_cons.
Qed.

Lemma external_loop values h0 opts w :
  (∀ r, attr (heap w) r "option" = attr h0 r "option") →
  ∃ w',
    forEach opts (λ el,
      value ← getAttribute el "option";
      if bool_decide
           (foldl (λ map value, <[value := true]> map) (∅ : gmap string bool)
              values !! to_string value = Some true)
      then setSelection_ el
      else clearSelection_ el) w = Return () w' ∧
    this w' =
      with_selectedOptions
        (externally_selected (isMultiple_ (this w)) (pushed values h0) opts
           (selectedOptions_ (this w))) (this w) ∧
    (∀ r, attr (heap w') r "option" = attr h0 r "option").
Proof.
  unfold externally_selected.
  revert w. induction opts as [|el opts IH]; intros w Hattr.
  - exists w. split_and!; try done. by destruct (this w).
  - simpl. unfold getAttribute. mrun.
    assert (Hkeep :
      bool_decide
        (foldl (λ map value, <[value := true]> map) (∅ : gmap string bool)
           values !! to_string (attr (heap w) el "option") = Some true) =
      pushed values h0 el).
    { unfold pushed. rewrite Hattr. apply bool_decide_ext.
      rewrite selectedMap_lookup, lookup_empty. split; [| by left].
      by intros [? | ?]. }
    rewrite Hkeep.
    assert (Hstep : ∃ w1,
      (if pushed values h0 el return M ()
       then setSelection_ el else clearSelection_ el) w = Return () w1 ∧
      this w1 = with_selectedOptions
                  (if pushed values h0 el
                   then selected_after (isMultiple_ (this w))
                          (selectedOptions_ (this w)) el
                   else spliced (selectedOptions_ (this w)) el) (this w) ∧
      ∀ r, attr (heap w1) r "option" = attr h0 r "option").
    { destruct (pushed values h0 el).
      - destruct (setSelection_spec el w) as (w1 & Hrun & Hthis & _ & _ & Hh).
        exists w1. split_and!; try done.
        intros r. unfold attr at 1. rewrite Hh, selected_element_attr by done.
        apply Hattr.
      - rewrite clearSelection_run. eexists. split_and!; try done.
        intros r. cbn. rewrite attr_upd.
        destruct (decide (r = el)) as [-> | Hr]; [| apply Hattr].
        rewrite attributes_deselected, !decide_False by done.
        apply Hattr. }
    destruct Hstep as (w1 & Hrun1 & Hthis1 & Hattr1).
    destruct (IH w1 Hattr1) as (w' & Hrun & Hthis & Hattr').
    exists w'.
    change ((if pushed values h0 el then setSelection_ el
             else clearSelection_ el) w)
      with ((if pushed values h0 el return M ()
             then setSelection_ el else clearSelection_ el) w).
    rewrite Hrun1. split_and!; [done | | done].
    rewrite Hthis, Hthis1. cbn. by destruct (pushed values h0 el).
Qed.

(** [selectedAttributeMutated_] with a value that is not [null]. *)
Lemma selectedAttributeMutated_run newValue w :
  let multiple := isMultiple_ (this w) in
  let selected :=
    externally_selected multiple
      (pushed (pushed_values multiple newValue) (heap w))
      (options_ (this w)) (selectedOptions_ (this w)) in
  consistent w →
  newValue ≠ JsNull →
  ∃ w', selectedAttributeMutated_ newValue w = Return () w' ∧
    selectedOptions_ (this w') = selected ∧
    focusedIndex_ (this w') =
      focus_after (with_selectedOptions selected (this w)).
Proof.
  intros multiple selected Hc Hnull.
  destruct (selectedAttributeMutated_consistent newValue w Hc)
    as (w' & Hrun & _).
  exists w'. split; [done |].
  destruct (external_loop (pushed_values multiple newValue) (heap w)
              (options_ (this w)) w) as (w1 & Hrun1 & Hthis1 & _); [done |].
  fold multiple selected in Hthis1.
  destruct (updateFocus_spec w1) as (w2 & Hrun2 & Hthis2 & _).
  assert (Hloop :
    selectedAttributeMutated_ newValue w =
    match setInputs_ w2 with
    | Return _ w3 => Return () w3
    | Throw e w3 => Throw e w3
    end).
  { unfold pushed_values in Hrun1. subst multiple.
    unfold mbind, M_bind in Hrun1.
    destruct newValue as [|key|keys]; [done | |];
      unfold selectedAttributeMutated_; mrun; cbn zeta;
      destruct (isMultiple_ (this w)); cbn [negb];
      rewrite Hrun1, Hrun2; by destruct (setInputs_ w2). }
  rewrite Hloop in Hrun.
  pose proof (setInputs_unchanged
                (λ w, (selectedOptions_ (this w), focusedIndex_ (this w)))
                (λ _ _, eq_refl) (λ _ _, eq_refl) w2) as Hframe.
  destruct (setInputs_ w2) as [values w3|e w3]; [| done].
  injection Hrun as <-. cbn in Hframe. injection Hframe as -> ->.
  rewrite Hthis2, Hthis1. cbn. split; [done |].
  unfold focus_after, initialFocusedElement. by cbn.
Qed.

(** [X16]: a value other than [null] pushed to the [selected] attribute of a
    consistent multi-select widget: the callback returns, and afterwards an
    option is selected exactly when its value (as a string) is the value
    pushed, or one of the values of the array pushed; a selected element that
    is not one of the options stays selected. *)
Theorem selectedAttributeMutated_multiple newValue w :
  let values := pushed_values true newValue in
  consistent w →
  isMultiple_ (this w) = true →
  newValue ≠ JsNull →
  ∃ w', selectedAttributeMutated_ newValue w = Return () w' ∧
    (∀ r, r ∈ options_ (this w) →
       r ∈ selectedOptions_ (this w') ↔
       to_string (attr (heap w) r "option") ∈ values) ∧
    (∀ r, r ∉ options_ (this w) →
       r ∈ selectedOptions_ (this w') ↔ r ∈ selectedOptions_ (this w)).
Proof.
  intros values Hc Hm Hnull.
  destruct (selectedAttributeMutated_run newValue w Hc Hnull)
    as (w' & Hrun & Hsel & _).
  rewrite Hm in Hsel. fold values in Hsel.
  destruct Hc as (Hnd & _ & _ & _ & _ & _ & Hnds & _).
  exists w'. split; [done |]. rewrite Hsel.
  split; intros r Hr;
    rewrite elem_of_externally_selected_multiple by done;
    unfold pushed; rewrite bool_decide_eq_true; tauto.
Qed.

Lemma selectedAttributeMutated_multiple_witness :
  ∃ w', selectedAttributeMutated_ (JsArray ["Z"; "X"]) sampleMultiple =
          Return () w' ∧
    (∀ r, r ∈ options_ (this sampleMultiple) →
       r ∈ selectedOptions_ (this w') ↔
       to_string (attr (heap sampleMultiple) r "option") ∈ ["Z"; "X"]) ∧
    (∀ r, r ∉ options_ (this sampleMultiple) →
       r ∈ selectedOptions_ (this w') ↔
       r ∈ selectedOptions_ (this sampleMultiple)).
Proof.
  apply (selectedAttributeMutated_multiple (JsArray ["Z"; "X"]) sampleMultiple).
  - apply consistentb_sound. vm_compute. reflexivity.
  - vm_compute. reflexivity.
  - discriminate.
Defined.

(** [X17]: a value other than [null] pushed to the [selected] attribute of a
    consistent single-select widget: the callback returns; only the value
    pushed, or the first value of the array pushed, counts; the last option
    in document order that has this value becomes the one selected option;
    when no option has it, no option stays selected, and only a selected
    element that is not one of the options is kept. *)
Theorem selectedAttributeMutated_single newValue w :
  let values := pushed_values false newValue in
  let matching :=
    filter (λ r, to_string (attr (heap w) r "option") ∈ values)
      (options_ (this w)) in
  consistent w →
  isMultiple_ (this w) = false →
  newValue ≠ JsNull →
  ∃ w', selectedAttributeMutated_ newValue w = Return () w' ∧
    selectedOptions_ (this w') =
      match last matching with
      | Some l => [l]
      | None => filter (λ r, r ∉ options_ (this w)) (selectedOptions_ (this w))
      end.
Proof.
  intros values matching Hc Hm Hnull.
  destruct (selectedAttributeMutated_run newValue w Hc Hnull)
    as (w' & Hrun & Hsel & _).
  rewrite Hm in Hsel. fold values in Hsel.
  destruct Hc as (Hnd & _ & Hlen & _).
  exists w'. split; [done |].
  rewrite Hsel, externally_selected_single by auto.
  assert (Hfilter :
    filter (λ r, pushed values (heap w) r = true) (options_ (this w)) =
    matching).
  { apply list_filter_iff. intros r. unfold pushed.
    by rewrite bool_decide_eq_true. }
  by rewrite Hfilter.
Qed.

Lemma selectedAttributeMutated_single_witness :
  ∃ w', selectedAttributeMutated_ (JsArray ["Z"; "X"]) sampleFocusMode =
          Return () w' ∧
    selectedOptions_ (this w') =
      match
        last (filter
                (λ r, to_string (attr (heap sampleFocusMode) r "option")
                      ∈ pushed_values false (JsArray ["Z"; "X"]))
                (options_ (this sampleFocusMode)))
      with
      | Some l => [l]
      | None => filter (λ r, r ∉ options_ (this sampleFocusMode))
                  (selectedOptions_ (this sampleFocusMode))
      end.
Proof.
  apply (selectedAttributeMutated_single (JsArray ["Z"; "X"]) sampleFocusMode).
  - apply consistentb_sound. vm_compute. reflexivity.
  - vm_compute. reflexivity.
  - discriminate.
Defined.

(** ** What a click can do *)




(** ** Form Sync and the document *)

Lemma createElement_tabIndex r :
  unchanged (λ w, tabIndex (heap w !!! r)) createElement.
Proof. intros w. cbn. by rewrite lookup_total_insert_fresh. Qed.

Lemma setInputs_tabIndex r : unchanged (λ w, tabIndex (heap w !!! r)) setInputs_.
Proof.
  pose proof (createElement_tabIndex r).
  unfold setInputs_, addInput, removeChild.
  frame_with ltac:(cbn; first [ reflexivity
                              | apply tabIndex_upd_attributes
                              | apply tabIndex_upd_childNodes ]).
Qed.

(** [X19]: Form Sync, on a widget whose hidden inputs are distinct children
    of the host, leaves every element the document already has as it is, but
    for the child list of the host: no attribute of an existing element
    changes, not even one of the four attribute names it writes to the inputs
    it creates; no tab index changes; and no other element gains or loses a
    child. *)
Theorem setInputs_touches_host_children_only w r :
  let w' := final (setInputs_ w) in
  NoDup (inputs_ (this w)) →
  (∀ i, i ∈ inputs_ (this w) → i ∈ childNodes (heap w !!! element (this w))) →
  r ∈ dom (heap w) →
  attributes (heap w' !!! r) = attributes (heap w !!! r) ∧
  tabIndex (heap w' !!! r) = tabIndex (heap w !!! r) ∧
  (r ≠ element (this w) →
   childNodes (heap w' !!! r) = childNodes (heap w !!! r)).
Proof.
  intros w' Hnd Hkids Hr.
  destruct (setInputs_old_elements w r Hnd Hkids Hr) as [Hattr Hchildren].
  split_and!; [done | apply (setInputs_tabIndex r w) | done].
Qed.

Lemma setInputs_touches_host_children_only_witness :
  let w' := final (setInputs_ sampleMultiple) in
  attributes (heap w' !!! optX) = attributes (heap sampleMultiple !!! optX) ∧
  tabIndex (heap w' !!! optX) = tabIndex (heap sampleMultiple !!! optX) ∧
  (optX ≠ element (this sampleMultiple) →
   childNodes (heap w' !!! optX) = childNodes (heap sampleMultiple !!! optX)).
Proof.
  apply (setInputs_touches_host_children_only sampleMultiple optX).
  - apply (bool_decide_unpack (NoDup (inputs_ (this sampleMultiple)))).
    vm_compute. exact I.
  - apply Forall_forall.
    apply (bool_decide_unpack
             (Forall (λ i, i ∈ childNodes (heap sampleMultiple !!!
                                             element (this sampleMultiple)))
                (inputs_ (this sampleMultiple)))).
    vm_compute. exact I.
  - apply (bool_decide_unpack (optX ∈ dom (heap sampleMultiple))).
    vm_compute. exact I.
Defined.

(** ** [null] pushed from outside *)

(** [X20]: [null] pushed to the [selected] attribute, on any widget: the
    callback returns with an empty selection; every element that was selected
    has lost the [selected] marker and carries [aria-selected="false"], and
    no other element is touched; every other field of the instance is as it
    was, so that neither the hidden inputs nor the focus cursor follow the
    selection; no call is made into the host. *)
Theorem mutatedAttributesCallback_null w :
  ∃ w', mutatedAttributesCallback (Some JsNull) w = Return () w' ∧
    this w' = with_selectedOptions [] (this w) ∧
    body w' = body w ∧ effects w' = effects w ∧
    ∀ r, heap w' !!! r =
         if decide (r ∈ selectedOptions_ (this w))
         then deselected (heap w !!! r) else heap w !!! r.
Proof. apply clearAllSelections_spec. Qed.

(** ** Navigation in select mode *)

Lemma focus_moved_attr w old new index r name :
  attr (heap (focus_moved w old new index)) r name = attr (heap w) r name.
Proof. cbn. by rewrite !attr_upd_tabIndex. Qed.

Lemma focus_moved_consistent w old new index :
  consistent w → consistent (focus_moved w old new index).
Proof.
  intros (Hnd & Hsel & Hlen & Hact & Hndi & Hatt & Hnds & Hmk).
  unfold consistent, selection_marked. cbn [this focus_moved with_effect
    with_heap with_this options_ kbSelectMode_ isMultiple_ selectedOptions_
    action_ inputs_ element with_focusedIndex].
  split_and!; try done.
  - intros i Hi. cbn. rewrite !lookup_total_upd.
    repeat case_decide; subst; cbn; by apply Hatt.
  - intros r Hr. unfold has_attr. rewrite focus_moved_attr. by apply Hmk.
Qed.

(** [X21]: in select mode, a navigation key with the cursor on an option
    moves the cursor one step, wrapping around, and picks the option it lands
    on.  When that option is disabled or already selected, it is focused and
    nothing else happens; otherwise it becomes the one selected option and a
    [select] event with its value follows the focus call. *)
Theorem keyDownHandler_select_mode Keycodes keyCode w old :
  let n := Z.of_nat (length (options_ (this w))) in
  let dir := direction Keycodes (isLtr w) keyCode in
  let index := (focusedIndex_ (this w) + dir) mod n in
  consistent w →
  kbSelectMode_ (this w) = SELECT →
  dir ≠ 0 →
  at_index (options_ (this w)) (focusedIndex_ (this w)) = Some old →
  ∃ new w', at_index (options_ (this w)) index = Some new ∧
    keyDownHandler_ Keycodes keyCode w = Return () w' ∧
    focusedIndex_ (this w') = index ∧
    if has_attr (heap w) new "disabled" || has_attr (heap w) new "selected"
    then selectedOptions_ (this w') = selectedOptions_ (this w) ∧
         effects w' = effects w ++ [PreventDefault; TryFocus new]
    else selectedOptions_ (this w') = [new] ∧
         effects w' =
           effects w ++ [PreventDefault; TryFocus new;
                         selectEvent w new (form_values w [new])].
Proof.
  intros n dir index Hc Hmode Hdir Hold.
  destruct (keyDownHandler_run Keycodes keyCode w old Hdir Hold)
    as (new & Hnew & Hrun).
  fold n dir index in Hnew, Hrun. rewrite decide_True in Hrun by done.
  set (wm := focus_moved w old new index) in *.
  pose proof (focus_moved_consistent w old new index Hc) as Hcm. fold wm in Hcm.
  assert (Hm : isMultiple_ (this w) = false) by (by apply Hc).
  assert (Heffm : effects wm = effects w ++ [PreventDefault; TryFocus new]).
  { subst wm. cbn. by rewrite <- app_assoc. }
  assert (Hattrm : ∀ r name, attr (heap wm) r name = attr (heap w) r name)
    by (intros; apply focus_moved_attr).
  assert (Hthism : this wm = with_focusedIndex index (this w)) by done.
  clearbody wm.
  assert (Hhas : ∀ r name, has_attr (heap wm) r name = has_attr (heap w) r name)
    by (intros; unfold has_attr; by rewrite Hattrm).
  exists new. rewrite Hrun.
  destruct (has_attr (heap w) new "disabled") eqn:Hdis; cbn [orb].
  { exists wm. rewrite Hthism. split_and!; try done.
    unfold onOptionPicked_. prim. by rewrite Hhas, Hdis. }
  destruct (has_attr (heap w) new "selected") eqn:Hs.
  { exists wm. rewrite Hthism. split_and!; try done.
    unfold onOptionPicked_. prim. rewrite Hhas, Hdis. cbn beta iota.
    rewrite Hhas, Hs, Hthism. cbn. by rewrite Hm. }
  assert (Hdism : has_attr (heap wm) new "disabled" = false)
    by (by rewrite Hhas).
  assert (Hsm : has_attr (heap wm) new "selected" = false)
    by (by rewrite Hhas).
  destruct (onOptionPicked_change new wm Hcm Hdism)
    as (w' & Hrun' & Hsel' & Hfi' & _ & Heff' & _); [congruence |].
  destruct (toggled_unmarked new wm Hcm Hsm) as [_ Ht].
  rewrite Hthism in Ht. cbn [isMultiple_ with_focusedIndex] in Ht.
  rewrite Hm in Ht. cbn [app] in Ht. rewrite Ht in Hsel', Hfi', Heff'.
  exists w'. split_and!; try done.
  - rewrite Hfi', Hthism. unfold focus_after, initialFocusedElement. cbn.
    rewrite decide_False, Hm by (by rewrite Hmode).
    change (at_index [new] 0) with (Some new). cbn beta iota.
    pose proof (at_index_Some _ _ _ Hnew) as Hrange.
    unfold at_index in Hnew. rewrite decide_False in Hnew by lia.
    rewrite (indexOf_lookup _ _ _ (proj1 Hc) Hnew). lia.
  - rewrite Heff', Heffm, <- app_assoc. cbn [app].
    assert (Hvalues : form_values wm [new] = form_values w [new])
      by (apply form_values_ext; rewrite ?Hthism; done).
    unfold selectEvent. by rewrite Hvalues, Hattrm, Hthism.
Qed.

Lemma keyDownHandler_select_mode_witness :
  ∃ new w', at_index (options_ (this sampleSelectMode)) 1 = Some new ∧
    keyDownHandler_ arrowKeycodes 40 sampleSelectMode = Return () w' ∧
    focusedIndex_ (this w') = 1 ∧
    if has_attr (heap sampleSelectMode) new "disabled" ||
       has_attr (heap sampleSelectMode) new "selected"
    then selectedOptions_ (this w') = selectedOptions_ (this sampleSelectMode) ∧
         effects w' =
           effects sampleSelectMode ++ [PreventDefault; TryFocus new]
    else selectedOptions_ (this w') = [new] ∧
         effects w' =
           effects sampleSelectMode ++
           [PreventDefault; TryFocus new;
            selectEvent sampleSelectMode new
              (form_values sampleSelectMode [new])].
Proof.
  apply (keyDownHandler_select_mode arrowKeycodes 40 sampleSelectMode optX).
  - apply consistentb_sound. vm_compute. reflexivity.
  - vm_compute. reflexivity.
  - vm_compute. discriminate.
  - vm_compute. reflexivity.
Defined.

(** ** The attributes the handlers leave alone *)

Lemma attr_removeAttribute_other el k (h : gmap ref Element) r name :
  name ≠ k →
  attr (upd el (with_attributes (delete k)) h) r name = attr h r name.
Proof.
  intros Hk. rewrite attr_upd_attributes. case_decide; [| done].
  subst. by rewrite lookup_delete_ne.
Qed.

Lemma createElement_attr r name :
  unchanged (λ w, attr (heap w) r name) createElement.
Proof. intros w. unfold attr. cbn. by rewrite lookup_total_insert_fresh. Qed.

Section attribute_frame.
Context (r : ref) (name : string).
Hypothesis Hname : name ∉ written_attributes.

Local Lemma name_other k : k ∈ written_attributes → name ≠ k.
Proof. intros Hk ->. by apply Hname. Qed.

Local Ltac write :=
  cbn;
  first [ reflexivity
        | apply attr_upd_tabIndex
        | apply attr_upd_childNodes
        | apply attr_setAttribute_other, name_other;
          apply (bool_decide_unpack _); vm_compute; exact I
        | apply attr_removeAttribute_other, name_other;
          apply (bool_decide_unpack _); vm_compute; exact I ].

Local Ltac frame := frame_with ltac:(write).
Local Hint Resolve createElement_attr : frame.

Lemma clearSelection_attr el :
  unchanged (λ w, attr (heap w) r name) (clearSelection_ el).
Proof. unfold clearSelection_. frame. Qed.
Local Hint Resolve clearSelection_attr : frame.

Lemma clearAllSelections_attr :
  unchanged (λ w, attr (heap w) r name) clearAllSelections_.
Proof.
  unfold clearAllSelections_. frame.
  induction (length a) as [|n IH]; simpl; [frame |].
  unfold pop_selectedOptions. frame.
Qed.
Local Hint Resolve clearAllSelections_attr : frame.

Lemma setSelection_attr el :
  unchanged (λ w, attr (heap w) r name) (setSelection_ el).
Proof. unfold setSelection_. frame. Qed.
Local Hint Resolve setSelection_attr : frame.

Lemma updateFocus_attr : unchanged (λ w, attr (heap w) r name) updateFocus_.
Proof. unfold updateFocus_. frame. Qed.
Local Hint Resolve updateFocus_attr : frame.

Lemma setInputs_attr : unchanged (λ w, attr (heap w) r name) setInputs_.
Proof. unfold setInputs_, addInput, removeChild. frame. Qed.
Local Hint Resolve setInputs_attr : frame.

Lemma onOptionPicked_attr el :
  unchanged (λ w, attr (heap w) r name) (onOptionPicked_ el).
Proof. unfold onOptionPicked_. frame. Qed.
Local Hint Resolve onOptionPicked_attr : frame.

Lemma selectedAttributeMutated_attr newValue :
  unchanged (λ w, attr (heap w) r name) (selectedAttributeMutated_ newValue).
Proof. unfold selectedAttributeMutated_. destruct newValue; frame. Qed.

Lemma dispatch_attr Keycodes e :
  unchanged (λ w, attr (heap w) r name) (dispatch Keycodes e).
Proof.
  destruct e as [closest target | keyCode | selected]; simpl.
  - unfold clickHandler_. frame.
  - unfold keyDownHandler_. frame.
  - destruct selected as [newValue|]; simpl; [| frame].
    by apply selectedAttributeMutated_attr.
Qed.

Lemma after_events_attr Keycodes events w :
  attr (heap (after_events Keycodes events w)) r name = attr (heap w) r name.
Proof.
  revert w. induction events as [|e events IH]; intros w; [done |].
  simpl. rewrite IH. apply dispatch_attr.
Qed.
End attribute_frame.



(** ** ARIA roles *)

Lemma keeps_forEach_elem {A} (I : World → Prop) (l : list A) f :
  (∀ x, x ∈ l → keeps I (f x)) → keeps I (forEach l f).
Proof.
  induction l as [|x l IH]; intros Hf; [by intros w |].
  simpl. apply keeps_bind.
  - apply Hf, list_elem_of_here.
  - intros _. apply IH. intros y Hy. by apply Hf, list_elem_of_further.
Qed.

Lemma unchanged_keeps {A T} (π : World → T) (P : T → Prop) (m : M A) :
  unchanged π m → keeps (λ w, P (π w)) m.
Proof. intros Hm w Hw. by rewrite Hm. Qed.

Lemma final_seq_modify {B} f (k : M B) w :
  final ((modify f ;; k) w) = final (k (f w)).
Proof. done. Qed.

(** [initOption] keeps an attribute it does not write, and one it would
    write the same value to. *)
Lemma initOption_keeps_attr r name v opt :
  name ∉ written_attributes →
  (name = "role" → v = "option" ∨ r ≠ opt) →
  (name = "aria-disabled" → v = "true" ∨ r ≠ opt) →
  keeps (λ w, attr (heap w) r name = Some v) (initOption opt).
Proof.
  intros Hname Hrole Hdisabled.
  pose proof (unchanged_keeps _ (λ a, a = Some v) _
                (setSelection_attr r name Hname opt)) as Hset.
  pose proof (unchanged_keeps _ (λ a, a = Some v) _
                (clearSelection_attr r name Hname opt)) as Hclear.
  cbn beta in Hset, Hclear.
  unfold initOption.
  keeps_with ltac:(
    let w := fresh "w" in
    let Hw := fresh "Hw" in
    intros w Hw; cbn;
    first [ exact Hw
          | by rewrite attr_upd_tabIndex
          | rewrite attr_upd_attributes; case_decide; [| exact Hw];
            subst;
            match goal with
            | |- <[?k := _]> _ !! ?n = _ =>
                destruct (decide (n = k)) as [-> | ?];
                [ rewrite lookup_insert_eq;
                  first [ destruct Hrole as [-> | ?]; done
                        | destruct Hdisabled as [-> | ?]; done ]
                | by rewrite lookup_insert_ne ]
            end ]).
Qed.

Lemma initOption_establishes opt w :
  let w' := final (initOption opt w) in
  attr (heap w') opt "role" = Some "option" ∧
  (has_attr (heap w) opt "disabled" = true →
   attr (heap w') opt "aria-disabled" = Some "true").
Proof.
  assert (Hwritten : ∀ name, name = "role" ∨ name = "aria-disabled" →
            name ∉ written_attributes).
  { intros name [-> | ->]; apply (bool_decide_unpack _); vm_compute; exact I. }
  cbn zeta. unfold initOption. prim.
  set (w0 := with_heap (upd opt (with_attributes <["role":="option"]>)) w).
  set (wa := if has_attr (heap w0) opt "disabled"
             then with_heap
                    (upd opt (with_attributes <["aria-disabled":="true"]>)) w0
             else w0).
  assert (Hrun_a :
    (if has_attr (heap w0) opt "disabled" return M ()
     then λ w1, Return () (with_heap
                    (upd opt (with_attributes <["aria-disabled":="true"]>)) w1)
     else λ w1, Return () w1) w0 = Return () wa).
  { subst wa. by destruct (has_attr (heap w0) opt "disabled"). }
  rewrite Hrun_a. clear Hrun_a. cbn beta iota.
  assert (Hrole : attr (heap wa) opt "role" = Some "option").
  { subst wa w0. destruct (has_attr _ opt "disabled"); cbn;
      rewrite ?attr_setAttribute_other by done; apply attr_setAttribute_same. }
  assert (Hdisabled : has_attr (heap w) opt "disabled" = true →
            attr (heap wa) opt "aria-disabled" = Some "true").
  { intros Hd. subst wa.
    assert (Hd0 : has_attr (heap w0) opt "disabled" = true).
    { subst w0. unfold has_attr in *. cbn.
      by rewrite attr_setAttribute_other. }
    rewrite Hd0. cbn. apply attr_setAttribute_same. }
  clearbody wa. clear w0.
  set (step := if has_attr (heap wa) opt "selected" return M ()
               then setSelection_ opt else clearSelection_ opt).
  assert (Hstep : ∀ name, name = "role" ∨ name = "aria-disabled" →
            ∃ w1, step wa = Return () w1 ∧
              attr (heap w1) opt name = attr (heap wa) opt name).
  { intros name Hn. subst step. destruct (has_attr (heap wa) opt "selected").
    - pose proof (setSelection_attr opt name (Hwritten _ Hn) opt wa) as Hu.
      destruct (setSelection_spec opt wa) as (w1 & Hrun & _).
      rewrite Hrun in Hu |- *. by exists w1.
    - pose proof (clearSelection_attr opt name (Hwritten _ Hn) opt wa) as Hu.
      rewrite clearSelection_run in Hu |- *. by eexists. }
  change ((if has_attr (heap wa) opt "selected"
           then setSelection_ opt else clearSelection_ opt) wa)
    with (step wa).
  split.
  - destruct (Hstep "role") as (w1 & -> & Hattr); [by left |].
    cbn. by rewrite attr_upd_tabIndex, Hattr.
  - intros Hd. destruct (Hstep "aria-disabled") as (w1 & -> & Hattr);
      [by right |].
    cbn. rewrite attr_upd_tabIndex, Hattr. by apply Hdisabled.
Qed.

Lemma role_not_written : "role" ∉ written_attributes.
Proof. apply (bool_decide_unpack _). vm_compute. exact I. Qed.

Lemma aria_disabled_not_written : "aria-disabled" ∉ written_attributes.
Proof. apply (bool_decide_unpack _). vm_compute. exact I. Qed.

Lemma aria_multiselectable_not_written :
  "aria-multiselectable" ∉ written_attributes.
Proof. apply (bool_decide_unpack _). vm_compute. exact I. Qed.

Lemma forEach_initOption_roles queried w opt :
  let w' := final (forEach queried initOption w) in
  opt ∈ queried →
  attr (heap w') opt "role" = Some "option" ∧
  (has_attr (heap w) opt "disabled" = true →
   attr (heap w') opt "aria-disabled" = Some "true").
Proof.
  cbn zeta. revert w. induction queried as [|x l IH]; intros w Hopt.
  { by apply not_elem_of_nil in Hopt. }
  simpl. rewrite final_bind.
  destruct (initOption_spec x w) as (w1 & Hrun & _ & _ & _ & _ & _ & Hattr).
  pose proof (initOption_establishes x w) as [Hrole Hdisabled].
  rewrite Hrun in Hrole, Hdisabled |- *. cbn [final] in Hrole, Hdisabled.
  destruct (decide (opt = x)) as [-> | Hne].
  - split.
    + apply (keeps_forEach (λ w, attr (heap w) x "role" = Some "option"));
        [| done].
      intros y. apply initOption_keeps_attr;
        [apply role_not_written | by left | done].
    + intros Hd.
      apply (keeps_forEach
               (λ w, attr (heap w) x "aria-disabled" = Some "true"));
        [| by apply Hdisabled].
      intros y. apply initOption_keeps_attr;
        [apply aria_disabled_not_written | done | by left].
  - apply elem_of_cons in Hopt as [? | Hin]; [done |].
    destruct (IH w1 Hin) as [Hr Hd]. split; [done |].
    intros Hdis. apply Hd. unfold has_attr in *. by rewrite Hattr.
Qed.

(** [X23]: the ARIA roles of a built widget.  When [buildCallback] has
    returned, on a host that is not itself one of the options found, and
    after any clicks, key presses and external mutations: the host has
    [role="listbox"], [aria-multiselectable="true"] if it carried [multiple]
    and [aria-disabled="true"] if it carried [disabled]; every option has
    [role="option"], and [aria-disabled="true"] if it carried [disabled]. *)
Theorem built_widget_roles Keycodes queried h b host trace w0 events :
  let w := after_events Keycodes events w0 in
  buildCallback queried (constructed h b host trace) = Return () w0 →
  host ∉ queried →
  attr (heap w) host "role" = Some "listbox" ∧
  (has_attr h host "multiple" = true →
   attr (heap w) host "aria-multiselectable" = Some "true") ∧
  (has_attr h host "disabled" = true →
   attr (heap w) host "aria-disabled" = Some "true") ∧
  ∀ opt, opt ∈ queried →
    attr (heap w) opt "role" = Some "option" ∧
    (has_attr h opt "disabled" = true →
     attr (heap w) opt "aria-disabled" = Some "true").
Proof.
  intros w Hbuild Hhost. subst w.
  rewrite !(after_events_attr _ _ role_not_written),
    !(after_events_attr _ _ aria_disabled_not_written),
    !(after_events_attr _ _ aria_multiselectable_not_written).
  setoid_rewrite (after_events_attr _ _ role_not_written).
  setoid_rewrite (after_events_attr _ _ aria_disabled_not_written).
  destruct (buildCallback_prefix queried h b host trace)
    as (h1 & Hprefix & Hother & _ & Hrole & Hmulti & Hdis & _).
  rewrite Hprefix in Hbuild. clear Hprefix.
  destruct (parse_mode (requested_mode h host)) as [mode|]; [| done].
  unfold assert in Hbuild.
  destruct (negb (has_attr h host "multiple" && bool_decide (mode = SELECT)));
    [| done].
  revert Hbuild. prim. cbn beta iota.
  set (w2 := with_this _ _).
  intros Hbuild.
  destruct (init_ queried w2) as [[] w3|e w3] eqn:Hinit; [| done].
  assert (Hw0 : heap w0 = heap w3).
  { destruct (negb (has_attr h host "disabled")); cbn in Hbuild;
      [destruct (decide (mode ≠ NONE)); cbn in Hbuild |];
      by injection Hbuild as <-. }
  rewrite Hw0. clear Hbuild Hw0.
  (* the loop of [init_], then the two calls after it *)
  destruct (forEach_initOption_options queried w2) as (w2' & Hrun2 & _).
  assert (Hrest : ∀ r name, name ∉ written_attributes →
            attr (heap w3) r name = attr (heap w2') r name).
  { intros r name Hname.
    pose proof (updateFocus_attr r name w2') as Hf.
    unfold init_ in Hinit. rewrite (bind_Return _ _ _ _ _ Hrun2) in Hinit.
    unfold mbind, M_bind in Hinit.
    destruct (updateFocus_ w2') as [[] w2''|e w2'']; [| done].
    pose proof (setInputs_attr r name Hname w2'') as Hi.
    destruct (setInputs_ w2'') as [values w3'|e w3']; [| done].
    injection Hinit as <-. cbn in Hf, Hi. by rewrite Hi, Hf. }
  assert (Hloop : ∀ name v, name ∉ written_attributes →
            attr (heap w2) host name = Some v →
            attr (heap w2') host name = Some v).
  { intros name v Hname Hv.
    pose proof (keeps_forEach_elem
                  (λ w, attr (heap w) host name = Some v) queried initOption)
      as Hkeeps.
    rewrite <- (f_equal final Hrun2 : final _ = w2').
    apply Hkeeps; [| done].
    intros opt Hopt. apply initOption_keeps_attr; [done | |];
      intros _; right; by intros ->. }
  split_and!.
  - rewrite Hrest by apply role_not_written.
    by apply Hloop; [apply role_not_written |].
  - intros Hm. rewrite Hrest by apply aria_multiselectable_not_written.
    apply Hloop; [apply aria_multiselectable_not_written |].
    subst w2. cbn. by rewrite Hmulti, Hm.
  - intros Hd. rewrite Hrest by apply aria_disabled_not_written.
    apply Hloop; [apply aria_disabled_not_written |].
    subst w2. cbn. by rewrite Hdis, Hd.
  - intros opt Hopt.
    destruct (forEach_initOption_roles queried w2 opt Hopt) as [Hr Hd].
    rewrite Hrun2 in Hr, Hd. cbn [final] in Hr, Hd.
    rewrite !Hrest by first [apply role_not_written
                            | apply aria_disabled_not_written].
    split; [done |]. intros Hdisabled. apply Hd.
    subst w2. cbn. unfold has_attr, attr in *.
    rewrite Hother; [done |]. by intros ->.
Qed.

Lemma built_widget_roles_witness :
  let h := heap (sampleDocument [("name", "color"); ("multiple", "")]
                   [("option", "A"); ("selected", "")]
                   [("option", "B"); ("selected", ""); ("disabled", "")]
                   [("option", "C")]) in
  let w := after_events arrowKeycodes [Click (λ _, None) (Some optX)]
             sampleDisabledOption in
  attr (heap w) hostEl "role" = Some "listbox" ∧
  (has_attr h hostEl "multiple" = true →
   attr (heap w) hostEl "aria-multiselectable" = Some "true") ∧
  (has_attr h hostEl "disabled" = true →
   attr (heap w) hostEl "aria-disabled" = Some "true") ∧
  ∀ opt, opt ∈ [optX; optY; optZ] →
    attr (heap w) opt "role" = Some "option" ∧
    (has_attr h opt "disabled" = true →
     attr (heap w) opt "aria-disabled" = Some "true").
Proof.
  apply (built_widget_roles arrowKeycodes [optX; optY; optZ]
           (heap (sampleDocument [("name", "color"); ("multiple", "")]
                    [("option", "A"); ("selected", "")]
                    [("option", "B"); ("selected", ""); ("disabled", "")]
                    [("option", "C")]))
           bodyEl hostEl [] sampleDisabledOption).
  - vm_compute. reflexivity.
  - apply (bool_decide_unpack _). vm_compute. exact I.
Defined.

(** ** Hidden inputs after a pick *)

(** Option Picked on the path that changes the selection, as the chain of
    the methods it calls. *)
Lemma onOptionPicked_chain el w :
  consistent w →
  has_attr (heap w) el "disabled" = false →
  (has_attr (heap w) el "selected" = true → isMultiple_ (this w) = true) →
  ∃ w1 values w2 w3,
    (if has_attr (heap w) el "selected"
     then clearSelection_ el else setSelection_ el) w = Return () w1 ∧
    setInputs_ w1 = Return values w2 ∧
    updateFocus_ w2 = Return () w3 ∧
    onOptionPicked_ el w =
      Return ()
        (with_effect
           (Trigger (element (this w3)) "select"
              {| eventType := "amp-selector.select";
                 targetOption := attr (heap w3) el "option";
                 selectedOptions := values |}) w3).
Proof.
  intros Hc Hdis Hsel.
  destruct (toggle_run el w Hc)
    as (w1 & Hrun1 & Hthis1 & Hbody1 & Heff1 & Hh1 & Hc1).
  exists w1.
  destruct (setInputs_consistent w1 Hc1) as (values & w2 & Hrun2 & Hc2 & _).
  exists values, w2.
  destruct (updateFocus_consistent w2 Hc2) as (w3 & Hrun3 & Hc3 & _).
  exists w3. split_and!; try done.
  unfold onOptionPicked_. prim. rewrite Hdis. cbn beta iota.
  match goal with
  | |- match ?s with _ => _ end = _ =>
      assert (Hstep : s = Return (Some values) w2)
  end.
  { destruct (has_attr (heap w) el "selected").
    - rewrite Hsel by done. by rewrite Hrun1, Hrun2.
    - by rewrite Hrun1, Hrun2. }
  rewrite Hstep, Hrun3. cbn beta iota.
  destruct Hc3 as (_ & _ & _ & Hact3 & _).
  by destruct (action_ (this w3)).
Qed.

Lemma hidden_attributes_value elementName formId value :
  hidden_attributes elementName formId value !! "value" =
  Some (to_string value).
Proof.
  unfold hidden_attributes.
  destruct (truthy formId); simpl.
  - rewrite lookup_insert_ne by done. by rewrite lookup_insert_eq.
  - by rewrite lookup_insert_eq.
Qed.

Lemma hidden_inputs_values (h : gmap ref Element) elementName formId
    (value : ref → option string) inputs opts :
  Forall2
    (λ input opt,
       attributes (h !!! input) =
       hidden_attributes elementName formId (value opt)) inputs opts →
  (λ input, attr h input "value") <$> inputs =
  (λ opt, Some (to_string (value opt))) <$> opts.
Proof.
  induction 1 as [|input opt inputs opts Hel _ IH]; [done |].
  cbn. f_equal; [| done].
  unfold attr. by rewrite Hel, hidden_attributes_value.
Qed.

(** [X24]: after a pick that changes the selection, on a consistent widget
    whose host has a name and is not disabled, the hidden inputs are in step
    with the selection and with the event: there is one input for each
    selected option without a [disabled] marker, in the order of
    [selectedOptions_], its attributes those of a hidden input with the name
    and form of the host and the value of the option; and the values of the
    inputs are, as strings, the values the [select] event carries. *)
Theorem onOptionPicked_syncs_inputs el w :
  let host := element (this w) in
  let elementName := attr (heap w) host "name" in
  let formId := attr (heap w) host "form" in
  consistent w →
  has_attr (heap w) el "disabled" = false →
  (has_attr (heap w) el "selected" = true → isMultiple_ (this w) = true) →
  truthy elementName = true →
  isDisabled_ (this w) = false →
  ∃ w' values,
    onOptionPicked_ el w = Return () w' ∧
    effects w' = effects w ++ [selectEvent w el values] ∧
    Forall2
      (λ input opt,
         attributes (heap w' !!! input) =
         hidden_attributes elementName formId (attr (heap w) opt "option"))
      (inputs_ (this w')) (enabled (heap w) (selectedOptions_ (this w'))) ∧
    (λ input, attr (heap w') input "value") <$> inputs_ (this w') =
      (λ value, Some (to_string value)) <$> values.
Proof.
  intros host elementName formId Hc Hdis Hsel Hname Hdisabled.
  destruct (onOptionPicked_chain el w Hc Hdis Hsel)
    as (w1 & values & w2 & w3 & Hrun1 & Hrun2 & Hrun3 & Hrun).
  destruct (toggle_run el w Hc)
    as (w1' & Hrun1' & Hthis1 & Hbody1 & Heff1 & Hh1 & Hc1).
  rewrite Hrun1 in Hrun1'. injection Hrun1' as <-.
  assert (Hattr1 : ∀ r name, name ≠ "selected" → name ≠ "aria-selected" →
            attr (heap w1) r name = attr (heap w) r name).
  { intros r name H1 H2. unfold attr at 1. rewrite Hh1.
    by apply toggled_element_attr. }
  assert (Hhost1 : element (this w1) = host) by (by rewrite Hthis1).
  pose proof (setInputs_emitting w1) as Hemit. cbv zeta in Hemit.
  rewrite Hhost1, !Hattr1 in Hemit by done.
  destruct Hemit as (w2' & Hrun2' & Hthis2 & Hbody2 & Heff2 & Hall & _);
    [done | by rewrite Hthis1 | by apply Hc1 | | ].
  { intros i Hi. rewrite <- Hhost1. by apply Hc1. }
  rewrite Hrun2 in Hrun2'. injection Hrun2' as Hvalues <-.
  rewrite (enabled_ext (heap w) (heap w1)) in Hall, Hvalues
    by (intros r; by apply Hattr1).
  destruct (updateFocus_spec w2) as (w3' & Hrun3' & Hthis3 & Hbody3 & Heff3 & Hsame).
  rewrite Hrun3 in Hrun3'. injection Hrun3' as <-.
  assert (Hsel3 : selectedOptions_ (this w3) = selectedOptions_ (this w1))
    by (by rewrite Hthis3, Hthis2).
  assert (Hin3 : inputs_ (this w3) = inputs_ (this w2)) by (by rewrite Hthis3).
  assert (Hinputs : Forall2
    (λ input opt,
       attributes (heap w3 !!! input) =
       hidden_attributes elementName formId (attr (heap w) opt "option"))
    (inputs_ (this w2)) (enabled (heap w) (selectedOptions_ (this w1)))).
  { eapply Forall2_impl; [exact Hall |].
    intros input opt [_ Hel]. cbn beta.
    destruct (Hsame input) as [-> _]. rewrite Hel. cbn.
    by rewrite Hattr1. }
  eexists _, values. split; [exact Hrun |].
  cbn [this heap body effects with_effect]. rewrite Hsel3, Hin3.
  split_and!.
  - rewrite Heff3, Heff2, Heff1. unfold selectEvent.
    assert (He3 : element (this w3) = element (this w))
      by (by rewrite Hthis3, Hthis2, Hthis1).
    assert (Ho3 : attr (heap w3) el "option" = attr (heap w) el "option").
    { rewrite (same_markup_attr _ _ _ _ Hsame).
      destruct (setInputs_frame w1) as (? & ? & Hr & _ & _ & _ & _ & _ & Hf);
        [by apply Hc1 | by apply Hc1 |].
      rewrite Hrun2 in Hr. injection Hr as _ <-.
      rewrite Hf by apply not_input_attribute_option. by apply Hattr1. }
    by rewrite He3, Ho3.
  - done.
  - rewrite Hvalues, <- list_fmap_compose.
    rewrite (hidden_inputs_values _ _ _ _ _ _ Hinputs).
    apply list_fmap_ext. intros _ r _. cbn. by rewrite Hattr1.
Qed.

Lemma onOptionPicked_syncs_inputs_witness :
  let w := sampleDisabledOption in
  let host := element (this w) in
  ∃ w' values,
    onOptionPicked_ optZ w = Return () w' ∧
    effects w' = effects w ++ [selectEvent w optZ values] ∧
    Forall2
      (λ input opt,
         attributes (heap w' !!! input) =
         hidden_attributes (attr (heap w) host "name")
           (attr (heap w) host "form") (attr (heap w) opt "option"))
      (inputs_ (this w')) (enabled (heap w) (selectedOptions_ (this w'))) ∧
    (λ input, attr (heap w') input "value") <$> inputs_ (this w') =
      (λ value, Some (to_string value)) <$> values.
Proof.
  apply (onOptionPicked_syncs_inputs optZ sampleDisabledOption).
  - apply consistentb_sound. vm_compute. reflexivity.
  - vm_compute. reflexivity.
  - intros _. vm_compute. reflexivity.
  - vm_compute. reflexivity.
  - vm_compute. reflexivity.
Defined.

(** ** No handler throws while clicks land on the options *)

Lemma keeps_bind_gets {A B} (I : World → Prop) (g : World → A) (f : A → M B) :
  (∀ w, I w → keeps I (f (g w))) → keeps I (gets g ≫= f).
Proof. intros H w Hw. by apply (H w Hw w Hw). Qed.

Lemma elem_of_spliced_sub sel el r : r ∈ spliced sel el → r ∈ sel.
Proof.
  unfold spliced. destruct (index_of sel el) as [i|]; [| done].
  apply list_elem_of_delete_inv.
Qed.

Lemma indexOf_range opts el :
  el ∈ opts → 0 ≤ indexOf opts el < Z.of_nat (length opts).
Proof.
  intros Hel. unfold indexOf.
  destruct (index_of opts el) as [i|] eqn:Hi.
  - apply index_of_Some in Hi as [_ Hi]. lia.
  - by apply index_of_None in Hi.
Qed.

Lemma setInputs_instance :
  unchanged (λ w, (options_ (this w), selectedOptions_ (this w),
                   focusedIndex_ (this w))) setInputs_.
Proof.
  unfold setInputs_, addInput, removeChild. frame_with ltac:(reflexivity).
Qed.

Section on_options_keeps.
Context (opts : list ref).

Lemma on_options_ext w w' :
  options_ (this w') = options_ (this w) →
  selectedOptions_ (this w') = selectedOptions_ (this w) →
  focusedIndex_ (this w') = focusedIndex_ (this w) →
  on_options opts w → on_options opts w'.
Proof. intros Ho Hs Hf. unfold on_options. by rewrite Ho, Hs, Hf. Qed.

Local Ltac write :=
  let w := fresh "w" in
  let Hw := fresh "Hw" in
  intros w Hw; apply (on_options_ext w); [reflexivity.. | exact Hw].

Local Ltac keeps := keeps_with ltac:(write).

Lemma clearSelection_on_options el : keeps (on_options opts) (clearSelection_ el).
Proof.
  intros w (Ho & Hsel & Hfi). rewrite clearSelection_run.
  split; [done |]. split; [| done].
  intros r Hr. by apply Hsel, (elem_of_spliced_sub _ el).
Qed.

Lemma clearAllSelections_on_options :
  keeps (on_options opts) clearAllSelections_.
Proof.
  intros w (Ho & Hsel & Hfi).
  destruct (clearAllSelections_spec w) as (w' & -> & Hthis & _).
  cbn [final]. unfold on_options. rewrite Hthis. cbn.
  split; [done |]. split; [| done].
  intros r Hr. by apply not_elem_of_nil in Hr.
Qed.

Lemma setSelection_on_options el :
  el ∈ opts → keeps (on_options opts) (setSelection_ el).
Proof.
  intros Hel w (Ho & Hsel & Hfi).
  destruct (setSelection_spec el w) as (w' & -> & Hthis & _).
  cbn [final]. unfold on_options. rewrite Hthis. cbn.
  split; [done |]. split; [| done].
  intros r. unfold selected_after. destruct (includes _ _); [by apply Hsel |].
  intros [Hr | ->%list_elem_of_singleton]%elem_of_app; [| done].
  destruct (isMultiple_ (this w)); [by apply Hsel |].
  by apply not_elem_of_nil in Hr.
Qed.

Lemma updateFocus_on_options : keeps (on_options opts) updateFocus_.
Proof.
  intros w (Ho & Hsel & Hfi).
  destruct (updateFocus_spec w) as (w' & -> & Hthis & _).
  cbn [final]. unfold on_options. rewrite Hthis. cbn.
  split; [done |]. split; [done |].
  assert (Hrange : ∀ el, el ∈ opts →
            0 ≤ indexOf opts el < Z.max 1 (Z.of_nat (length opts))).
  { intros el Hel. pose proof (indexOf_range opts el Hel). lia. }
  unfold focus_after, initialFocusedElement.
  case_decide; [by apply Hfi |].
  assert (Hfirst : ∀ l el, at_index l 0 = Some el → el ∈ l).
  { intros l el Hl. unfold at_index in Hl.
    rewrite decide_False in Hl by lia. by eapply list_elem_of_lookup_2. }
  rewrite Ho.
  destruct (isMultiple_ (this w)).
  - destruct (at_index opts 0) as [el|] eqn:Hel; [| by apply Hfi].
    by apply Hrange, Hfirst.
  - destruct (at_index (selectedOptions_ (this w)) 0) as [el|] eqn:Hel.
    + by apply Hrange, Hsel, Hfirst.
    + destruct (at_index opts 0) as [el|] eqn:Hel'; [| by apply Hfi].
      by apply Hrange, Hfirst.
Qed.

Lemma setInputs_on_options : keeps (on_options opts) setInputs_.
Proof.
  intros w Hw. pose proof (setInputs_instance w) as Hframe.
  injection Hframe as Ho Hs Hf. by apply (on_options_ext w).
Qed.

Lemma onOptionPicked_on_options el :
  el ∈ opts → keeps (on_options opts) (onOptionPicked_ el).
Proof.
  intros Hel.
  pose proof (clearSelection_on_options el).
  pose proof (setSelection_on_options el Hel).
  pose proof updateFocus_on_options.
  pose proof setInputs_on_options.
  unfold onOptionPicked_. keeps.
Qed.

Lemma clickHandler_on_options closestBySelector target w :
  (∀ el, clicked_option closestBySelector w target = Some el → el ∈ opts) →
  on_options opts w →
  on_options opts (final (clickHandler_ closestBySelector target w)).
Proof.
  intros Hel Hw. unfold clickHandler_, clicked_option in *.
  destruct target as [t|]; [| done]. prim.
  destruct (if has_attr (heap w) t "option" then Some t
            else closestBySelector t) as [el|]; [| done].
  by apply onOptionPicked_on_options; [apply Hel |].
Qed.

Lemma keyDownHandler_on_options Keycodes keyCode :
  keeps (on_options opts) (keyDownHandler_ Keycodes keyCode).
Proof.
  intros w Hw.
  destruct (decide (direction Keycodes (isLtr w) keyCode = 0)) as [Hd | Hd].
  { unfold keyDownHandler_. prim. fold (isLtr w). by rewrite decide_True. }
  destruct (at_index (options_ (this w)) (focusedIndex_ (this w)))
    as [old|] eqn:Hold.
  - destruct (keyDownHandler_run Keycodes keyCode w old Hd Hold)
      as (new & Hnew & ->).
    destruct Hw as (Ho & Hsel & Hfi).
    pose proof (at_index_Some _ _ _ Hnew) as Hrange.
    assert (Hin : new ∈ opts).
    { unfold at_index in Hnew. rewrite decide_False in Hnew by lia.
      rewrite <- Ho. by eapply list_elem_of_lookup_2. }
    assert (Hmoved : on_options opts (focus_moved w old new
              ((focusedIndex_ (this w) +
                direction Keycodes (isLtr w) keyCode)
               `mod` Z.of_nat (length (options_ (this w)))))).
    { split; [done |]. split; [done |]. cbn. rewrite <- Ho. lia. }
    case_decide; [by apply onOptionPicked_on_options | done].
  - rewrite keyDownHandler_stray by done. by apply (on_options_ext w).
Qed.

Lemma selectedAttributeMutated_on_options newValue :
  keeps (on_options opts) (selectedAttributeMutated_ newValue).
Proof.
  pose proof clearAllSelections_on_options.
  pose proof updateFocus_on_options.
  pose proof setInputs_on_options.
  unfold selectedAttributeMutated_.
  destruct newValue as [|key|keys]; [done | |];
    (apply keeps_bind; [apply keeps_gets |]; intros multiple; cbv zeta;
     apply keeps_bind_gets; intros w (Ho & _); rewrite Ho;
     apply keeps_bind;
     [ apply keeps_forEach_elem; intros el Hel;
       pose proof (clearSelection_on_options el);
       pose proof (setSelection_on_options el Hel);
       keeps
     | intros _; keeps ]).
Qed.
End on_options_keeps.

Lemma own_options_keeps {A} (m : M A) :
  (∀ opts, keeps (on_options opts) m) →
  keeps (λ w, on_options (options_ (this w)) w) m.
Proof.
  intros H w Hw. pose proof (H _ w Hw) as Hw'.
  destruct Hw' as (Ho & Hrest). unfold on_options. rewrite Ho. by split.
Qed.

Lemma initOption_own_options opt :
  keeps (λ w, on_options (options_ (this w)) w) (initOption opt).
Proof.
  intros w (_ & Hsel & Hfi).
  destruct (initOption_spec opt w) as (w' & -> & Hthis & _).
  cbn [final]. unfold on_options. rewrite Hthis. cbn.
  split; [done |]. split.
  - intros r Hr. apply elem_of_app.
    assert (Hcases : r ∈ selectedOptions_ (this w) ∨ r = opt).
    { unfold selection_after_init, selected_after in Hr.
      destruct (has_attr (heap w) opt "selected");
        [| left; by eapply elem_of_spliced_sub].
      destruct (includes _ _); [by left |].
      apply elem_of_app in Hr as [Hr | ->%list_elem_of_singleton];
        [| by right].
      destruct (isMultiple_ (this w)); [by left |].
      by apply not_elem_of_nil in Hr. }
    destruct Hcases as [? | ->]; [left; by apply Hsel |].
    right. apply list_elem_of_here.
  - rewrite length_app. cbn. lia.
Qed.

Lemma buildCallback_own_options queried h b host trace :
  let w := final (buildCallback queried (constructed h b host trace)) in
  on_options (options_ (this w)) w.
Proof.
  cbn zeta.
  assert (Hbuild : keeps (λ w, on_options (options_ (this w)) w)
                     (buildCallback queried)).
  { assert (Hinit : keeps (λ w, on_options (options_ (this w)) w)
                      (init_ queried)).
    { unfold init_.
      apply keeps_bind; [apply keeps_forEach, initOption_own_options |].
      intros _. apply keeps_bind;
        [apply own_options_keeps, updateFocus_on_options |].
      intros _. apply keeps_bind;
        [apply own_options_keeps, setInputs_on_options |].
      intros _. apply keeps_ret. }
    unfold buildCallback.
    keeps_with ltac:(
      let w := fresh "w" in
      let Hw := fresh "Hw" in
      intros w Hw; exact Hw). }
  apply Hbuild. unfold on_options, constructed. cbn.
  split; [done |]. split; [| done].
  intros r Hr. by apply not_elem_of_nil in Hr.
Qed.

Lemma buildCallback_options queried h b host trace w :
  buildCallback queried (constructed h b host trace) = Return () w →
  options_ (this w) = queried.
Proof.
  intros Hbuild.
  destruct (buildCallback_prefix queried h b host trace) as (h1 & Hprefix & _).
  rewrite Hprefix in Hbuild. clear Hprefix.
  destruct (parse_mode (requested_mode h host)) as [mode|]; [| done].
  unfold assert in Hbuild.
  destruct (negb (has_attr h host "multiple" && bool_decide (mode = SELECT)));
    [| done].
  revert Hbuild. prim. cbn beta iota.
  set (w2 := with_this _ _).
  intros Hbuild.
  destruct (init_ queried w2) as [[] w3|e w3] eqn:Hinit; [| done].
  pose proof (init_options queried w2 w3 Hinit) as Ho.
  destruct (negb (has_attr h host "disabled")); cbn in Hbuild;
    [destruct (decide (mode ≠ NONE)); cbn in Hbuild |];
    by injection Hbuild as <-.
Qed.

Lemma dispatch_returns Keycodes opts w0 e w :
  opts ≠ [] →
  options_ (this w0) = opts →
  (∀ r, attr (heap w) r "option" = attr (heap w0) r "option") →
  lands_on_option w0 e →
  consistent w → on_options opts w →
  ∃ w', dispatch Keycodes e w = Return () w' ∧
    (∀ r, attr (heap w') r "option" = attr (heap w0) r "option") ∧
    consistent w' ∧ on_options opts w'.
Proof.
  intros Hne Ho0 Hattr Hlands Hc Hon.
  assert (Hoption : "option" ∉ written_attributes).
  { apply (bool_decide_unpack _). vm_compute. exact I. }
  assert (Hrest : ∀ w', dispatch Keycodes e w = Return () w' →
            on_options opts w' →
            (∀ r, attr (heap w') r "option" = attr (heap w0) r "option") ∧
            consistent w' ∧ on_options opts w').
  { intros w' Hrun Hon'. split_and!; [| | done].
    - intros r. rewrite <- Hattr.
      pose proof (dispatch_attr r "option" Hoption Keycodes e w) as Hf.
      by rewrite Hrun in Hf.
    - pose proof (dispatch_consistent Keycodes e w Hc) as Hc'.
      by rewrite Hrun in Hc'. }
  destruct e as [closest target | keyCode | selected]; simpl in *.
  - destruct (clickHandler_consistent closest target w Hc) as (w' & Hrun & _).
    exists w'. split; [done |]. apply Hrest; [done |].
    pose proof (clickHandler_on_options opts closest target w) as Hk.
    rewrite Hrun in Hk. apply Hk; [| done].
    intros el Hel. rewrite <- Ho0. apply Hlands.
    unfold clicked_option in *. destruct target as [t|]; [| done].
    unfold has_attr in *. by rewrite <- Hattr.
  - pose proof (keyDownHandler_on_options opts Keycodes keyCode w Hon) as Hk.
    assert (Hreturns : ∃ w', keyDownHandler_ Keycodes keyCode w = Return () w').
    { destruct (direction_cases Keycodes (isLtr w) keyCode) as [Hd | Hd].
      { exists w. unfold keyDownHandler_. prim. fold (isLtr w).
        by rewrite decide_True. }
      destruct Hon as (Ho & _ & Hfi).
      destruct (keyDownHandler_step Keycodes keyCode w Hd)
        as (w' & Hrun & _); [| by apply consistent_select_ready | by exists w'].
      rewrite Ho. destruct opts; [done |]. cbn [length] in *. lia. }
    destruct Hreturns as (w' & Hrun). rewrite Hrun in Hk.
    exists w'. split; [done |]. by apply Hrest.
  - destruct selected as [newValue|]; simpl.
    + destruct (selectedAttributeMutated_consistent newValue w Hc)
        as (w' & Hrun & _).
      pose proof (selectedAttributeMutated_on_options opts newValue w Hon)
        as Hk.
      rewrite Hrun in Hk. exists w'. split; [done |].
      apply Hrest; [| done]. by simpl.
    + exists w. split; [done |]. by apply Hrest.
Qed.

Lemma events_return Keycodes opts w0 events w :
  opts ≠ [] →
  options_ (this w0) = opts →
  (∀ r, attr (heap w) r "option" = attr (heap w0) r "option") →
  Forall (lands_on_option w0) events →
  consistent w → on_options opts w →
  ∃ w', forEach events (dispatch Keycodes) w = Return () w' ∧
    consistent w' ∧ on_options opts w'.
Proof.
  intros Hne Ho0. revert w.
  induction events as [|e events IH]; intros w Hattr Hall Hc Hon.
  { by exists w. }
  apply Forall_cons in Hall as [Hlands Hall].
  destruct (dispatch_returns Keycodes opts w0 e w Hne Ho0 Hattr Hlands Hc Hon)
    as (w1 & Hrun1 & Hattr1 & Hc1 & Hon1).
  destruct (IH w1 Hattr1 Hall Hc1 Hon1) as (w' & Hrun & Hc' & Hon').
  exists w'. simpl. by rewrite (bind_Return _ _ _ _ _ Hrun1).
Qed.

(** [X25]: while every click lands on an option the widget collected when it
    was built, or on none, no handler throws.  On a widget that
    [buildCallback] has built over at least one option, the options being
    distinct elements, any sequence of clicks, key presses and external
    mutations runs through with every handler returning; afterwards the
    selection still lies within the options and [focusedIndex_] is still
    the index of an option. *)
Theorem handlers_never_throw Keycodes queried h b host trace w0 events :
  NoDup queried →
  queried ≠ [] →
  buildCallback queried (constructed h b host trace) = Return () w0 →
  Forall (lands_on_option w0) events →
  ∃ w, forEach events (dispatch Keycodes) w0 = Return () w ∧
    (∀ r, r ∈ selectedOptions_ (this w) → r ∈ queried) ∧
    0 ≤ focusedIndex_ (this w) < Z.of_nat (length queried).
Proof.
  intros Hnd Hne Hbuild Hall.
  pose proof (buildCallback_options _ _ _ _ _ _ Hbuild) as Ho.
  pose proof (buildCallback_own_options queried h b host trace) as Hon.
  rewrite Hbuild in Hon. cbn [final] in Hon. rewrite Ho in Hon.
  pose proof (buildCallback_consistent _ _ _ _ _ _ Hnd Hbuild) as Hc.
  destruct (events_return Keycodes queried w0 events w0)
    as (w & Hrun & _ & _ & Hsel & Hfi); try done.
  exists w. split_and!; try done; destruct queried; cbn [length] in *;
    try done; lia.
Qed.

Lemma handlers_never_throw_witness :
  ∃ w, forEach [KeyDown 40; Click (λ _, None) (Some optZ); KeyDown 37;
                AttributesMutated (Some (JsScalar "X")); KeyDown 38]
         (dispatch arrowKeycodes) sampleFocusMode = Return () w ∧
    (∀ r, r ∈ selectedOptions_ (this w) → r ∈ [optX; optY; optZ]) ∧
    0 ≤ focusedIndex_ (this w) < Z.of_nat (length [optX; optY; optZ]).
Proof.
  apply (handlers_never_throw arrowKeycodes [optX; optY; optZ]
           (heap (sampleDocument
                    [("name", "color"); ("keyboard-select-mode", "focus")]
                    [("option", "X")] [("option", "Y"); ("selected", "")]
                    [("option", "Z")]))
           bodyEl hostEl [] sampleFocusMode).
  - apply (bool_decide_unpack (NoDup [optX; optY; optZ])). vm_compute. exact I.
  - discriminate.
  - vm_compute. reflexivity.
  - repeat apply Forall_cons_2; try apply Forall_nil_2; try exact I.
    intros el Hel. vm_compute in Hel. injection Hel as <-.
    apply (bool_decide_unpack _). vm_compute. exact I.
Defined.
